(** * FLENgames Stockgame: scoring, sanitizing, merging and the symbol search cache

    A shallow embedding of [src/prediction.ts] (scoring engine, entry
    sanitizer, merge resolver) and [src/alphaVantage.ts] (response parser
    and symbol search cache), followed by the properties of the
    specification that were checked against them.

    Conventions of the embedding.
    - A JavaScript number is an extended rational: the finite doubles are
      rationals, and [NaN], [+Infinity], [-Infinity] are kept apart.
      Arithmetic is exact (the rounding of results to 53 bits is not
      modelled) and the sign of zero is not tracked.  Comparisons,
      [Math.round] and [Math.floor] are exact on doubles, so they are
      modelled without loss.
    - Untrusted input ([unknown] in the TypeScript source) is a [jsval]: the
      JSON-like values.  An object is the list of its own properties in
      property order.
    - Runtime functions that the repository calls but does not define
      ([Date.parse], [Number], [Number.parseFloat]) are the fields of the
      class [Builtins]; the wall clock is an explicit argument. *)

From Stdlib Require Import QArith Qround ZArith Lia List Ascii String Bool.
From stdpp Require Import gmap strings list pretty.

Set Warnings "-register-all".
Local Open Scope string_scope.

(** ** JavaScript numbers *)

Inductive number : Type :=
| NaN
| PosInf
| NegInf
| Fin (q : Q).

Definition Qlt_bool (a b : Q) : bool := negb (Qle_bool b a).

Definition q_sign (q : Q) : Z := Z.sgn (Qnum q).

(** [a < b] *)
Definition num_lt (a b : number) : bool :=
  match a, b with
  | NaN, _ | _, NaN => false
  | NegInf, NegInf => false
  | NegInf, _ => true
  | _, NegInf => false
  | PosInf, _ => false
  | Fin _, PosInf => true
  | Fin x, Fin y => Qlt_bool x y
  end.

(** [a > b] *)
Definition num_gt (a b : number) : bool := num_lt b a.

(** [a === b] on numbers *)
Definition num_seq (a b : number) : bool :=
  match a, b with
  | PosInf, PosInf => true
  | NegInf, NegInf => true
  | Fin x, Fin y => Qeq_bool x y
  | _, _ => false
  end.

(** [a !== b] on numbers *)
Definition num_sne (a b : number) : bool := negb (num_seq a b).

(** [a <= b] *)
Definition num_le (a b : number) : bool := num_lt a b || num_seq a b.

Definition num_neg (a : number) : number :=
  match a with
  | NaN => NaN
  | PosInf => NegInf
  | NegInf => PosInf
  | Fin q => Fin (- q)
  end.

(** [a + b] *)
Definition num_add (a b : number) : number :=
  match a, b with
  | NaN, _ | _, NaN => NaN
  | PosInf, NegInf | NegInf, PosInf => NaN
  | PosInf, _ | _, PosInf => PosInf
  | NegInf, _ | _, NegInf => NegInf
  | Fin x, Fin y => Fin (x + y)
  end.

(** [a - b] *)
Definition num_sub (a b : number) : number := num_add a (num_neg b).

Definition signed_inf (s : Z) : number :=
  match s with
  | Z0 => NaN
  | Zpos _ => PosInf
  | Zneg _ => NegInf
  end.

Definition num_sign (a : number) : Z :=
  match a with
  | NaN => 0
  | PosInf => 1
  | NegInf => -1
  | Fin q => q_sign q
  end.

(** [a * b] *)
Definition num_mul (a b : number) : number :=
  match a, b with
  | NaN, _ | _, NaN => NaN
  | Fin x, Fin y => Fin (x * y)
  | _, _ => signed_inf (num_sign a * num_sign b)
  end.

(** [a / b]; a zero divisor is taken as [+0]. *)
Definition num_div (a b : number) : number :=
  match a, b with
  | NaN, _ | _, NaN => NaN
  | Fin x, Fin y =>
      if Qeq_bool y 0 then signed_inf (q_sign x) else Fin (x / y)
  | Fin _, _ => Fin 0
  | _, Fin y => if Qeq_bool y 0 then a else signed_inf (num_sign a * q_sign y)
  | _, _ => NaN
  end.

(** [Math.round]: the nearest integer, halves towards [+Infinity]. *)
Definition Math_round (a : number) : number :=
  match a with
  | Fin q => Fin (inject_Z (Qfloor (q + (1 # 2))))
  | _ => a
  end.

(** [Math.floor] *)
Definition Math_floor (a : number) : number :=
  match a with
  | Fin q => Fin (inject_Z (Qfloor q))
  | _ => a
  end.

Definition num_of_Z (z : Z) : number := Fin (inject_Z z).
Definition num_of_nat (n : nat) : number := num_of_Z (Z.of_nat n).

(** ** JSON-like values *)

Inductive jsval : Type :=
| VUndefined
| VNull
| VBool (b : bool)
| VNum (n : number)
| VStr (s : string)
| VArr (elems : list jsval)
| VObj (props : list (string * jsval)).

(** An object: its own properties, in property order. *)
Definition jsobject : Type := list (string * jsval).

(** [o[k]] for an own property, [undefined] when there is none. *)
Fixpoint obj_get (o : jsobject) (k : string) : jsval :=
  match o with
  | [] => VUndefined
  | (k', v) :: rest => if String.eqb k' k then v else obj_get rest k
  end.

Definition obj_has (o : jsobject) (k : string) : bool :=
  existsb (fun kv => String.eqb (fst kv) k) o.

(** Writing one property in an object literal after a spread: an existing
    key keeps its place and takes the new value, a new key goes last. *)
Fixpoint obj_set (o : jsobject) (k : string) (v : jsval) : jsobject :=
  match o with
  | [] => [(k, v)]
  | (k', v') :: rest =>
      if String.eqb k' k then (k', v) :: rest else (k', v') :: obj_set rest k v
  end.

(** [v.k] for the property names the sources read.  Only objects carry
    them; arrays and primitives answer [undefined].  (On [null] and
    [undefined] JavaScript throws; every read in the sources is behind a
    guard or a parameter default that excludes them.) *)
Definition get_field (v : jsval) (k : string) : jsval :=
  match v with
  | VObj o => obj_get o k
  | _ => VUndefined
  end.

(** The own named properties copied by [{...v}]. *)
Definition spread (v : jsval) : jsobject :=
  match v with
  | VObj o => o
  | _ => []
  end.

Definition num_truthy (n : number) : bool :=
  match n with
  | NaN => false
  | Fin q => negb (Qeq_bool q 0)
  | _ => true
  end.

Definition str_truthy (s : string) : bool := negb (String.eqb s "").

(** [Boolean(v)] *)
Definition truthy (v : jsval) : bool :=
  match v with
  | VUndefined | VNull => false
  | VBool b => b
  | VNum n => num_truthy n
  | VStr s => str_truthy s
  | VArr _ | VObj _ => true
  end.

(** [typeof v === 'object'] *)
Definition typeof_object (v : jsval) : bool :=
  match v with
  | VNull | VArr _ | VObj _ => true
  | _ => false
  end.

(** [typeof v === 'string'] *)
Definition typeof_string (v : jsval) : bool :=
  match v with VStr _ => true | _ => false end.

(** [typeof v === 'number'] *)
Definition typeof_number (v : jsval) : bool :=
  match v with VNum _ => true | _ => false end.

(** [v === 'lit'] *)
Definition is_str (v : jsval) (lit : string) : bool :=
  match v with VStr s => String.eqb s lit | _ => false end.

(** [v === undefined] *)
Definition is_undefined (v : jsval) : bool :=
  match v with VUndefined => true | _ => false end.

(** [v ?? d] *)
Definition nullish (v d : jsval) : jsval :=
  match v with
  | VUndefined | VNull => d
  | _ => v
  end.

(** ** Runtime functions used by the sources *)

Class Builtins : Type := {
  (** [Date.parse]: the time value in milliseconds, [None] for [NaN]. *)
  Date_parse : string -> option Z;
  (** [Number(s)] on a string. *)
  StringToNumber : string -> number;
  (** [Number(v)] on an array or an object. *)
  ObjectToNumber : jsval -> number;
  (** [Number.parseFloat] *)
  parseFloat : string -> number
}.

(** [Number(v)] *)
Definition ToNumber {rt : Builtins} (v : jsval) : number :=
  match v with
  | VUndefined => NaN
  | VNull => Fin 0
  | VBool b => if b then Fin 1 else Fin 0
  | VNum n => n
  | VStr s => StringToNumber s
  | VArr _ | VObj _ => ObjectToNumber v
  end.

(** ** prediction.ts: scoring engine *)

Module Prediction.

(** A price field read at its declared type [number | null], with the
    default of the [??] that follows it. *)
Definition price_or (v : jsval) (d : number) : number :=
  match v with
  | VNum n => n
  | _ => d
  end.

Definition resolvedWithPrices (prediction : jsobject) : bool :=
  is_str (obj_get prediction "status") "resolved"
  && typeof_number (obj_get prediction "openPrice")
  && typeof_number (obj_get prediction "closePrice").

Definition system1Step (total : number) (prediction : jsobject) : number :=
  let actualDirection :=
    if num_gt (price_or (obj_get prediction "closePrice") (Fin 0))
              (price_or (obj_get prediction "openPrice") (Fin 0))
    then "up" else "down" in
  num_add total
    (if is_str (obj_get prediction "prediction") actualDirection
     then Fin 1 else Fin (-1)).

Definition calculateSystem1Points (entries : list jsobject) : number :=
  fold_left system1Step (List.filter resolvedWithPrices entries) (Fin 0).

(** The filter of [calculateSystem2Points]. *)
Definition system2Filter (prediction : jsobject) : bool :=
  is_str (obj_get prediction "status") "resolved"
  && typeof_number (obj_get prediction "openPrice")
  && typeof_number (obj_get prediction "closePrice")
  && match obj_get prediction "openPrice" with
     | VNum n => num_sne n (Fin 0)
     | _ => true
     end.

(** The divisor of the percent change, [prediction.openPrice ?? 1]. *)
Definition system2Divisor (prediction : jsobject) : number :=
  price_or (obj_get prediction "openPrice") (Fin 1).

Definition changePercent (prediction : jsobject) : number :=
  let change :=
    num_div
      (num_sub (price_or (obj_get prediction "closePrice") (Fin 0))
               (price_or (obj_get prediction "openPrice") (Fin 0)))
      (system2Divisor prediction) in
  num_mul change (Fin 100).

Definition system2Step (total : number) (prediction : jsobject) : number :=
  if is_str (obj_get prediction "prediction") "up"
  then num_add total (changePercent prediction)
  else num_sub total (changePercent prediction).

Definition calculateSystem2Points (entries : list jsobject) : number :=
  fold_left system2Step (List.filter system2Filter entries) (Fin 0).

(** The same reduction with a division that traps: [None] as soon as a
    percent change would be computed with a divisor equal to zero. *)
Definition system2StepTrapping (total : option number) (prediction : jsobject)
  : option number :=
  match total with
  | None => None
  | Some t =>
      if num_seq (system2Divisor prediction) (Fin 0) then None
      else Some (system2Step t prediction)
  end.

Definition calculateSystem2PointsTrapping (entries : list jsobject)
  : option number :=
  fold_left system2StepTrapping (List.filter system2Filter entries)
    (Some (Fin 0)).

(** ** prediction.ts: entry sanitizer *)

Record LeagueEntry : Type := {
  predictions : list jsobject;
  pointsS1 : number;
  pointsS2 : number;
  updatedAt : string
}.

(** The object literal that [sanitizeUserEntry] returns, as a value. *)
Definition entry_object (e : LeagueEntry) : jsobject :=
  [ ("predictions", VArr (map VObj (predictions e)));
    ("pointsS1", VNum (pointsS1 e));
    ("pointsS2", VNum (pointsS2 e));
    ("updatedAt", VStr (updatedAt e)) ].

Definition getValidTimestamp {rt : Builtins} (value : jsval) : Z :=
  match value with
  | VStr s =>
      match Date_parse s with
      | None => 0
      | Some parsed => parsed
      end
  | _ => 0
  end.

Definition isPrediction (entry : jsval) : bool :=
  if negb (truthy entry) || negb (typeof_object entry) then false
  else
    let candidate := entry in
    typeof_string (get_field candidate "symbol")
    && (is_str (get_field candidate "prediction") "up"
        || is_str (get_field candidate "prediction") "down")
    && (is_str (get_field candidate "period") "day"
        || is_str (get_field candidate "period") "week")
    && typeof_string (get_field candidate "madeAt")
    && typeof_string (get_field candidate "targetDate")
    && (is_str (get_field candidate "status") "pending"
        || is_str (get_field candidate "status") "resolved"
        || is_undefined (get_field candidate "status")).

(** The callback mapped over the surviving predictions. *)
Definition sanitizePrediction (username : string) (prediction : jsval)
  : jsobject :=
  let openPrice :=
    if typeof_number (get_field prediction "openPrice")
    then get_field prediction "openPrice" else VNull in
  let closePrice :=
    if typeof_number (get_field prediction "closePrice")
    then get_field prediction "closePrice" else VNull in
  let status :=
    if is_str (get_field prediction "status") "resolved"
    then "resolved" else "pending" in
  obj_set
    (obj_set
       (obj_set
          (obj_set (spread prediction) "openPrice" openPrice)
          "closePrice" closePrice)
       "status" (VStr status))
    "user" (VStr username).

(** [now_iso] is [new Date().toISOString()] at the time of the call. *)
Definition sanitizeUserEntry {rt : Builtins} (now_iso : string)
    (username : string) (entry : jsval) : LeagueEntry :=
  let rawPredictions :=
    match get_field entry "predictions" with
    | VArr l => l
    | _ => []
    end in
  let sanitizedPredictions :=
    map (sanitizePrediction username) (List.filter isPrediction rawPredictions) in
  let hasPredictionData := Nat.ltb 0 (length sanitizedPredictions) in
  let computedS1 :=
    if hasPredictionData
    then Math_round (calculateSystem1Points sanitizedPredictions)
    else Math_round (ToNumber (nullish (get_field entry "pointsS1") (VNum (Fin 0)))) in
  let computedS2 :=
    if hasPredictionData
    then Math_round (calculateSystem2Points sanitizedPredictions)
    else Math_round (ToNumber (nullish (get_field entry "pointsS2") (VNum (Fin 0)))) in
  let updatedAtCandidate :=
    if typeof_string (get_field entry "updatedAt")
       && truthy (get_field entry "updatedAt")
    then match get_field entry "updatedAt" with VStr s => s | _ => now_iso end
    else now_iso in
  {| predictions := sanitizedPredictions;
     pointsS1 := computedS1;
     pointsS2 := computedS2;
     updatedAt := updatedAtCandidate |}.

(** ** prediction.ts: merge resolver *)

(** What a property read [users[username]] on a plain object can produce
    when it is not [undefined]: an own [LeagueEntry], a value inherited
    from an entry that became the prototype, or a member inherited from
    [Object.prototype] (a function, or the prototype object itself for
    [__proto__]).  Only the first has the fields of a [LeagueEntry]. *)
Inductive stored_value : Type :=
| StoredEntry (e : LeagueEntry)
| StoredInherited (v : jsval)
| StoredBuiltin.

(** [!value] is false *)
Definition stored_truthy (x : option stored_value) : bool :=
  match x with
  | None => false
  | Some (StoredEntry _) => true
  | Some (StoredInherited v) => truthy v
  | Some StoredBuiltin => true
  end.

(** [x?.updatedAt] *)
Definition read_updatedAt (x : stored_value) : jsval :=
  match x with
  | StoredEntry e => VStr (updatedAt e)
  | _ => VUndefined
  end.

(** [x?.predictions?.length ?? 0] *)
Definition read_count (x : stored_value) : nat :=
  match x with
  | StoredEntry e => length (predictions e)
  | _ => 0
  end.

(** [x.pointsS1] and [x.pointsS2], [None] for [undefined]. *)
Definition read_pointsS1 (x : stored_value) : option number :=
  match x with
  | StoredEntry e => Some (pointsS1 e)
  | _ => None
  end.

Definition read_pointsS2 (x : stored_value) : option number :=
  match x with
  | StoredEntry e => Some (pointsS2 e)
  | _ => None
  end.

(** [a !== b] and [a > b] for a number [a] and a number or [undefined] [b]. *)
Definition sne_opt (a : number) (b : option number) : bool :=
  match b with
  | Some y => num_sne a y
  | None => true
  end.

Definition gt_opt (a : number) (b : option number) : bool :=
  match b with
  | Some y => num_gt a y
  | None => false
  end.

Definition shouldReplaceUserEntry {rt : Builtins}
    (existingEntry : stored_value) (incomingEntry : LeagueEntry) : bool :=
  let existingTimestamp := getValidTimestamp (read_updatedAt existingEntry) in
  let incomingTimestamp := getValidTimestamp (VStr (updatedAt incomingEntry)) in
  let byCountAndPoints :=
    let existingCount := read_count existingEntry in
    let incomingCount := length (predictions incomingEntry) in
    if negb (Nat.eqb incomingCount existingCount)
    then Nat.ltb existingCount incomingCount
    else if sne_opt (pointsS1 incomingEntry) (read_pointsS1 existingEntry)
    then gt_opt (pointsS1 incomingEntry) (read_pointsS1 existingEntry)
    else if sne_opt (pointsS2 incomingEntry) (read_pointsS2 existingEntry)
    then gt_opt (pointsS2 incomingEntry) (read_pointsS2 existingEntry)
    else false in
  if negb (Z.eqb incomingTimestamp 0) && negb (Z.eqb existingTimestamp 0)
  then
    if Z.ltb existingTimestamp incomingTimestamp then true
    else if Z.ltb incomingTimestamp existingTimestamp then false
    else byCountAndPoints
  else if negb (Z.eqb incomingTimestamp 0) && Z.eqb existingTimestamp 0
  then true
  else if Z.eqb incomingTimestamp 0 && negb (Z.eqb existingTimestamp 0)
  then false
  else byCountAndPoints.

(** The names every plain object inherits from [Object.prototype]. *)
Definition Object_prototype_names : list string :=
  [ "constructor"; "__defineGetter__"; "__defineSetter__"; "hasOwnProperty";
    "__lookupGetter__"; "__lookupSetter__"; "isPrototypeOf";
    "propertyIsEnumerable"; "toString"; "valueOf"; "__proto__";
    "toLocaleString" ].

Definition inherited_name (k : string) : bool :=
  existsb (String.eqb k) Object_prototype_names.

(** The object [mergedUsers]: its own properties and, once an assignment
    to [__proto__] has reached the inherited setter, the entry installed
    as its prototype. *)
Record users_object : Type := {
  own : gmap string LeagueEntry;
  proto : option LeagueEntry
}.

(** [users[username]] *)
Definition users_get (users : users_object) (username : string)
  : option stored_value :=
  match own users !! username with
  | Some e => Some (StoredEntry e)
  | None =>
      match proto users with
      | Some p =>
          if obj_has (entry_object p) username
          then Some (StoredInherited (obj_get (entry_object p) username))
          else if String.eqb username "__proto__" then Some (StoredEntry p)
          else if inherited_name username then Some StoredBuiltin
          else None
      | None =>
          if inherited_name username then Some StoredBuiltin else None
      end
  end.

(** [users[username] = entry] *)
Definition users_set (users : users_object) (username : string)
    (entry : LeagueEntry) : users_object :=
  match own users !! username with
  | None =>
      if String.eqb username "__proto__"
      then {| own := own users; proto := Some entry |}
      else {| own := <[username := entry]> (own users); proto := proto users |}
  | Some _ =>
      {| own := <[username := entry]> (own users); proto := proto users |}
  end.

Record MergeOptions : Type := {
  exclude : option (list string)
}.

Record MergeSummary : Type := {
  added : list string;
  updated : list string;
  mergedUsers : users_object
}.

(** [Object.entries]: own enumerable properties; an array lists its
    elements under their indices. *)
Definition Object_entries (v : jsval) : list (string * jsval) :=
  match v with
  | VObj o => o
  | VArr l => imap (fun i x => (pretty i, x)) l
  | _ => []
  end.

(** The test under which the [forEach] callback returns at once. *)
Definition skipped (excludedUsers : gset string) (username : string)
    (entry : jsval) : bool :=
  negb (str_truthy username)
  || bool_decide (username ∈ excludedUsers)
  || negb (truthy entry)
  || negb (typeof_object entry).

(** One call of the [forEach] callback; [now_iso] is the clock reading
    available to this call. *)
Definition mergeStep {rt : Builtins} (excludedUsers : gset string)
    (summary : MergeSummary) (now_iso : string) (username : string)
    (entry : jsval) : MergeSummary :=
  if skipped excludedUsers username entry
  then summary
  else
    let sanitizedEntry := sanitizeUserEntry now_iso username entry in
    let existingEntry := users_get (mergedUsers summary) username in
    if negb (stored_truthy existingEntry)
    then {| added := added summary ++ [username];
            updated := updated summary;
            mergedUsers := users_set (mergedUsers summary) username sanitizedEntry |}
    else
      match existingEntry with
      | Some x =>
          if shouldReplaceUserEntry x sanitizedEntry
          then {| added := added summary;
                  updated := updated summary ++ [username];
                  mergedUsers :=
                    users_set (mergedUsers summary) username sanitizedEntry |}
          else summary
      | None => summary
      end.

(** The [forEach] loop; [clock i] is the clock reading during the call for
    the [i]-th entry. *)
Fixpoint mergeLoop {rt : Builtins} (excludedUsers : gset string)
    (clock : nat -> string) (i : nat) (entries : list (string * jsval))
    (summary : MergeSummary) : MergeSummary :=
  match entries with
  | [] => summary
  | (username, entry) :: rest =>
      mergeLoop excludedUsers clock (S i) rest
        (mergeStep excludedUsers summary (clock i) username entry)
  end.

Definition mergeLeagueUsers {rt : Builtins} (clock : nat -> string)
    (existingUsers : gmap string LeagueEntry) (incomingUsers : jsval)
    (options : MergeOptions) : MergeSummary :=
  let excludedUsers : gset string :=
    list_to_set (default [] (exclude options)) in
  let mergedUsers := {| own := existingUsers; proto := None |} in
  let summary := {| added := []; updated := []; mergedUsers := mergedUsers |} in
  if negb (truthy incomingUsers) || negb (typeof_object incomingUsers)
  then summary
  else mergeLoop excludedUsers clock 0 (Object_entries incomingUsers) summary.

End Prediction.

(** ** alphaVantage.ts: strings and small conversions *)

Module AlphaVantage.

(** White space and line terminators that [String.prototype.trim] strips,
    within ASCII. *)
Definition is_whitespace (c : ascii) : bool :=
  let n := nat_of_ascii c in
  (Nat.leb 9 n && Nat.leb n 13) || Nat.eqb n 32.

Fixpoint trimStart (s : string) : string :=
  match s with
  | EmptyString => EmptyString
  | String c rest => if is_whitespace c then trimStart rest else s
  end.

Fixpoint trimEnd (s : string) : string :=
  match s with
  | EmptyString => EmptyString
  | String c rest =>
      let rest' := trimEnd rest in
      if is_whitespace c && String.eqb rest' "" then EmptyString
      else String c rest'
  end.

(** [s.trim()] *)
Definition trim (s : string) : string := trimEnd (trimStart s).

Definition lower_ascii (c : ascii) : ascii :=
  let n := nat_of_ascii c in
  if Nat.leb 65 n && Nat.leb n 90 then ascii_of_nat (n + 32) else c.

(** [s.toLowerCase()], within ASCII. *)
Fixpoint toLowerCase (s : string) : string :=
  match s with
  | EmptyString => EmptyString
  | String c rest => String (lower_ascii c) (toLowerCase rest)
  end.

Definition DEFAULT_CACHE_TTL_MS : number := num_of_Z (5 * 60 * 1000).
Definition DEFAULT_CACHE_MAX_ENTRIES : number := num_of_Z 50.

Definition isRecord (value : jsval) : bool :=
  typeof_object value && negb (match value with VNull => true | _ => false end).

Definition toCleanString (value : jsval) : option string :=
  match value with
  | VStr s =>
      let trimmed := trim s in
      if Nat.ltb 0 (String.length trimmed) then Some trimmed else None
  | _ => None
  end.

(** [Number.isFinite] *)
Definition isFinite (n : number) : bool :=
  match n with Fin _ => true | _ => false end.

Definition toNumber {rt : Builtins} (value : jsval) : option number :=
  match value with
  | VNum n => if isFinite n then Some n else None
  | VStr s =>
      let parsed := parseFloat s in
      if isFinite parsed then Some parsed else None
  | _ => None
  end.

Definition normalizeSymbolSearchKeyword (keyword : string) : string :=
  toLowerCase (trim keyword).

(** ** alphaVantage.ts: response parser *)

Record SymbolSearchMatch : Type := {
  symbol : string;
  name : string;
  region : option string;
  currency : option string;
  matchScore : option number;
  type : option string
}.

Record ParsedSymbolSearchResponse : Type := {
  matches : list SymbolSearchMatch;
  message : option string;
  isRateLimited : bool;
  isCacheable : bool
}.

(** [!s] for [s : string | undefined] *)
Definition missing (s : option string) : bool :=
  match s with
  | Some t => negb (str_truthy t)
  | None => true
  end.

(** An optional field is assigned only under [if (s)]. *)
Definition when_truthy (s : option string) : option string :=
  if missing s then None else s.

Definition parseSymbolSearchMatch {rt : Builtins} (value : jsval)
  : option SymbolSearchMatch :=
  if negb (isRecord value) then None
  else
    let symbol := toCleanString (get_field value "1. symbol") in
    let name := toCleanString (get_field value "2. name") in
    if missing symbol || missing name then None
    else
      let type := toCleanString (get_field value "3. type") in
      let region := toCleanString (get_field value "4. region") in
      let currency := toCleanString (get_field value "8. currency") in
      let score := toNumber (get_field value "9. matchScore") in
      Some {| symbol := default "" symbol;
              name := default "" name;
              region := when_truthy region;
              currency := when_truthy currency;
              matchScore := score;
              type := when_truthy type |}.

Definition unexpectedResponse : ParsedSymbolSearchResponse :=
  {| matches := [];
     message := Some "Unexpected response from Alpha Vantage.";
     isRateLimited := false;
     isCacheable := false |}.

Definition parseSymbolSearchResponse {rt : Builtins} (value : jsval)
  : ParsedSymbolSearchResponse :=
  if negb (isRecord value) then unexpectedResponse
  else
    let note := toCleanString (get_field value "Note") in
    if negb (missing note)
    then {| matches := []; message := note;
            isRateLimited := true; isCacheable := false |}
    else
      let information := toCleanString (get_field value "Information") in
      if negb (missing information)
      then {| matches := []; message := information;
              isRateLimited := true; isCacheable := false |}
      else
        let errorMessage := toCleanString (get_field value "Error Message") in
        if negb (missing errorMessage)
        then {| matches := []; message := errorMessage;
                isRateLimited := false; isCacheable := false |}
        else
          match get_field value "bestMatches" with
          | VArr rawBestMatches =>
              {| matches := omap parseSymbolSearchMatch rawBestMatches;
                 message := None;
                 isRateLimited := false;
                 isCacheable := true |}
          | _ => unexpectedResponse
          end.

End AlphaVantage.

(** ** alphaVantage.ts: the symbol search cache

    Match lists are JavaScript arrays of objects, shared by reference
    between the cache and its callers.  They live in a heap: an array cell
    holds the locations of its elements, an object cell holds a match.
    Allocation appends a cell; a location is an index into the heap. *)

Module SymbolSearchCache.
Import AlphaVantage.

Abbreviation loc := nat (only parsing).

Inductive cell : Type :=
| CArray (elems : list loc)
| CMatch (m : SymbolSearchMatch).

Abbreviation heap := (list cell) (only parsing).

Definition alloc (h : heap) (c : cell) : heap * loc := ((h ++ [c])%list, length h).

Definition read_array (h : heap) (a : loc) : option (list loc) :=
  match h !! a with
  | Some (CArray elems) => Some elems
  | _ => None
  end.

Definition read_match (h : heap) (l : loc) : option SymbolSearchMatch :=
  match h !! l with
  | Some (CMatch m) => Some m
  | _ => None
  end.

(** The list of matches that the array at [a] denotes, when [a] is an array
    of match objects as its TypeScript type says. *)
Definition view (h : heap) (a : loc) : option (list SymbolSearchMatch) :=
  match read_array h a with
  | Some elems => mapM (read_match h) elems
  | None => None
  end.

(** The cells that make up the array at [a]: the array and its elements. *)
Definition footprint (h : heap) (a : loc) : list loc :=
  a :: default [] (read_array h a).

(** [elems.map((match) => ({ ...match }))], element by element. *)
Fixpoint cloneElems (h : heap) (elems : list loc) : option (heap * list loc) :=
  match elems with
  | [] => Some (h, [])
  | l :: rest =>
      match read_match h l with
      | None => None
      | Some m =>
          let '(h1, l') := alloc h (CMatch m) in
          match cloneElems h1 rest with
          | None => None
          | Some (h2, ls) => Some (h2, l' :: ls)
          end
      end
  end.

(** [None] stands for a run-time type error: [matches] is not an array of
    objects. *)
Definition cloneMatches (h : heap) (matches : loc) : option (heap * loc) :=
  match read_array h matches with
  | None => None
  | Some elems =>
      match cloneElems h elems with
      | None => None
      | Some (h1, copies) => Some (alloc h1 (CArray copies))
      end
  end.

(** A [Map] with string keys, in insertion order. *)
Section StringMap.
Context {V : Type}.

Fixpoint Map_get (m : list (string * V)) (k : string) : option V :=
  match m with
  | [] => None
  | (k', v) :: rest => if String.eqb k' k then Some v else Map_get rest k
  end.

Fixpoint Map_set (m : list (string * V)) (k : string) (v : V)
  : list (string * V) :=
  match m with
  | [] => [(k, v)]
  | (k', v') :: rest =>
      if String.eqb k' k then (k', v) :: rest
      else (k', v') :: Map_set rest k v
  end.

Fixpoint Map_delete (m : list (string * V)) (k : string)
  : list (string * V) :=
  match m with
  | [] => []
  | (k', v') :: rest =>
      if String.eqb k' k then rest else (k', v') :: Map_delete rest k
  end.

End StringMap.

Record SymbolSearchCacheOptions : Type := {
  options_ttlMs : option number;
  options_maxEntries : option number
}.

Record CacheEntry : Type := {
  matches : loc;
  expiresAt : number;
  lastAccessed : Z
}.

(** The variables closed over by the functions of one cache: the two
    constants, the counter and the map.  The counter and the recency
    markers are integers: the additions of 1 on them are exact on doubles
    below 2^53, which no run reaches. *)
Record SymbolSearchCache : Type := {
  ttlMs : number;
  maxEntries : number;
  accessSequence : Z;
  cache : list (string * CacheEntry)
}.

Definition createSymbolSearchCache (options : SymbolSearchCacheOptions)
  : SymbolSearchCache :=
  {| ttlMs :=
       match options_ttlMs options with
       | Some n => if num_gt n (Fin 0) then n else DEFAULT_CACHE_TTL_MS
       | None => DEFAULT_CACHE_TTL_MS
       end;
     maxEntries :=
       match options_maxEntries options with
       | Some n =>
           if num_gt n (Fin 0) then Math_floor n else DEFAULT_CACHE_MAX_ENTRIES
       | None => DEFAULT_CACHE_MAX_ENTRIES
       end;
     accessSequence := 0;
     cache := [] |}.

Definition with_cache (c : SymbolSearchCache) (seq : Z)
    (m : list (string * CacheEntry)) : SymbolSearchCache :=
  {| ttlMs := ttlMs c; maxEntries := maxEntries c;
     accessSequence := seq; cache := m |}.

(** The [forEach] scan for the entry with the smallest [lastAccessed]. *)
Definition oldestStep (acc : option string * number)
    (kv : string * CacheEntry) : option string * number :=
  if num_lt (num_of_Z (lastAccessed (snd kv))) (snd acc)
  then (Some (fst kv), num_of_Z (lastAccessed (snd kv)))
  else acc.

Definition findOldestKey (m : list (string * CacheEntry)) : option string :=
  fst (fold_left oldestStep m (None, PosInf)).

(** [now] is [Date.now()] at the time of the call. *)
Definition set (now : number) (keyword : string) (matches_arg : loc)
    (h : heap) (c : SymbolSearchCache) : option (heap * SymbolSearchCache) :=
  if num_seq (maxEntries c) (Fin 0) then Some (h, c)
  else
    let normalizedKey := normalizeSymbolSearchKeyword keyword in
    if negb (str_truthy normalizedKey) then Some (h, c)
    else
      let seq := (accessSequence c + 1)%Z in
      match cloneMatches h matches_arg with
      | None => None
      | Some (h1, copy) =>
          let m :=
            Map_set (cache c) normalizedKey
              {| matches := copy;
                 expiresAt := num_add now (ttlMs c);
                 lastAccessed := seq |} in
          let m' :=
            if num_gt (num_of_nat (length m)) (maxEntries c)
            then
              match findOldestKey m with
              | Some oldestKey =>
                  if str_truthy oldestKey then Map_delete m oldestKey else m
              | None => m
              end
            else m in
          Some (h1, with_cache c seq m')
      end.

(** The result is [None] for [null], the location of the returned array
    otherwise. *)
Definition get (now : number) (keyword : string)
    (h : heap) (c : SymbolSearchCache)
  : option (heap * SymbolSearchCache * option loc) :=
  let normalizedKey := normalizeSymbolSearchKeyword keyword in
  if negb (str_truthy normalizedKey) then Some (h, c, None)
  else
    match Map_get (cache c) normalizedKey with
    | None => Some (h, c, None)
    | Some entry =>
        if num_le (expiresAt entry) now
        then Some (h, with_cache c (accessSequence c)
                        (Map_delete (cache c) normalizedKey), None)
        else
          let seq := (accessSequence c + 1)%Z in
          let m :=
            Map_set (cache c) normalizedKey
              {| matches := matches entry;
                 expiresAt := expiresAt entry;
                 lastAccessed := seq |} in
          match cloneMatches h (matches entry) with
          | None => None
          | Some (h1, copy) => Some (h1, with_cache c seq m, Some copy)
          end
    end.

Definition clear (c : SymbolSearchCache) : SymbolSearchCache :=
  with_cache c (accessSequence c) [].

Definition pruneExpired (now : number) (c : SymbolSearchCache)
  : SymbolSearchCache :=
  with_cache c (accessSequence c)
    (List.filter (fun kv => negb (num_le (expiresAt (snd kv)) now)) (cache c)).

Definition size (c : SymbolSearchCache) : nat := length (cache c).

(** The state that the functions of a cache maintain: keys are unique,
    every stored [matches] is an array of match objects, and no recency
    marker is ahead of the counter. *)
Definition entry_ok (h : heap) (seq : Z) (e : CacheEntry) : bool :=
  bool_decide (is_Some (view h (matches e))) && (lastAccessed e <=? seq)%Z.

Definition wf_cache (h : heap) (c : SymbolSearchCache) : bool :=
  bool_decide (NoDup (map fst (cache c)))
  && forallb (fun kv => entry_ok h (accessSequence c) (snd kv)) (cache c).

(** What a program holding the cache can do between two moments: call one
    of its functions, or write and allocate cells of its own. *)
Inductive action : Type :=
| CallSet (now : number) (keyword : string) (matches_arg : loc)
| CallGet (now : number) (keyword : string)
| CallClear
| CallPruneExpired (now : number)
| HeapWrite (l : loc) (c : cell)
| HeapAlloc (c : cell).

Definition step (a : action) (h : heap) (c : SymbolSearchCache)
  : option (heap * SymbolSearchCache) :=
  match a with
  | CallSet now keyword matches_arg => set now keyword matches_arg h c
  | CallGet now keyword =>
      match get now keyword h c with
      | Some (h1, c1, _) => Some (h1, c1)
      | None => None
      end
  | CallClear => Some (h, clear c)
  | CallPruneExpired now => Some (h, pruneExpired now c)
  | HeapWrite l x => Some (<[l := x]> h, c)
  | HeapAlloc x => Some ((h ++ [x])%list, c)
  end.

Fixpoint run (actions : list action) (h : heap) (c : SymbolSearchCache)
  : option (heap * SymbolSearchCache) :=
  match actions with
  | [] => Some (h, c)
  | a :: rest =>
      match step a h c with
      | None => None
      | Some (h1, c1) => run rest h1 c1
      end
  end.

End SymbolSearchCache.

(** ** A concrete instance of the runtime functions

    Used to evaluate the definitions on examples.  Each function reads one
    plain format, the one of the literals in the examples: [Date.parse]
    reads [YYYY-MM-DDTHH:mm:ss.sssZ], the numeric conversions read
    [-?digits(.digits)?].  Everything else is answered with [NaN]. *)

Module Sample.

Definition digit (c : ascii) : option Z :=
  let n := nat_of_ascii c in
  if Nat.leb 48 n && Nat.leb n 57 then Some (Z.of_nat (n - 48)) else None.

Fixpoint digits_from (acc : Z) (s : string) : option Z :=
  match s with
  | EmptyString => Some acc
  | String c rest =>
      match digit c with
      | Some d => digits_from (acc * 10 + d) rest
      | None => None
      end
  end.

Definition digits (s : string) : option Z :=
  match s with
  | EmptyString => None
  | _ => digits_from 0 s
  end.

(** Days from 1970-01-01 to the given day of the proleptic Gregorian
    calendar. *)
Definition days_from_civil (y m d : Z) : Z :=
  let y' := if (m <=? 2)%Z then (y - 1)%Z else y in
  let era := (y' / 400)%Z in
  let yoe := (y' - era * 400)%Z in
  let mp := ((m + 9) mod 12)%Z in
  let doy := ((153 * mp + 2) / 5 + d - 1)%Z in
  let doe := (yoe * 365 + yoe / 4 - yoe / 100 + doy)%Z in
  (era * 146097 + doe - 719468)%Z.

Definition in_range (lo hi : Z) (x : Z) : bool := ((lo <=? x) && (x <=? hi))%Z.

Definition iso_utc_parse (s : string) : option Z :=
  if negb (Nat.eqb (String.length s) 24) then None
  else if negb (String.eqb (substring 4 1 s) "-"
                && String.eqb (substring 7 1 s) "-"
                && String.eqb (substring 10 1 s) "T"
                && String.eqb (substring 13 1 s) ":"
                && String.eqb (substring 16 1 s) ":"
                && String.eqb (substring 19 1 s) "."
                && String.eqb (substring 23 1 s) "Z") then None
  else
    match digits (substring 0 4 s), digits (substring 5 2 s),
          digits (substring 8 2 s), digits (substring 11 2 s),
          digits (substring 14 2 s), digits (substring 17 2 s),
          digits (substring 20 3 s) with
    | Some y, Some mo, Some d, Some hh, Some mi, Some ss, Some ms =>
        if in_range 1 12 mo && in_range 1 31 d && in_range 0 23 hh
           && in_range 0 59 mi && in_range 0 59 ss
        then Some ((((days_from_civil y mo d * 24 + hh) * 60 + mi) * 60 + ss)
                   * 1000 + ms)%Z
        else None
    | _, _, _, _, _, _, _ => None
    end.

Fixpoint split_at_dot (s : string) : string * option string :=
  match s with
  | EmptyString => (EmptyString, None)
  | String c rest =>
      if Ascii.eqb c "."%char then (EmptyString, Some rest)
      else let '(a, b) := split_at_dot rest in (String c a, b)
  end.

Definition unsigned_decimal (s : string) : number :=
  match split_at_dot s with
  | (whole, None) =>
      match digits whole with
      | Some w => Fin (inject_Z w)
      | None => NaN
      end
  | (whole, Some frac) =>
      match digits whole, digits frac with
      | Some w, Some f =>
          Fin (Qred (inject_Z w + Qmake f (Pos.of_nat (10 ^ String.length frac))))
      | _, _ => NaN
      end
  end.

Definition decimal (s : string) : number :=
  match s with
  | String "-" rest => num_neg (unsigned_decimal rest)
  | _ => unsigned_decimal s
  end.

#[export] Instance sample_builtins : Builtins := {|
  Date_parse := iso_utc_parse;
  StringToNumber := decimal;
  ObjectToNumber := fun _ => NaN;
  parseFloat := decimal
|}.

End Sample.

(** ** Example data *)

Module Examples.
Import Prediction.

(** [basePrediction] of the test suite. *)
Definition basePrediction : jsobject :=
  [ ("id", VNum (Fin 1)); ("symbol", VStr "AAPL"); ("prediction", VStr "up");
    ("period", VStr "day"); ("madeAt", VStr "2024-01-01T00:00:00.000Z");
    ("targetDate", VStr "2024-01-02"); ("openPrice", VNum (Fin 100));
    ("closePrice", VNum (Fin 110)); ("status", VStr "resolved");
    ("user", VStr "Test") ].

(** The entry of the test "preserves numeric price data provided as strings
    when sanitizing entries". *)
Definition stringPriceEntry : jsval :=
  VObj [ ("predictions",
          VArr [ VObj (obj_set
                         (obj_set
                            (obj_set
                               (obj_set basePrediction "id" (VNum (Fin 6)))
                               "openPrice" (VStr "150.25"))
                            "closePrice" (VStr "175.75"))
                         "status" (VStr "resolved")) ]) ].


(** Two entries for the merge resolver: one updated at the epoch instant,
    one a millisecond before it. *)
Definition epochEntry : LeagueEntry :=
  {| predictions := []; pointsS1 := Fin 0; pointsS2 := Fin 0;
     updatedAt := "1970-01-01T00:00:00.000Z" |}.

Definition beforeEpochEntry : LeagueEntry :=
  {| predictions := []; pointsS1 := Fin 0; pointsS2 := Fin 0;
     updatedAt := "1969-12-31T23:59:59.999Z" |}.

(** An incoming collection with one user, named like a method that every
    object inherits. *)
Definition toStringUsers : jsval :=
  VObj [ ("toString",
          VObj [ ("predictions", VArr []);
                 ("updatedAt", VStr "2024-03-02T00:00:00.000Z") ]) ].

Definition fixedClock : nat -> string := fun _ => "2024-03-05T00:00:00.000Z".

(** The entries of the test "decides whether to replace user entries based
    on freshness and score". *)
Definition existingMarch1 : LeagueEntry :=
  {| predictions := [basePrediction]; pointsS1 := Fin 1; pointsS2 := Fin 10;
     updatedAt := "2024-03-01T00:00:00.000Z" |}.

Definition incomingMarch2 : LeagueEntry :=
  {| predictions := [basePrediction; obj_set basePrediction "id" (VNum (Fin 4))];
     pointsS1 := Fin 2; pointsS2 := Fin 25;
     updatedAt := "2024-03-02T00:00:00.000Z" |}.

(** The collections of the test "merges league users while tracking
    additions and updates", with a record for the excluded user added. *)
Definition rawEntry (ps : list jsval) (s1 s2 : Q) (at_ : string) : jsval :=
  VObj [ ("predictions", VArr ps); ("pointsS1", VNum (Fin s1));
         ("pointsS2", VNum (Fin s2)); ("updatedAt", VStr at_) ].

Definition mergeExisting : gmap string LeagueEntry :=
  {[ "Alpha" := existingMarch1 ]}.

Definition mergeIncoming : jsval :=
  VObj [ ("Alpha",
          rawEntry [VObj basePrediction;
                    VObj (obj_set basePrediction "id" (VNum (Fin 5)))]
            3 40 "2024-03-03T00:00:00.000Z");
         ("Beta", rawEntry [VObj basePrediction] 1 12 "2024-03-02T00:00:00.000Z");
         ("Ignored",
          rawEntry [VObj basePrediction] 1 12 "2024-03-02T00:00:00.000Z") ].

Definition mergeOptions : MergeOptions := {| exclude := Some ["Ignored"] |}.

(** Two payloads of the parser's tests. *)
Definition noteResponse : jsval :=
  VObj [ ("Note", VStr "Please try again later.") ].

Definition mixedMatchesResponse : jsval :=
  VObj [ ("bestMatches",
          VArr [ VObj [ ("1. symbol", VStr "TSLA"); ("2. name", VStr "Tesla Inc.") ];
                 VObj [ ("1. symbol", VStr ""); ("2. name", VStr "Invalid") ];
                 VObj [ ("not a match", VBool true) ] ]) ].

Import AlphaVantage SymbolSearchCache.

Definition apple : SymbolSearchMatch :=
  {| symbol := "AAPL"; name := "Apple Inc."; region := None; currency := None;
     matchScore := None; type := None |}.

(** A caller's heap: the array [[apple]] at location 1. *)
Definition appleHeap : heap := [CMatch apple; CArray [0]].

Definition defaultOptions : SymbolSearchCacheOptions :=
  {| options_ttlMs := None; options_maxEntries := None |}.

Definition zeroMaxEntries : SymbolSearchCacheOptions :=
  {| options_ttlMs := None; options_maxEntries := Some (Fin 0) |}.

Definition halfMaxEntries : SymbolSearchCacheOptions :=
  {| options_ttlMs := None; options_maxEntries := Some (Fin (1 # 2)) |}.

(** The heap and the cache after [set('AAPL', [apple])] at time 1000 on a
    cache made with the given options. *)
Definition afterSetApple (options : SymbolSearchCacheOptions)
  : heap * SymbolSearchCache :=
  default (appleHeap, createSymbolSearchCache options)
    (SymbolSearchCache.set (num_of_Z 1000) "AAPL" 1 appleHeap
       (createSymbolSearchCache options)).

End Examples.

(** ** prediction.ts: the contribution of one prediction to system 1 *)

Module System1.
Import Prediction.

(** The [1] or [-1] that the [reduce] callback of [calculateSystem1Points]
    adds for one prediction, as an integer. *)
Definition system1Contribution (prediction : jsobject) : Z :=
  let actualDirection :=
    if num_gt (price_or (obj_get prediction "closePrice") (Fin 0))
              (price_or (obj_get prediction "openPrice") (Fin 0))
    then "up" else "down" in
  if is_str (obj_get prediction "prediction") actualDirection then 1 else -1.

Definition sumZ (l : list Z) : Z := fold_right Z.add 0%Z l.

(** The test of the [reduce] callback: the prediction names the actual
    direction, ['up'] when the close price is above the open price and
    ['down'] otherwise. *)
Definition matchesActualDirection (prediction : jsobject) : bool :=
  is_str (obj_get prediction "prediction")
    (if num_gt (price_or (obj_get prediction "closePrice") (Fin 0))
               (price_or (obj_get prediction "openPrice") (Fin 0))
     then "up" else "down").

End System1.

(** ** prediction.ts: normalizing a stored collection *)

Module Normalize.
Import Prediction.

Record NormalizeResult : Type := {
  normalizedUsers : users_object;
  hasChanges : bool
}.

(** [Array.isArray(entry.predictions) ? entry.predictions : []] *)
Definition originalPredictions (entry : jsval) : list jsval :=
  match get_field entry "predictions" with
  | VArr l => l
  | _ => []
  end.

(** The callback of the inner [forEach], at one index: the test under
    which it sets [hasChanges]. *)
Definition predictionChanged (username : string) (originals : list jsval)
    (index : nat) : bool :=
  let originalPrediction := default VUndefined (originals !! index) in
  negb (truthy originalPrediction)
  || negb (is_str (get_field originalPrediction "user") username).

(** Whether the callback of the outer [forEach] sets [hasChanges] for an
    entry and its sanitized form. *)
Definition entryChanged (username : string) (entry : jsval)
    (sanitizedEntry : LeagueEntry) : bool :=
  if negb (truthy (get_field entry "updatedAt"))
     || negb (is_str (get_field entry "updatedAt") (updatedAt sanitizedEntry))
     || negb (Nat.eqb (length (predictions sanitizedEntry))
                      (length (originalPredictions entry)))
  then true
  else
    existsb (predictionChanged username (originalPredictions entry))
            (seq 0 (length (predictions sanitizedEntry))).

(** The test under which the outer callback returns at once. *)
Definition ignored (username : string) (entry : jsval) : bool :=
  negb (str_truthy username) || negb (truthy entry) || negb (typeof_object entry).

(** One call of the outer callback; [now_iso] is the clock reading
    available to this call. *)
Definition normalizeStep {rt : Builtins} (acc : NormalizeResult)
    (now_iso : string) (username : string) (entry : jsval) : NormalizeResult :=
  if ignored username entry then acc
  else
    let sanitizedEntry := sanitizeUserEntry now_iso username entry in
    {| normalizedUsers := users_set (normalizedUsers acc) username sanitizedEntry;
       hasChanges :=
         if entryChanged username entry sanitizedEntry then true
         else hasChanges acc |}.

Fixpoint normalizeLoop {rt : Builtins} (clock : nat -> string) (i : nat)
    (entries : list (string * jsval)) (acc : NormalizeResult) : NormalizeResult :=
  match entries with
  | [] => acc
  | (username, entry) :: rest =>
      normalizeLoop clock (S i) rest (normalizeStep acc (clock i) username entry)
  end.

(** [clock i] is the clock reading during the call for the [i]-th entry. *)
Definition normalizeUsers {rt : Builtins} (clock : nat -> string)
    (storedUsers : jsval) : NormalizeResult :=
  let empty :=
    {| normalizedUsers := {| own := ∅; proto := None |}; hasChanges := false |} in
  if negb (truthy storedUsers) || negb (typeof_object storedUsers) then empty
  else normalizeLoop clock 0 (Object_entries storedUsers) empty.

(** A collection of users as the value that is stored and read back, its
    properties in the given order. *)
Definition users_value (users : list (string * LeagueEntry)) : jsval :=
  VObj (map (fun kv => (fst kv, VObj (entry_object (snd kv)))) users).

End Normalize.

(** ** prediction.ts: the next market day and the next Friday

    A [Date] is modelled by its time value read in local time: the
    milliseconds since the local midnight that began 1 January 1970, in a
    time zone whose offset stays the same over the days involved.  [None]
    is the invalid date, whose time value is [NaN]; the limit of
    8.64e15 ms on time values is not modelled. *)

Module Dates.

Definition msPerDay : Z := 86400000.

Definition Date : Type := option Z.

(** The number of the local day, 0 for 1 January 1970. *)
Definition dayNumber (t : Z) : Z := (t / msPerDay)%Z.

(** [date.getDay()]: 0 for Sunday to 6 for Saturday, [None] for [NaN].
    1 January 1970 was a Thursday. *)
Definition getDay (date : Date) : option Z :=
  match date with
  | Some t => Some ((dayNumber t + 4) mod 7)%Z
  | None => None
  end.

(** [date.setHours(0, 0, 0, 0)] *)
Definition setHoursToMidnight (date : Date) : Date :=
  match date with
  | Some t => Some (dayNumber t * msPerDay)%Z
  | None => None
  end.

(** [date.setDate(date.getDate() + n)]: the day of the month may run over
    the end of the month, the date moves on by [n] days. *)
Definition setDatePlus (n : Z) (date : Date) : Date :=
  match date with
  | Some t => Some (t + n * msPerDay)%Z
  | None => None
  end.

(** [date.getDay() === n] *)
Definition dayIs (date : Date) (n : Z) : bool :=
  match getDay date with
  | Some d => (d =? n)%Z
  | None => false
  end.

(** The [while] loop of [getNextMarketDay]; [None] when the fuel runs out
    before the loop ends. *)
Fixpoint skipWeekend (fuel : nat) (result : Date) : option Date :=
  match fuel with
  | O => None
  | S fuel' =>
      if dayIs result 0 || dayIs result 6
      then skipWeekend fuel' (setDatePlus 1 result)
      else Some result
  end.

Definition getNextMarketDay (fuel : nat) (referenceDate : Date) : option Date :=
  let result := setHoursToMidnight referenceDate in
  let result := setDatePlus 1 result in
  skipWeekend fuel result.

Definition getNextFriday (referenceDate : Date) : Date :=
  let result := setHoursToMidnight referenceDate in
  match getDay result with
  | None => None
  | Some d =>
      let daysUntilFriday := Z.rem (5 - d + 7) 7 in
      if (daysUntilFriday =? 0)%Z then setDatePlus 7 result
      else setDatePlus daysUntilFriday result
  end.

End Dates.

(** ** alphaVantage.ts: white space *)

Module Padding.
Import AlphaVantage.

(** A string made of white space only. *)
Fixpoint all_whitespace (s : string) : bool :=
  match s with
  | EmptyString => true
  | String c rest => is_whitespace c && all_whitespace rest
  end.

(** A string that is empty or starts with a character that is not white
    space. *)
Definition starts_clean (s : string) : Prop :=
  match s with
  | EmptyString => True
  | String c _ => is_whitespace c = false
  end.

(** A string that is empty or ends with a character that is not white
    space. *)
Fixpoint ends_clean (s : string) : Prop :=
  match s with
  | EmptyString => True
  | String c rest =>
      match rest with
      | EmptyString => is_whitespace c = false
      | String _ _ => ends_clean rest
      end
  end.

(** [t] is the text [s] without the white space around it. *)
Definition trimmed_of (s t : string) : Prop :=
  exists p1 p2,
    s = p1 ++ t ++ p2
    /\ all_whitespace p1 = true /\ all_whitespace p2 = true
    /\ starts_clean t /\ ends_clean t.

(** A value that is not a string with a character other than white space:
    a field that is absent, not a string, empty or blank. *)
Definition no_text (v : jsval) : Prop :=
  forall s, v = VStr s -> all_whitespace s = true.

(** The letters [A] to [Z]. *)
Definition is_upper (c : ascii) : bool :=
  Nat.leb 65 (nat_of_ascii c) && Nat.leb (nat_of_ascii c) 90.

(** [k] is [t] with every letter [A] to [Z] replaced by its lower-case
    letter, and every other character kept. *)
Definition lowercase_of (t k : string) : Prop :=
  String.length k = String.length t
  /\ forall i c, String.get i t = Some c ->
       String.get i k
       = Some (if is_upper c then ascii_of_nat (nat_of_ascii c + 32) else c).

End Padding.

(** ** alphaVantage.ts: the bound that the cache keeps *)

Module CacheBound.
Import AlphaVantage SymbolSearchCache.

(** No key of the map is empty and the map is not above the maximum (the
    test is the one [set] makes before it evicts). *)
Definition bounded_cache (c : SymbolSearchCache) : bool :=
  forallb (fun kv => str_truthy (fst kv)) (cache c)
  && negb (num_gt (num_of_nat (length (cache c))) (maxEntries c)).

End CacheBound.

(** ** More example data *)

Module MoreExamples.
Import AlphaVantage SymbolSearchCache Examples.

(** A cache that holds one entry at most. *)
Definition singleEntryOptions : SymbolSearchCacheOptions :=
  {| options_ttlMs := None; options_maxEntries := Some (Fin 1) |}.

(** A cache with the options of the test "evicts the least recently used
    entry when max size exceeded", after two calls of [set] under the keys
    of the test, and then after [get('AAPL')]. *)
Definition twoEntryOptions : SymbolSearchCacheOptions :=
  {| options_ttlMs := Some (Fin 5000); options_maxEntries := Some (Fin 2) |}.

Definition afterTwoSets : heap * SymbolSearchCache :=
  default (appleHeap, createSymbolSearchCache twoEntryOptions)
    (run [CallSet (num_of_Z 1000) "AAPL" 1; CallSet (num_of_Z 1000) "MSFT" 1]
         appleHeap (createSymbolSearchCache twoEntryOptions)).

Definition afterGetApple : heap * SymbolSearchCache * option loc :=
  default (afterTwoSets, None)
    (get (num_of_Z 2000) "AAPL" (fst afterTwoSets) (snd afterTwoSets)).

(** An entry updated after [existingMarch1] that has fewer predictions and
    lower scores. *)
Definition laterButPoorer : Prediction.LeagueEntry :=
  {| Prediction.predictions := []; Prediction.pointsS1 := Fin 0;
     Prediction.pointsS2 := Fin 0;
     Prediction.updatedAt := "2024-03-03T00:00:00.000Z" |}.


(** A rate-limit note with white space around its text. *)
Definition paddedNoteResponse : jsval :=
  VObj [ ("Note", VStr "  Please try again later. ") ].

(** A payload whose [Note] is not empty but blank, with one match. *)
Definition blankNoteResponse : jsval :=
  VObj [ ("Note", VStr "   ");
         ("bestMatches",
          VArr [ VObj [ ("1. symbol", VStr "TSLA");
                        ("2. name", VStr "Tesla Inc.") ] ]) ].

End MoreExamples.

(** * Properties *)

Import Prediction Examples MoreExamples.

(** ** Numbers *)

Lemma Qfloor_half (z : Z) : Qfloor (inject_Z z + (1 # 2)) = z.
Proof.
  unfold Qfloor, Qplus, inject_Z; simpl.
  rewrite Z.mul_1_r.
  symmetry. apply (Z.div_unique _ 2 z 1); lia.
Qed.

Lemma Math_round_idempotent (a : number) :
  Math_round (Math_round a) = Math_round a.
Proof.
  destruct a as [ | | |q]; try reflexivity.
  cbn [Math_round]. now rewrite Qfloor_half.
Qed.

Lemma Qlt_bool_irrefl_eq (x y : Q) : Qlt_bool x y = true -> Qeq_bool y x = false.
Proof.
  unfold Qlt_bool. intros Hlt.
  destruct (Qeq_bool y x) eqn:E; [|reflexivity].
  apply Qeq_bool_iff in E.
  assert (Hle : Qle_bool y x = true) by (apply Qle_bool_iff; rewrite E; apply Qle_refl).
  rewrite Hle in Hlt. discriminate.
Qed.

Lemma Qlt_bool_asym (x y : Q) : Qlt_bool x y = true -> Qlt_bool y x = false.
Proof.
  unfold Qlt_bool. intros Hlt.
  apply negb_true_iff in Hlt. apply negb_false_iff.
  apply Qle_bool_iff.
  destruct (Qlt_le_dec x y) as [H|H]; [now apply Qlt_le_weak|].
  apply Qle_bool_iff in H. congruence.
Qed.

Lemma num_gt_sne (a b : number) : num_gt a b = true -> num_sne a b = true.
Proof.
  unfold num_gt, num_sne.
  destruct a as [ | | |x], b as [ | | |y]; simpl; try discriminate; try reflexivity.
  intros Hlt. now rewrite (Qlt_bool_irrefl_eq _ _ Hlt).
Qed.

Lemma num_lt_sne (a b : number) : num_lt a b = true -> num_sne a b = true.
Proof.
  unfold num_sne.
  destruct a as [ | | |x], b as [ | | |y]; simpl; try discriminate; try reflexivity.
  intros Hlt. apply negb_true_iff.
  destruct (Qeq_bool x y) eqn:E; [|reflexivity].
  apply Qeq_bool_iff in E. symmetry in E. apply Qeq_bool_iff in E.
  now rewrite (Qlt_bool_irrefl_eq _ _ Hlt) in E.
Qed.

Lemma num_lt_asym (a b : number) : num_lt a b = true -> num_gt a b = false.
Proof.
  unfold num_gt.
  destruct a as [ | | |x], b as [ | | |y]; simpl; try discriminate; try reflexivity.
  apply Qlt_bool_asym.
Qed.


(** ** Objects *)

Lemma obj_get_set_same (o : jsobject) (k : string) (v : jsval) :
  obj_get (obj_set o k v) k = v.
Proof.
  induction o as [|[k' v'] rest IH]; simpl.
  - now rewrite String.eqb_refl.
  - destruct (String.eqb k' k) eqn:E; simpl; rewrite E; [reflexivity|exact IH].
Qed.

Lemma obj_get_set_other (o : jsobject) (k k' : string) (v : jsval) :
  String.eqb k k' = false -> obj_get (obj_set o k v) k' = obj_get o k'.
Proof.
  intros Hne. induction o as [|[k0 v0] rest IH]; simpl.
  - now rewrite Hne.
  - destruct (String.eqb k0 k) eqn:E; simpl.
    + apply String.eqb_eq in E; subst k0. now rewrite Hne.
    + now rewrite IH.
Qed.

Lemma obj_has_set_same (o : jsobject) (k : string) (v : jsval) :
  obj_has (obj_set o k v) k = true.
Proof.
  unfold obj_has.
  induction o as [|[k' v'] rest IH]; simpl.
  - now rewrite String.eqb_refl.
  - destruct (String.eqb k' k) eqn:E; simpl; rewrite E; [reflexivity|exact IH].
Qed.

Lemma obj_has_set_mono (o : jsobject) (k k' : string) (v : jsval) :
  obj_has o k' = true -> obj_has (obj_set o k v) k' = true.
Proof.
  unfold obj_has.
  induction o as [|[k0 v0] rest IH]; simpl; [discriminate|].
  destruct (String.eqb k0 k) eqn:E; simpl; intros Hh.
  - exact Hh.
  - destruct (String.eqb k0 k'); [reflexivity|]. now apply IH.
Qed.

(** Writing to a key the value it already holds changes nothing. *)
Lemma obj_set_same (o : jsobject) (k : string) (v : jsval) :
  obj_has o k = true -> obj_get o k = v -> obj_set o k v = o.
Proof.
  unfold obj_has.
  induction o as [|[k0 v0] rest IH]; simpl; [discriminate|].
  destruct (String.eqb k0 k) eqn:E; simpl.
  - intros _ ->. reflexivity.
  - intros Hh Hg. now rewrite IH.
Qed.

Lemma is_str_true (v : jsval) (lit : string) :
  is_str v lit = true <-> v = VStr lit.
Proof.
  destruct v; simpl; split; try discriminate.
  - intros E. apply String.eqb_eq in E. now subst.
  - intros [= ->]. apply String.eqb_refl.
Qed.

Lemma typeof_number_true (v : jsval) :
  typeof_number v = true <-> exists n, v = VNum n.
Proof.
  destruct v; simpl; split; try discriminate; try (intros [n' [=]]); eauto.
Qed.

(** ** Scoring engine *)

Lemma system2Filter_true (p : jsobject) :
  system2Filter p = true <->
  obj_get p "status" = VStr "resolved" /\
  exists o c, obj_get p "openPrice" = VNum o /\ obj_get p "closePrice" = VNum c
              /\ num_seq o (Fin 0) = false.
Proof.
  unfold system2Filter. rewrite !andb_true_iff, is_str_true, !typeof_number_true.
  split.
  - intros [[[Hs [o Ho]] [c Hc]] Hz]. split; [exact Hs|].
    exists o, c. rewrite Ho in Hz. unfold num_sne in Hz.
    apply negb_true_iff in Hz. auto.
  - intros [Hs (o & c & Ho & Hc & Hz)]. rewrite Ho.
    unfold num_sne. rewrite Hz. eauto 10.
Qed.

Lemma system2Filter_divisor (p : jsobject) :
  system2Filter p = true -> num_seq (system2Divisor p) (Fin 0) = false.
Proof.
  intros Hp. apply system2Filter_true in Hp as [_ (o & c & Ho & _ & Hz)].
  unfold system2Divisor. now rewrite Ho.
Qed.

Lemma system2_trapping_fold (l : list jsobject) (t : number) :
  Forall (fun p => system2Filter p = true) l ->
  fold_left system2StepTrapping l (Some t) = Some (fold_left system2Step l t).
Proof.
  intros Hall. revert t.
  induction Hall as [|p l Hp _ IH]; intros t; simpl; [reflexivity|].
  rewrite (system2Filter_divisor p Hp). apply IH.
Qed.

Lemma calculateSystem2Points_skip (l1 : list jsobject) (p : jsobject)
    (l2 : list jsobject) :
  system2Filter p = false ->
  calculateSystem2Points (l1 ++ p :: l2) = calculateSystem2Points (l1 ++ l2).
Proof.
  intros Hp. unfold calculateSystem2Points.
  rewrite !List.filter_app. simpl. now rewrite Hp.
Qed.

Lemma calculateSystem2Points_snoc (l : list jsobject) (p : jsobject) :
  system2Filter p = true ->
  calculateSystem2Points (l ++ [p]) = system2Step (calculateSystem2Points l) p.
Proof.
  intros Hp. unfold calculateSystem2Points.
  rewrite List.filter_app. simpl. rewrite Hp.
  now rewrite fold_left_app.
Qed.

(** C9: [calculateSystem2Points] only looks at resolved predictions with
    numeric prices and a nonzero open price.  A prediction whose open price
    is zero is left out whatever its direction or status, so the total is
    the same as without it; the division of the percent change never sees a
    zero divisor (the trapping variant never traps); and a prediction that
    is taken into account adds its percent change
    [(close - open) / open * 100] when predicted up and subtracts it when
    predicted down. *)
Theorem calculateSystem2Points_zero_open_excluded :
  (forall p, system2Filter p = true <->
     obj_get p "status" = VStr "resolved" /\
     exists o c, obj_get p "openPrice" = VNum o /\ obj_get p "closePrice" = VNum c
                 /\ num_seq o (Fin 0) = false) /\
  (forall l1 p l2, system2Filter p = false ->
     calculateSystem2Points (l1 ++ p :: l2) = calculateSystem2Points (l1 ++ l2)) /\
  (forall l1 p l2 o, obj_get p "openPrice" = VNum o -> num_seq o (Fin 0) = true ->
     calculateSystem2Points (l1 ++ p :: l2) = calculateSystem2Points (l1 ++ l2)) /\
  (forall entries,
     calculateSystem2PointsTrapping entries = Some (calculateSystem2Points entries)) /\
  (forall l p o c,
     obj_get p "status" = VStr "resolved" ->
     obj_get p "openPrice" = VNum o -> obj_get p "closePrice" = VNum c ->
     num_seq o (Fin 0) = false ->
     let percent := num_mul (num_div (num_sub c o) o) (Fin 100) in
     (obj_get p "prediction" = VStr "up" ->
        calculateSystem2Points (l ++ [p]) = num_add (calculateSystem2Points l) percent) /\
     (obj_get p "prediction" = VStr "down" ->
        calculateSystem2Points (l ++ [p]) = num_sub (calculateSystem2Points l) percent)).
Proof.
  split; [exact system2Filter_true|].
  split; [exact calculateSystem2Points_skip|].
  split.
  { intros l1 p l2 o Ho Hz. apply calculateSystem2Points_skip.
    destruct (system2Filter p) eqn:E; [|reflexivity].
    apply system2Filter_true in E as [_ (o' & c & Ho' & _ & Hz')].
    rewrite Ho in Ho'. injection Ho' as <-. congruence. }
  split.
  { intros entries. unfold calculateSystem2PointsTrapping, calculateSystem2Points.
    apply system2_trapping_fold. apply List.Forall_forall.
    intros p Hin. now apply List.filter_In in Hin. }
  intros l p o c Hs Ho Hc Hz percent.
  assert (Hp : system2Filter p = true) by (apply system2Filter_true; eauto 10).
  assert (Hpct : changePercent p = percent).
  { unfold changePercent, system2Divisor. now rewrite Ho, Hc. }
  split; intros Hd; rewrite (calculateSystem2Points_snoc l p Hp);
    unfold system2Step; rewrite Hd, Hpct; reflexivity.
Qed.

(** The prices of the test suite: open 100, close 120. *)
Example system2_up_down_20 :
  calculateSystem2Points
    [obj_set basePrediction "closePrice" (VNum (Fin 120))] = Fin (2000 # 100)
  /\ calculateSystem2Points
       [obj_set (obj_set basePrediction "closePrice" (VNum (Fin 120)))
          "prediction" (VStr "down")] = Fin (- 2000 # 100)
  /\ calculateSystem2Points
       [obj_set basePrediction "openPrice" (VNum (Fin 0))] = Fin 0.
Proof. repeat split. Qed.

(** ** Entry sanitizer *)

Lemma sanitizePrediction_fields (u : string) (raw : jsval) :
  obj_get (sanitizePrediction u raw) "openPrice"
    = (if typeof_number (get_field raw "openPrice")
       then get_field raw "openPrice" else VNull)
  /\ obj_get (sanitizePrediction u raw) "closePrice"
    = (if typeof_number (get_field raw "closePrice")
       then get_field raw "closePrice" else VNull)
  /\ obj_get (sanitizePrediction u raw) "status"
    = VStr (if is_str (get_field raw "status") "resolved"
            then "resolved" else "pending")
  /\ obj_get (sanitizePrediction u raw) "user" = VStr u.
Proof.
  unfold sanitizePrediction.
  repeat split;
    repeat (first [ rewrite obj_get_set_same; reflexivity
                  | rewrite obj_get_set_other by reflexivity ]).
Qed.

Lemma sanitizePrediction_has (u : string) (raw : jsval) :
  obj_has (sanitizePrediction u raw) "openPrice" = true
  /\ obj_has (sanitizePrediction u raw) "closePrice" = true
  /\ obj_has (sanitizePrediction u raw) "status" = true
  /\ obj_has (sanitizePrediction u raw) "user" = true.
Proof.
  unfold sanitizePrediction.
  repeat split;
    repeat (first [ apply obj_has_set_same | apply obj_has_set_mono ]).
Qed.

(** The fields that [isPrediction] reads, other than [status], are the raw
    ones. *)
Lemma sanitizePrediction_keeps (u : string) (raw : jsval) (k : string) :
  String.eqb "openPrice" k = false -> String.eqb "closePrice" k = false ->
  String.eqb "status" k = false -> String.eqb "user" k = false ->
  obj_get (sanitizePrediction u raw) k = obj_get (spread raw) k.
Proof.
  intros H1 H2 H3 H4. unfold sanitizePrediction.
  now rewrite !obj_get_set_other.
Qed.

Lemma isPrediction_object (raw : jsval) :
  isPrediction raw = true -> exists o, raw = VObj o.
Proof.
  unfold isPrediction.
  destruct raw as [ | |b|n|s|l|o]; simpl; rewrite ?orb_true_r;
    try discriminate.
  intros _. now exists o.
Qed.

Lemma sanitizePrediction_isPrediction (u : string) (raw : jsval) :
  isPrediction raw = true -> isPrediction (VObj (sanitizePrediction u raw)) = true.
Proof.
  intros Hraw. destruct (isPrediction_object raw Hraw) as [o ->].
  unfold isPrediction in *. simpl in *.
  rewrite !(sanitizePrediction_keeps u (VObj o)) by reflexivity.
  destruct (sanitizePrediction_fields u (VObj o)) as (_ & _ & Hst & _).
  rewrite Hst. simpl spread.
  repeat rewrite andb_true_iff in Hraw.
  destruct Hraw as [[[[[-> ->] ->] ->] ->] _]. simpl.
  now destruct (is_str (obj_get o "status") "resolved").
Qed.

Lemma sanitizePrediction_idempotent (u : string) (raw : jsval) :
  sanitizePrediction u (VObj (sanitizePrediction u raw)) = sanitizePrediction u raw.
Proof.
  destruct (sanitizePrediction_fields u raw) as (Ho & Hc & Hs & Hu).
  destruct (sanitizePrediction_has u raw) as (Ho' & Hc' & Hs' & Hu').
  set (p := sanitizePrediction u raw) in *.
  unfold sanitizePrediction at 1. simpl get_field. simpl spread.
  assert (E1 : (if typeof_number (obj_get p "openPrice")
                then obj_get p "openPrice" else VNull) = obj_get p "openPrice").
  { rewrite Ho. now destruct (get_field raw "openPrice"). }
  assert (E2 : (if typeof_number (obj_get p "closePrice")
                then obj_get p "closePrice" else VNull) = obj_get p "closePrice").
  { rewrite Hc. now destruct (get_field raw "closePrice"). }
  assert (E3 : VStr (if is_str (obj_get p "status") "resolved"
                     then "resolved" else "pending") = obj_get p "status").
  { rewrite Hs. now destruct (is_str (get_field raw "status") "resolved"). }
  rewrite E1, E2, E3.
  rewrite (obj_set_same p "openPrice") by auto.
  rewrite (obj_set_same p "closePrice") by auto.
  rewrite (obj_set_same p "status") by auto.
  now apply obj_set_same.
Qed.

Lemma filter_isPrediction_sanitized (u : string) (raws : list jsval) :
  Forall (fun r => isPrediction r = true) raws ->
  List.filter isPrediction (map VObj (map (sanitizePrediction u) raws))
  = map VObj (map (sanitizePrediction u) raws).
Proof.
  induction 1 as [|r raws Hr _ IH]; simpl; [reflexivity|].
  now rewrite (sanitizePrediction_isPrediction u r Hr), IH.
Qed.

Lemma map_sanitizePrediction_sanitized (u : string) (raws : list jsval) :
  map (sanitizePrediction u) (map VObj (map (sanitizePrediction u) raws))
  = map (sanitizePrediction u) raws.
Proof.
  induction raws as [|r raws IH]; simpl; [reflexivity|].
  now rewrite sanitizePrediction_idempotent, IH.
Qed.

Section Sanitizer.
Context {rt : Builtins}.

(** C7: sanitizing an already sanitized entry under the same username, with
    the same clock reading, gives the same entry. *)
Theorem sanitizeUserEntry_idempotent (now_iso u : string) (e : jsval) :
  sanitizeUserEntry now_iso u (VObj (entry_object (sanitizeUserEntry now_iso u e)))
  = sanitizeUserEntry now_iso u e.
Proof.
  set (raws := List.filter isPrediction
                 match get_field e "predictions" with VArr l => l | _ => [] end).
  assert (Hall : Forall (fun x => isPrediction x = true) raws).
  { apply List.Forall_forall. intros x Hx. now apply List.filter_In in Hx. }
  remember (sanitizeUserEntry now_iso u e) as r eqn:Hr.
  assert (Hpred : predictions r = map (sanitizePrediction u) raws)
    by now rewrite Hr.
  assert (Hs1 : Math_round (pointsS1 r) = pointsS1 r).
  { rewrite Hr. unfold sanitizeUserEntry. cbn [pointsS1].
    destruct (Nat.ltb 0 _); apply Math_round_idempotent. }
  assert (Hs2 : Math_round (pointsS2 r) = pointsS2 r).
  { rewrite Hr. unfold sanitizeUserEntry. cbn [pointsS2].
    destruct (Nat.ltb 0 _); apply Math_round_idempotent. }
  assert (Hs1' : Nat.ltb 0 (length (predictions r)) = true ->
                 Math_round (calculateSystem1Points (predictions r)) = pointsS1 r).
  { rewrite Hr. unfold sanitizeUserEntry. cbn [predictions pointsS1].
    now intros ->. }
  assert (Hs2' : Nat.ltb 0 (length (predictions r)) = true ->
                 Math_round (calculateSystem2Points (predictions r)) = pointsS2 r).
  { rewrite Hr. unfold sanitizeUserEntry. cbn [predictions pointsS2].
    now intros ->. }
  assert (Hup : String.eqb (updatedAt r) "" = true -> now_iso = updatedAt r).
  { rewrite Hr. unfold sanitizeUserEntry. cbn [updatedAt].
    destruct (get_field e "updatedAt") as [ | | | |s| | ]; simpl; auto.
    unfold str_truthy. destruct (String.eqb s "") eqn:E'; simpl; auto.
    congruence. }
  clear Hr.
  unfold sanitizeUserEntry.
  change (get_field (VObj (entry_object r)) "predictions")
    with (VArr (map VObj (predictions r))).
  change (get_field (VObj (entry_object r)) "pointsS1") with (VNum (pointsS1 r)).
  change (get_field (VObj (entry_object r)) "pointsS2") with (VNum (pointsS2 r)).
  change (get_field (VObj (entry_object r)) "updatedAt") with (VStr (updatedAt r)).
  cbn [nullish ToNumber typeof_string truthy andb].
  rewrite Hpred, (filter_isPrediction_sanitized u raws Hall),
    map_sanitizePrediction_sanitized, <- Hpred.
  rewrite Hs1, Hs2.
  destruct r as [ps s1 s2 up]. cbn [predictions pointsS1 pointsS2 updatedAt] in *.
  f_equal.
  - destruct (Nat.ltb 0 (length ps)); auto.
  - destruct (Nat.ltb 0 (length ps)); auto.
  - unfold str_truthy. destruct (String.eqb up ""); simpl; auto.
Qed.

(** C1: on the entry of the repository's own test "preserves numeric price
    data provided as strings when sanitizing entries", the sanitizer turns
    the prices ['150.25'] and ['175.75'] into [null]; in general a price
    given as a string becomes [null] whatever the string holds. *)
Theorem sanitizeUserEntry_string_prices_become_null (now_iso : string) :
  map (fun p => (obj_get p "openPrice", obj_get p "closePrice"))
      (predictions (sanitizeUserEntry now_iso "StringPlayer" stringPriceEntry))
  = [(VNull, VNull)]
  /\ (forall u raw s, get_field raw "openPrice" = VStr s ->
        obj_get (sanitizePrediction u raw) "openPrice" = VNull)
  /\ (forall u raw s, get_field raw "closePrice" = VStr s ->
        obj_get (sanitizePrediction u raw) "closePrice" = VNull).
Proof.
  split; [reflexivity|].
  split; intros u raw s Hs;
    destruct (sanitizePrediction_fields u raw) as (Ho & Hc & _);
    [rewrite Ho|rewrite Hc]; now rewrite Hs.
Qed.




End Sanitizer.



(** ** Merge resolver: [shouldReplaceUserEntry] *)

Section Replace.
Context {rt : Builtins}.

Ltac replace_cases :=
  unfold shouldReplaceUserEntry; cbn [read_updatedAt read_count read_pointsS1
    read_pointsS2 sne_opt gt_opt];
  repeat match goal with
    | |- context [Z.eqb ?a ?b] => destruct (Z.eqb_spec a b)
    | |- context [Z.ltb ?a ?b] => destruct (Z.ltb_spec a b)
    | |- context [Nat.eqb ?a ?b] => destruct (Nat.eqb_spec a b)
    | |- context [Nat.ltb ?a ?b] => destruct (Nat.ltb_spec a b)
    end;
  cbn [negb andb]; try reflexivity; try lia.

(** The cascade in terms of the two timestamps that the function
    computes. *)
Lemma shouldReplaceUserEntry_by_timestamps (existing incoming : LeagueEntry) :
  let te := getValidTimestamp (VStr (updatedAt existing)) in
  let ti := getValidTimestamp (VStr (updatedAt incoming)) in
  let ce := length (predictions existing) in
  let ci := length (predictions incoming) in
  let r := shouldReplaceUserEntry (StoredEntry existing) incoming in
  (te <> 0 -> ti <> 0 -> te < ti -> r = true)%Z
  /\ (te <> 0 -> ti <> 0 -> ti < te -> r = false)%Z
  /\ (ti <> 0 -> te = 0 -> r = true)%Z
  /\ (ti = 0 -> te <> 0 -> r = false)%Z
  /\ (ti = te ->
      (ce < ci -> r = true)%nat
      /\ (ci < ce -> r = false)%nat
      /\ (ci = ce ->
          (num_gt (pointsS1 incoming) (pointsS1 existing) = true -> r = true)
          /\ (num_lt (pointsS1 incoming) (pointsS1 existing) = true -> r = false)
          /\ (num_seq (pointsS1 incoming) (pointsS1 existing) = true ->
              (num_gt (pointsS2 incoming) (pointsS2 existing) = true -> r = true)
              /\ (num_lt (pointsS2 incoming) (pointsS2 existing) = true -> r = false)
              /\ (num_seq (pointsS2 incoming) (pointsS2 existing) = true
                  -> r = false)))).
Proof.
  intros te ti ce ci r.
  assert (Htie : ti = te -> r =
            if negb (Nat.eqb ci ce) then Nat.ltb ce ci
            else if num_sne (pointsS1 incoming) (pointsS1 existing)
            then num_gt (pointsS1 incoming) (pointsS1 existing)
            else if num_sne (pointsS2 incoming) (pointsS2 existing)
            then num_gt (pointsS2 incoming) (pointsS2 existing)
            else false).
  { subst r te ti ce ci. intros E. unfold shouldReplaceUserEntry.
    cbn [read_updatedAt read_count read_pointsS1 read_pointsS2 sne_opt gt_opt].
    rewrite E.
    destruct (Z.eqb_spec (getValidTimestamp (VStr (updatedAt existing))) 0);
      cbn [negb andb]; [reflexivity|].
    now rewrite Z.ltb_irrefl. }
  split; [|split; [|split; [|split]]].
  - subst r te ti. intros. replace_cases.
  - subst r te ti. intros. replace_cases.
  - subst r te ti. intros. replace_cases.
  - subst r te ti. intros. replace_cases.
  - intros E. rewrite (Htie E). clear Htie.
    split; [|split].
    + intros Hlt. destruct (Nat.eqb_spec ci ce); [lia|]. now apply Nat.ltb_lt.
    + intros Hlt. destruct (Nat.eqb_spec ci ce); [lia|]. now apply Nat.ltb_ge, Nat.lt_le_incl.
    + intros ->. rewrite Nat.eqb_refl. cbn [negb].
      split; [|split].
      * intros Hgt. now rewrite (num_gt_sne _ _ Hgt).
      * intros Hlt. rewrite (num_lt_sne _ _ Hlt). now apply num_lt_asym.
      * intros Heq.
        assert (Hsne : num_sne (pointsS1 incoming) (pointsS1 existing) = false)
          by (unfold num_sne; now rewrite Heq).
        rewrite Hsne. split; [|split].
        -- intros Hgt. now rewrite (num_gt_sne _ _ Hgt).
        -- intros Hlt. rewrite (num_lt_sne _ _ Hlt). now apply num_lt_asym.
        -- intros Heq2. unfold num_sne. now rewrite Heq2.
Qed.

(** C4: the cascade of [shouldReplaceUserEntry].  With [te] and [ti] what
    [Date.parse] gives for the [updatedAt] of the existing and of the
    incoming entry, [0] standing for a string that does not parse: two
    nonzero timestamps decide by strict order, whatever the counts and
    scores; a single nonzero timestamp decides for its side; equal
    timestamps (both zero included) pass the decision to the number of
    predictions, then to [pointsS1], then to [pointsS2], each by strict
    order; a full tie keeps the existing entry. *)
Theorem shouldReplaceUserEntry_cascade (existing incoming : LeagueEntry) :
  let te := match Date_parse (updatedAt existing) with
            | Some parsed => parsed
            | None => 0%Z
            end in
  let ti := match Date_parse (updatedAt incoming) with
            | Some parsed => parsed
            | None => 0%Z
            end in
  let ce := length (predictions existing) in
  let ci := length (predictions incoming) in
  let r := shouldReplaceUserEntry (StoredEntry existing) incoming in
  (te <> 0 -> ti <> 0 -> te < ti -> r = true)%Z
  /\ (te <> 0 -> ti <> 0 -> ti < te -> r = false)%Z
  /\ (ti <> 0 -> te = 0 -> r = true)%Z
  /\ (ti = 0 -> te <> 0 -> r = false)%Z
  /\ (ti = te ->
      (ce < ci -> r = true)%nat
      /\ (ci < ce -> r = false)%nat
      /\ (ci = ce ->
          (num_gt (pointsS1 incoming) (pointsS1 existing) = true -> r = true)
          /\ (num_lt (pointsS1 incoming) (pointsS1 existing) = true -> r = false)
          /\ (num_seq (pointsS1 incoming) (pointsS1 existing) = true ->
              (num_gt (pointsS2 incoming) (pointsS2 existing) = true -> r = true)
              /\ (num_lt (pointsS2 incoming) (pointsS2 existing) = true -> r = false)
              /\ (num_seq (pointsS2 incoming) (pointsS2 existing) = true
                  -> r = false)))).
Proof.
  assert (Hts : forall e : LeagueEntry,
            getValidTimestamp (VStr (updatedAt e))
            = match Date_parse (updatedAt e) with
              | Some parsed => parsed
              | None => 0%Z
              end).
  { intros e. unfold getValidTimestamp. now destruct (Date_parse (updatedAt e)). }
  pose proof (shouldReplaceUserEntry_by_timestamps existing incoming) as H.
  cbv zeta in H. rewrite !Hts in H. exact H.
Qed.

(** C10: an [updatedAt] that parses to the epoch instant is a timestamp of
    [0], the value that stands for "no timestamp".  The entry is then
    treated as one whose [updatedAt] does not parse, on either side of the
    comparison; against an entry with a nonzero timestamp the side with the
    nonzero timestamp wins, even when that timestamp is before the epoch. *)
Theorem epoch_updatedAt_counts_as_missing (epoch other : LeagueEntry) :
  Date_parse (updatedAt epoch) = Some 0%Z ->
  getValidTimestamp (VStr (updatedAt epoch)) = 0%Z
  /\ getValidTimestamp (VStr (updatedAt epoch)) = getValidTimestamp VUndefined
  /\ (forall invalid,
        Date_parse (updatedAt invalid) = None ->
        predictions invalid = predictions epoch ->
        pointsS1 invalid = pointsS1 epoch ->
        pointsS2 invalid = pointsS2 epoch ->
        shouldReplaceUserEntry (StoredEntry epoch) other
          = shouldReplaceUserEntry (StoredEntry invalid) other
        /\ shouldReplaceUserEntry (StoredEntry other) epoch
          = shouldReplaceUserEntry (StoredEntry other) invalid)
  /\ (getValidTimestamp (VStr (updatedAt other)) <> 0%Z ->
        shouldReplaceUserEntry (StoredEntry epoch) other = true
        /\ shouldReplaceUserEntry (StoredEntry other) epoch = false).
Proof.
  intros Hepoch.
  assert (Hts : getValidTimestamp (VStr (updatedAt epoch)) = 0%Z).
  { unfold getValidTimestamp. now rewrite Hepoch. }
  split; [exact Hts|]. split; [exact Hts|]. split.
  - intros invalid Hinv Hp H1 H2.
    assert (Hti : getValidTimestamp (VStr (updatedAt invalid)) = 0%Z).
    { unfold getValidTimestamp. now rewrite Hinv. }
    unfold shouldReplaceUserEntry.
    cbn [read_updatedAt read_count read_pointsS1 read_pointsS2].
    now rewrite Hts, Hti, Hp, H1, H2.
  - intros Hother. unfold shouldReplaceUserEntry.
    cbn [read_updatedAt read_count read_pointsS1 read_pointsS2].
    rewrite Hts.
    destruct (Z.eqb_spec (getValidTimestamp (VStr (updatedAt other))) 0);
      [contradiction|]. split; reflexivity.
Qed.

End Replace.

(** ** Trimming and lower-casing *)

Import AlphaVantage.
Import Padding.

Lemma is_whitespace_lower (c : ascii) :
  is_whitespace (lower_ascii c) = is_whitespace c.
Proof. destruct c as [[] [] [] [] [] [] [] []]; reflexivity. Qed.

Lemma lower_ascii_idempotent (c : ascii) :
  lower_ascii (lower_ascii c) = lower_ascii c.
Proof. destruct c as [[] [] [] [] [] [] [] []]; reflexivity. Qed.

Lemma toLowerCase_idempotent (s : string) :
  toLowerCase (toLowerCase s) = toLowerCase s.
Proof.
  induction s as [|c s IH]; [reflexivity|].
  cbn [toLowerCase]. now rewrite lower_ascii_idempotent, IH.
Qed.

Lemma toLowerCase_empty (s : string) :
  String.eqb (toLowerCase s) "" = String.eqb s "".
Proof. now destruct s. Qed.

Lemma trimStart_toLowerCase (s : string) :
  trimStart (toLowerCase s) = toLowerCase (trimStart s).
Proof.
  induction s as [|c s IH]; [reflexivity|].
  cbn [toLowerCase trimStart]. rewrite is_whitespace_lower.
  now destruct (is_whitespace c).
Qed.

Lemma trimEnd_toLowerCase (s : string) :
  trimEnd (toLowerCase s) = toLowerCase (trimEnd s).
Proof.
  induction s as [|c s IH]; [reflexivity|].
  cbn [toLowerCase trimEnd]. rewrite is_whitespace_lower, IH, toLowerCase_empty.
  now destruct (is_whitespace c && String.eqb (trimEnd s) "").
Qed.

Lemma trim_toLowerCase (s : string) : trim (toLowerCase s) = toLowerCase (trim s).
Proof. unfold trim. now rewrite trimStart_toLowerCase, trimEnd_toLowerCase. Qed.

Lemma trimEnd_idempotent (s : string) : trimEnd (trimEnd s) = trimEnd s.
Proof.
  induction s as [|c s IH]; [reflexivity|]. cbn [trimEnd].
  destruct (is_whitespace c && String.eqb (trimEnd s) "") eqn:E; [reflexivity|].
  cbn [trimEnd]. now rewrite IH, E.
Qed.

Lemma trimStart_starts_clean (s : string) : starts_clean (trimStart s).
Proof.
  induction s as [|c s IH]; [exact I|]. cbn [trimStart].
  destruct (is_whitespace c) eqn:E; [exact IH|exact E].
Qed.

Lemma trimStart_clean (s : string) : starts_clean s -> trimStart s = s.
Proof. destruct s as [|c s]; [reflexivity|]. cbn. now intros ->. Qed.

Lemma trimEnd_starts_clean (s : string) : starts_clean s -> starts_clean (trimEnd s).
Proof.
  destruct s as [|c s]; [intros _; exact I|]. intros E.
  cbn [starts_clean] in E. cbn [trimEnd]. rewrite E. exact E.
Qed.

Lemma trim_idempotent (s : string) : trim (trim s) = trim s.
Proof.
  unfold trim.
  rewrite (trimStart_clean (trimEnd (trimStart s))).
  - apply trimEnd_idempotent.
  - apply trimEnd_starts_clean, trimStart_starts_clean.
Qed.

Lemma append_cons (c : ascii) (s t : string) :
  String c s ++ t = String c (s ++ t).
Proof. reflexivity. Qed.

Lemma append_empty_l (t : string) : "" ++ t = t.
Proof. reflexivity. Qed.

Lemma trimStart_padding (p s : string) :
  all_whitespace p = true -> trimStart (p ++ s) = trimStart s.
Proof.
  induction p as [|c p IH]; [reflexivity|].
  rewrite append_cons. cbn [all_whitespace trimStart].
  intros Hp. apply andb_true_iff in Hp as [-> Hp]. now apply IH.
Qed.

Lemma trimEnd_all_whitespace (p : string) :
  all_whitespace p = true -> trimEnd p = "".
Proof.
  induction p as [|c p IH]; [reflexivity|]. cbn [all_whitespace trimEnd].
  intros Hp. apply andb_true_iff in Hp as [-> Hp]. now rewrite (IH Hp).
Qed.

Lemma trimEnd_padding (s p : string) :
  all_whitespace p = true -> trimEnd (s ++ p) = trimEnd s.
Proof.
  intros Hp. induction s as [|c s IH].
  - rewrite append_empty_l. now apply trimEnd_all_whitespace.
  - rewrite append_cons. cbn [trimEnd]. now rewrite IH.
Qed.

Lemma trimStart_append (s p : string) :
  all_whitespace p = true ->
  trimStart (s ++ p) = if String.eqb (trimStart s) "" then "" else trimStart s ++ p.
Proof.
  intros Hp. induction s as [|c s IH].
  - rewrite append_empty_l. cbn [trimStart String.eqb]. clear -Hp.
    induction p as [|c p IH]; [reflexivity|].
    cbn [all_whitespace trimStart] in *. apply andb_true_iff in Hp as [-> Hp].
    now apply IH.
  - rewrite append_cons. cbn [trimStart].
    destruct (is_whitespace c); [exact IH|]. now rewrite append_cons.
Qed.

Lemma trim_padding (p1 s p2 : string) :
  all_whitespace p1 = true -> all_whitespace p2 = true ->
  trim (p1 ++ s ++ p2) = trim s.
Proof.
  intros H1 H2. unfold trim. rewrite (trimStart_padding p1 _ H1).
  rewrite (trimStart_append s p2 H2).
  destruct (String.eqb_spec (trimStart s) "") as [E|E].
  - now rewrite E.
  - now apply trimEnd_padding.
Qed.

Lemma trimEnd_ends_clean (s : string) : ends_clean (trimEnd s).
Proof.
  induction s as [|c s IH]; [exact I|]. cbn [trimEnd].
  destruct (is_whitespace c) eqn:Ec; cbn [andb].
  - destruct (trimEnd s) as [|c' r'] eqn:E; [exact I|]. exact IH.
  - destruct (trimEnd s) as [|c' r'] eqn:E; [exact Ec|]. exact IH.
Qed.

Lemma trimStart_decompose (s : string) :
  exists p1, s = p1 ++ trimStart s /\ all_whitespace p1 = true.
Proof.
  induction s as [|c s (p1 & Hs & Hp)]; [now exists ""|]. cbn [trimStart].
  destruct (is_whitespace c) eqn:Ec; [|now exists ""].
  exists (String c p1). rewrite append_cons, <- Hs. split; [reflexivity|].
  cbn [all_whitespace]. now rewrite Ec, Hp.
Qed.

Lemma trimEnd_decompose (s : string) :
  exists p2, s = trimEnd s ++ p2 /\ all_whitespace p2 = true.
Proof.
  induction s as [|c s (p2 & Hs & Hp)]; [now exists ""|]. cbn [trimEnd].
  destruct (is_whitespace c && String.eqb (trimEnd s) "") eqn:E.
  - apply andb_true_iff in E as [Ec Ee]. apply String.eqb_eq in Ee.
    rewrite Ee, append_empty_l in Hs. subst p2. exists (String c s).
    rewrite append_empty_l. split; [reflexivity|].
    cbn [all_whitespace]. now rewrite Ec, Hp.
  - exists p2. rewrite append_cons, <- Hs. auto.
Qed.

(** [trim] removes the white space around a text and nothing else. *)
Lemma trim_trimmed_of (s : string) : trimmed_of s (trim s).
Proof.
  destruct (trimStart_decompose s) as (p1 & Hs & Hp1).
  destruct (trimEnd_decompose (trimStart s)) as (p2 & Ht & Hp2).
  exists p1, p2. unfold trim. rewrite <- Ht. split; [exact Hs|].
  split; [exact Hp1|]. split; [exact Hp2|]. split.
  - apply trimEnd_starts_clean, trimStart_starts_clean.
  - apply trimEnd_ends_clean.
Qed.

Lemma trimStart_empty_iff (s : string) :
  trimStart s = "" <-> all_whitespace s = true.
Proof.
  induction s as [|c s IH]; [tauto|]. cbn [trimStart all_whitespace].
  destruct (is_whitespace c); cbn [andb]; [exact IH|].
  split; discriminate.
Qed.

Lemma trim_empty_iff (s : string) : trim s = "" <-> all_whitespace s = true.
Proof.
  rewrite <- trimStart_empty_iff. unfold trim. split.
  - intros E. pose proof (trimStart_starts_clean s) as Hc.
    destruct (trimStart s) as [|c r]; [reflexivity|].
    cbn [starts_clean] in Hc. cbn [trimEnd] in E. rewrite Hc in E. discriminate.
  - now intros ->.
Qed.

Lemma toLowerCase_lowercase_of (t : string) : lowercase_of t (toLowerCase t).
Proof.
  split.
  - induction t as [|c t IH]; [reflexivity|]. cbn [toLowerCase String.length].
    now rewrite IH.
  - induction t as [|c t IH]; intros i c0; [discriminate|].
    cbn [toLowerCase]. destruct i as [|i]; cbn [String.get].
    + now intros [= <-].
    + apply IH.
Qed.

(** ** Response parser *)

Import AlphaVantage.

Lemma toCleanString_Some (v : jsval) (t : string) :
  toCleanString v = Some t <-> exists s, v = VStr s /\ t = trim s /\ trim s <> "".
Proof.
  unfold toCleanString. destruct v as [ | | | |s| | ];
    try (split; [discriminate|intros (s' & [=] & _)]).
  destruct (trim s) as [|c rest] eqn:E; simpl.
  - split; [discriminate|]. intros (s' & [= <-] & _ & Hne). now rewrite E in Hne.
  - split.
    + intros [= <-]. exists s. rewrite E. repeat split. discriminate.
    + intros (s' & [= <-] & -> & _). now rewrite E.
Qed.

Lemma toCleanString_present (s : string) :
  trim s <> "" -> toCleanString (VStr s) = Some (trim s).
Proof. intros Hne. apply toCleanString_Some. eauto. Qed.

Lemma toCleanString_not_missing (v : jsval) (t : string) :
  toCleanString v = Some t -> missing (toCleanString v) = false.
Proof.
  intros Ht. rewrite Ht. apply toCleanString_Some in Ht as (s & _ & -> & Hne).
  unfold missing, str_truthy. destruct (String.eqb_spec (trim s) ""); [contradiction|reflexivity].
Qed.

Lemma toCleanString_None_iff (v : jsval) :
  toCleanString v = None <-> no_text v.
Proof.
  unfold no_text. split.
  - intros Hnone s ->. apply trim_empty_iff.
    unfold toCleanString in Hnone. destruct (trim s); [reflexivity|discriminate].
  - intros Hno. destruct v as [ | | | |s| | ]; try reflexivity.
    specialize (Hno s eq_refl). apply trim_empty_iff in Hno.
    unfold toCleanString. now rewrite Hno.
Qed.

Lemma get_field_isRecord (value : jsval) (k : string) (v : jsval) :
  get_field value k = v -> v <> VUndefined -> isRecord value = true.
Proof. destruct value; simpl; intros <- Hv; try contradiction; reflexivity. Qed.

Section Parser.
Context {rt : Builtins}.

(** The branches of [parseSymbolSearchResponse], in the order the parser
    takes them, in terms of [toCleanString]. *)
Lemma parseSymbolSearchResponse_branches (value : jsval) :
  (forall s, get_field value "Note" = VStr s -> trim s <> "" ->
     parseSymbolSearchResponse value
     = {| matches := []; message := Some (trim s);
          isRateLimited := true; isCacheable := false |})
  /\ (forall s, toCleanString (get_field value "Note") = None ->
        get_field value "Information" = VStr s -> trim s <> "" ->
        parseSymbolSearchResponse value
        = {| matches := []; message := Some (trim s);
             isRateLimited := true; isCacheable := false |})
  /\ (forall s, toCleanString (get_field value "Note") = None ->
        toCleanString (get_field value "Information") = None ->
        get_field value "Error Message" = VStr s -> trim s <> "" ->
        parseSymbolSearchResponse value
        = {| matches := []; message := Some (trim s);
             isRateLimited := false; isCacheable := false |})
  /\ (forall raw, toCleanString (get_field value "Note") = None ->
        toCleanString (get_field value "Information") = None ->
        toCleanString (get_field value "Error Message") = None ->
        get_field value "bestMatches" = VArr raw ->
        parseSymbolSearchResponse value
        = {| matches := omap parseSymbolSearchMatch raw; message := None;
             isRateLimited := false; isCacheable := true |}
        /\ (Forall (fun x => parseSymbolSearchMatch x = None) raw ->
            parseSymbolSearchResponse value
            = {| matches := []; message := None;
                 isRateLimited := false; isCacheable := true |})).
Proof.
  split; [|split; [|split]].
  - intros s Hs Hne.
    assert (Hrec : isRecord value = true)
      by (apply (get_field_isRecord _ _ _ Hs); discriminate).
    unfold parseSymbolSearchResponse. rewrite Hrec, Hs. cbn [negb].
    now rewrite (toCleanString_not_missing _ _ (toCleanString_present s Hne)),
      (toCleanString_present s Hne).
  - intros s Hnote Hs Hne.
    assert (Hrec : isRecord value = true)
      by (apply (get_field_isRecord _ _ _ Hs); discriminate).
    unfold parseSymbolSearchResponse. rewrite Hrec, Hnote, Hs. cbn [negb missing].
    now rewrite (toCleanString_not_missing _ _ (toCleanString_present s Hne)),
      (toCleanString_present s Hne).
  - intros s Hnote Hinfo Hs Hne.
    assert (Hrec : isRecord value = true)
      by (apply (get_field_isRecord _ _ _ Hs); discriminate).
    unfold parseSymbolSearchResponse.
    rewrite Hrec, Hnote, Hinfo, Hs. cbn [negb missing].
    now rewrite (toCleanString_not_missing _ _ (toCleanString_present s Hne)),
      (toCleanString_present s Hne).
  - intros raw Hnote Hinfo Herr Hraw.
    assert (Hrec : isRecord value = true)
      by (apply (get_field_isRecord _ _ _ Hraw); discriminate).
    assert (Hparse : parseSymbolSearchResponse value
        = {| matches := omap parseSymbolSearchMatch raw; message := None;
             isRateLimited := false; isCacheable := true |}).
    { unfold parseSymbolSearchResponse.
      now rewrite Hrec, Hnote, Hinfo, Herr, Hraw. }
    split; [exact Hparse|].
    intros Hall. rewrite Hparse. f_equal.
    clear Hraw Hparse.
    induction Hall as [|x l Hx _ IH]; [reflexivity|].
    cbn [omap list_omap]. rewrite Hx. exact IH.
Qed.

(** C5, as amended: the signals of [parseSymbolSearchResponse], in the
    order the parser looks for them.  A field counts when it is a string
    with at least one character other than white space; a field that is
    absent, not a string, empty or blank is passed over.  A [Note] that
    counts, or else an [Information] that counts, gives no matches, the
    text of the field without the white space around it as the message,
    rate limited, not cacheable.  Else an [Error Message] that counts gives
    no matches, its text without the white space around it, not rate
    limited, not cacheable.  Else a [bestMatches] that is a list gives the
    elements the per-element parser accepts, no message, not rate limited,
    cacheable; this holds when the parser drops every element, the matches
    then being empty. *)
Theorem parseSymbolSearchResponse_signals (value : jsval) :
  (forall s, get_field value "Note" = VStr s -> all_whitespace s = false ->
     exists t, t = trim s /\ trimmed_of s t /\ t <> ""
       /\ parseSymbolSearchResponse value
          = {| matches := []; message := Some t;
               isRateLimited := true; isCacheable := false |})
  /\ (forall s, no_text (get_field value "Note") ->
        get_field value "Information" = VStr s -> all_whitespace s = false ->
        exists t, t = trim s /\ trimmed_of s t /\ t <> ""
          /\ parseSymbolSearchResponse value
             = {| matches := []; message := Some t;
                  isRateLimited := true; isCacheable := false |})
  /\ (forall s, no_text (get_field value "Note") ->
        no_text (get_field value "Information") ->
        get_field value "Error Message" = VStr s -> all_whitespace s = false ->
        exists t, t = trim s /\ trimmed_of s t /\ t <> ""
          /\ parseSymbolSearchResponse value
             = {| matches := []; message := Some t;
                  isRateLimited := false; isCacheable := false |})
  /\ (forall raw, no_text (get_field value "Note") ->
        no_text (get_field value "Information") ->
        no_text (get_field value "Error Message") ->
        get_field value "bestMatches" = VArr raw ->
        parseSymbolSearchResponse value
        = {| matches := omap parseSymbolSearchMatch raw; message := None;
             isRateLimited := false; isCacheable := true |}
        /\ (Forall (fun x => parseSymbolSearchMatch x = None) raw ->
            parseSymbolSearchResponse value
            = {| matches := []; message := None;
                 isRateLimited := false; isCacheable := true |})).
Proof.
  destruct (parseSymbolSearchResponse_branches value) as (Hn & Hi & He & Hb).
  assert (Htext : forall s, all_whitespace s = false -> trim s <> "").
  { intros s Hs E. apply trim_empty_iff in E. congruence. }
  split; [|split; [|split]].
  - intros s Hs Hw. exists (trim s). split; [reflexivity|].
    split; [apply trim_trimmed_of|]. split; [now apply Htext|].
    apply Hn; [exact Hs|now apply Htext].
  - intros s Hnote Hs Hw. exists (trim s). split; [reflexivity|].
    split; [apply trim_trimmed_of|]. split; [now apply Htext|].
    apply Hi; [now apply toCleanString_None_iff|exact Hs|now apply Htext].
  - intros s Hnote Hinfo Hs Hw. exists (trim s). split; [reflexivity|].
    split; [apply trim_trimmed_of|]. split; [now apply Htext|].
    apply He; [now apply toCleanString_None_iff|now apply toCleanString_None_iff
              |exact Hs|now apply Htext].
  - intros raw Hnote Hinfo Herr Hraw.
    apply Hb; try exact Hraw; now apply toCleanString_None_iff.
Qed.

End Parser.

(** C5, as stated, fails: a [Note] that is not empty but holds only white
    space is no rate-limit signal.  The parser passes it over, and the
    payload is answered from its [bestMatches]: not rate limited,
    cacheable, no message. *)
Lemma parseSymbolSearchResponse_blank_note_is_no_signal :
  get_field blankNoteResponse "Note" = VStr "   "
  /\ "   " <> ""
  /\ parseSymbolSearchResponse (rt := Sample.sample_builtins) blankNoteResponse
     = {| AlphaVantage.matches :=
            [ {| symbol := "TSLA"; name := "Tesla Inc."; region := None;
                 currency := None; matchScore := None; type := None |} ];
          message := None; isRateLimited := false; isCacheable := true |}.
Proof. split; [reflexivity|]. split; [discriminate|reflexivity]. Qed.

(** ** Symbol search cache: the heap *)

Import SymbolSearchCache.

Lemma read_match_app (h ext : heap) (l : loc) (m : SymbolSearchMatch) :
  read_match h l = Some m -> read_match (h ++ ext)%list l = Some m.
Proof.
  unfold read_match. destruct (h !! l) as [c|] eqn:E; [|discriminate].
  intros Hc. now rewrite (lookup_app_l_Some _ _ _ _ E).
Qed.

Lemma cloneElems_spec (elems : list loc) :
  forall (h : heap) (ms : list SymbolSearchMatch),
    mapM (read_match h) elems = Some ms ->
    cloneElems h elems
    = Some ((h ++ map CMatch ms)%list, seq (length h) (length ms)).
Proof.
  induction elems as [|l rest IH]; intros h ms Hms.
  - injection Hms as <-. simpl. now rewrite app_nil_r.
  - apply mapM_Some in Hms. inversion Hms as [|? m ? ms' Hl Hrest]; subst.
    cbn [cloneElems]. rewrite Hl. unfold alloc.
    rewrite (IH (h ++ [CMatch m])%list ms').
    + rewrite <- app_assoc, length_app. simpl.
      now rewrite Nat.add_1_r.
    + apply mapM_Some. eapply Forall2_impl; [exact Hrest|].
      intros x y Hx. now apply read_match_app.
Qed.

Lemma read_match_middle (ms : list SymbolSearchMatch) :
  forall (pre post : heap),
    Forall2 (fun l m => read_match (pre ++ map CMatch ms ++ post)%list l = Some m)
            (seq (length pre) (length ms)) ms.
Proof.
  induction ms as [|m ms IH]; intros pre post; simpl; constructor.
  - unfold read_match. now rewrite list_lookup_middle.
  - specialize (IH (pre ++ [CMatch m])%list post).
    rewrite length_app, Nat.add_1_r, <- app_assoc in IH. exact IH.
Qed.

(** What [cloneMatches] does to the heap: it appends a copy of every match
    and then the new array, and touches nothing else. *)
Lemma cloneMatches_spec (h : heap) (a : loc) (ms : list SymbolSearchMatch) :
  view h a = Some ms ->
  cloneMatches h a
  = Some ((h ++ map CMatch ms ++ [CArray (seq (length h) (length ms))])%list,
          length h + length ms).
Proof.
  unfold view, cloneMatches. destruct (read_array h a) as [elems|]; [|discriminate].
  intros Hms. rewrite (cloneElems_spec elems h ms Hms). unfold alloc.
  now rewrite <- app_assoc, length_app, length_map.
Qed.

Lemma view_clone (h : heap) (ms : list SymbolSearchMatch) :
  view (h ++ map CMatch ms ++ [CArray (seq (length h) (length ms))])%list
       (length h + length ms) = Some ms.
Proof.
  unfold view, read_array.
  assert (E : ((h ++ map CMatch ms ++ [CArray (seq (length h) (length ms))])%list
               !! (length h + length ms))
              = Some (CArray (seq (length h) (length ms)))).
  { rewrite app_assoc.
    replace (length h + length ms) with (length (h ++ map CMatch ms)%list)
      by (now rewrite length_app, length_map).
    apply list_lookup_middle. reflexivity. }
  rewrite E. apply mapM_Some, read_match_middle.
Qed.

Lemma footprint_clone (h : heap) (ms : list SymbolSearchMatch) (l : loc) :
  l ∈ footprint
        (h ++ map CMatch ms ++ [CArray (seq (length h) (length ms))])%list
        (length h + length ms) ->
  length h <= l.
Proof.
  unfold footprint, read_array.
  assert (E : ((h ++ map CMatch ms ++ [CArray (seq (length h) (length ms))])%list
               !! (length h + length ms))
              = Some (CArray (seq (length h) (length ms)))).
  { rewrite app_assoc.
    replace (length h + length ms) with (length (h ++ map CMatch ms)%list)
      by (now rewrite length_app, length_map).
    apply list_lookup_middle. reflexivity. }
  rewrite E. cbn [default]. intros Hl.
  apply elem_of_cons in Hl as [->|Hl]; [lia|].
  apply list_elem_of_In, in_seq in Hl. lia.
Qed.

Lemma view_agree (h h' : heap) (a : loc) :
  (forall l, l ∈ footprint h a -> h' !! l = h !! l) -> view h' a = view h a.
Proof.
  unfold footprint, view, read_array. intros Hsame.
  rewrite (Hsame a) by (apply elem_of_cons; now left).
  destruct (h !! a) as [[elems|m]|]; try reflexivity.
  cbn [default] in Hsame. apply Forall_mapM_ext, Forall_forall.
  intros l Hl. unfold read_match. rewrite (Hsame l); [reflexivity|].
  apply elem_of_cons. now right.
Qed.

Lemma footprint_valid (h : heap) (a l : loc) :
  is_Some (view h a) -> l ∈ footprint h a -> l < length h.
Proof.
  unfold footprint, view, read_array. intros Hms Hl.
  destruct (h !! a) as [[elems|m]|] eqn:Ea;
    try (destruct Hms as [? Hms]; discriminate).
  cbn [default] in Hl. apply elem_of_cons in Hl as [->|Hl].
  - now apply lookup_lt_Some in Ea.
  - apply mapM_is_Some_1 in Hms.
    rewrite Forall_forall in Hms. specialize (Hms l Hl).
    unfold compose, read_match in Hms.
    destruct (h !! l) as [c|] eqn:El; [|destruct Hms; discriminate].
    now apply lookup_lt_Some in El.
Qed.

(** Cells added after the array was built, and writes to them, do not
    change what the array denotes. *)
Lemma view_extend_write (h ext : heap) (a l : loc) (x : cell) :
  is_Some (view h a) -> length h <= l ->
  view (<[l := x]> (h ++ ext)%list) a = view h a.
Proof.
  intros Hv Hl. apply view_agree. intros l0 Hl0.
  pose proof (footprint_valid h a l0 Hv Hl0) as Hlt.
  rewrite list_lookup_insert_ne by lia.
  now apply lookup_app_l.
Qed.

Lemma view_extend (h ext : heap) (a : loc) :
  is_Some (view h a) -> view (h ++ ext)%list a = view h a.
Proof.
  intros Hv. apply view_agree. intros l0 Hl0.
  pose proof (footprint_valid h a l0 Hv Hl0) as Hlt.
  now apply lookup_app_l.
Qed.

(** ** Symbol search cache: the map *)

Section StringMapFacts.
Context {V : Type}.
Implicit Types (m : list (string * V)) (k : string) (v : V).

Lemma Map_get_set_same m k v : Map_get (Map_set m k v) k = Some v.
Proof.
  induction m as [|[k' v'] rest IH]; simpl.
  - now rewrite String.eqb_refl.
  - destruct (String.eqb k' k) eqn:E; simpl; now rewrite E.
Qed.

Lemma Map_get_set_other m k k' v :
  k' <> k -> Map_get (Map_set m k v) k' = Map_get m k'.
Proof.
  intros Hne. induction m as [|[k0 v0] rest IH]; simpl.
  - destruct (String.eqb_spec k k'); congruence.
  - destruct (String.eqb_spec k0 k) as [->|Hk]; simpl.
    + destruct (String.eqb_spec k k'); congruence.
    + now rewrite IH.
Qed.

Lemma Map_set_length m k v v0 :
  Map_get m k = Some v0 -> length (Map_set m k v) = length m.
Proof.
  induction m as [|[k' v'] rest IH]; simpl; [discriminate|].
  destruct (String.eqb k' k); simpl; [reflexivity|].
  intros Hg. now rewrite IH.
Qed.


Lemma Map_get_In m k v : Map_get m k = Some v -> In (k, v) m.
Proof.
  induction m as [|[k' v'] rest IH]; simpl; [discriminate|].
  destruct (String.eqb_spec k' k) as [->|Hk].
  - intros [= ->]. now left.
  - intros Hg. right. now apply IH.
Qed.


Lemma Map_delete_length m k v :
  Map_get m k = Some v -> S (length (Map_delete m k)) = length m.
Proof.
  induction m as [|[k' v'] rest IH]; simpl; [discriminate|].
  destruct (String.eqb k' k); simpl; [reflexivity|].
  intros Hg. now rewrite IH.
Qed.

Lemma Map_get_delete_other m k k' :
  k' <> k -> Map_get (Map_delete m k) k' = Map_get m k'.
Proof.
  intros Hne. induction m as [|[k0 v0] rest IH]; simpl; [reflexivity|].
  destruct (String.eqb_spec k0 k) as [->|Hk]; simpl.
  - destruct (String.eqb_spec k k'); congruence.
  - now rewrite IH.
Qed.

Lemma Map_delete_In m k kv : In kv (Map_delete m k) -> In kv m.
Proof.
  induction m as [|[k0 v0] rest IH]; simpl; [tauto|].
  destruct (String.eqb k0 k); simpl; [tauto|].
  intros [E|Hin]; [now left|right; now apply IH].
Qed.

Lemma Map_delete_keys_NoDup m k :
  List.NoDup (map fst m) -> List.NoDup (map fst (Map_delete m k)).
Proof.
  induction m as [|[k0 v0] rest IH]; simpl; [trivial|].
  intros Hnd. inversion Hnd as [|? ? Hnotin Hrest]; subst.
  destruct (String.eqb k0 k); simpl; [exact Hrest|].
  constructor; [|now apply IH].
  intros Hin. apply Hnotin. apply List.in_map_iff in Hin as (kv & <- & Hkv).
  apply List.in_map. now apply (Map_delete_In rest k).
Qed.

Lemma Map_get_delete_same m k :
  List.NoDup (map fst m) -> Map_get (Map_delete m k) k = None.
Proof.
  induction m as [|[k0 v0] rest IH]; simpl; [reflexivity|].
  intros Hnd. inversion Hnd as [|? ? Hnotin Hrest]; subst.
  destruct (String.eqb_spec k0 k) as [->|Hk]; simpl.
  - destruct (Map_get rest k) as [v|] eqn:E; [|reflexivity].
    exfalso. apply Hnotin. apply Map_get_In in E.
    now apply (List.in_map fst) in E.
  - destruct (String.eqb_spec k0 k); [contradiction|]. now apply IH.
Qed.

End StringMapFacts.



(** ** Symbol search cache: [get] *)

Lemma wf_cache_spec (h : heap) (c : SymbolSearchCache) :
  wf_cache h c = true <->
  List.NoDup (map fst (cache c))
  /\ forall k e, In (k, e) (cache c) ->
       is_Some (view h (matches e)) /\ (lastAccessed e <= accessSequence c)%Z.
Proof.
  unfold wf_cache, entry_ok.
  rewrite andb_true_iff, bool_decide_eq_true, NoDup_ListNoDup, forallb_forall.
  split; intros [Hnd Hall]; (split; [exact Hnd|]).
  - intros k e Hin. specialize (Hall (k, e) Hin). cbn [snd] in Hall.
    apply andb_true_iff in Hall as [Hv Hle].
    apply bool_decide_eq_true in Hv. apply Z.leb_le in Hle. auto.
  - intros [k e] Hin. destruct (Hall k e Hin) as [Hv Hle]. cbn [snd].
    apply andb_true_iff. split; [now apply bool_decide_eq_true|now apply Z.leb_le].
Qed.

Lemma str_truthy_true (s : string) : s <> "" -> str_truthy s = true.
Proof. unfold str_truthy. now destruct (String.eqb_spec s ""). Qed.

(** The cases of [get], relative to the normalized key. *)
Lemma get_cases (now : number) (keyword : string)
    (h : heap) (c : SymbolSearchCache) :
  wf_cache h c = true ->
  let key := normalizeSymbolSearchKeyword keyword in
  (forall keyword', normalizeSymbolSearchKeyword keyword' = key ->
     get now keyword' h c = get now keyword h c)
  /\ (key = "" -> get now keyword h c = Some (h, c, None))
  /\ (Map_get (cache c) key = None -> get now keyword h c = Some (h, c, None))
  /\ (forall e, key <> "" -> Map_get (cache c) key = Some e ->
        num_le (expiresAt e) now = true ->
        exists c', get now keyword h c = Some (h, c', None)
          /\ S (size c') = size c
          /\ Map_get (cache c') key = None
          /\ (forall k, k <> key -> Map_get (cache c') k = Map_get (cache c) k))
  /\ (forall e, key <> "" -> Map_get (cache c) key = Some e ->
        num_le (expiresAt e) now = false ->
        exists h' c' r ms,
          get now keyword h c = Some (h', c', Some r)
          /\ accessSequence c' = (accessSequence c + 1)%Z
          /\ (forall k e0, Map_get (cache c) k = Some e0 ->
                (lastAccessed e0 < accessSequence c')%Z)
          /\ Map_get (cache c') key
             = Some {| matches := matches e; expiresAt := expiresAt e;
                       lastAccessed := accessSequence c' |}
          /\ (forall k, k <> key -> Map_get (cache c') k = Map_get (cache c) k)
          /\ size c' = size c
          /\ view h (matches e) = Some ms
          /\ view h' r = Some ms
          /\ (forall k e0, Map_get (cache c') k = Some e0 ->
                view h' (matches e0) = view h (matches e0)
                /\ forall l x, l ∈ footprint h' r ->
                     view (<[l := x]> h') (matches e0) = view h' (matches e0))).
Proof.
  intros Hwf key. apply wf_cache_spec in Hwf as [Hnd Hall].
  split; [|split; [|split; [|split]]].
  - intros keyword' Hk. unfold get. now rewrite Hk.
  - intros Hk. unfold get. fold key. now rewrite Hk.
  - intros Hk. unfold get. fold key. rewrite Hk.
    now destruct (str_truthy key).
  - intros e Hne Hget Hexp. unfold get. fold key.
    rewrite (str_truthy_true key Hne), Hget, Hexp. cbn [negb].
    eexists. split; [reflexivity|]. unfold size. cbn [cache with_cache].
    split; [now apply (Map_delete_length _ _ e)|].
    split; [now apply Map_get_delete_same|].
    intros k Hk. now apply Map_get_delete_other.
  - intros e Hne Hget Hexp.
    destruct (Hall key e (Map_get_In _ _ _ Hget)) as [[ms Hms] Hle].
    unfold get. fold key.
    rewrite (str_truthy_true key Hne), Hget, Hexp. cbn [negb].
    rewrite (cloneMatches_spec h (matches e) ms Hms).
    do 4 eexists. split; [reflexivity|]. cbn [accessSequence cache with_cache].
    split; [reflexivity|].
    split.
    { intros k e0 Hk. apply Map_get_In in Hk.
      destruct (Hall k e0 Hk) as [_ Hle0]. lia. }
    split; [apply Map_get_set_same|].
    split; [intros k Hk; now apply Map_get_set_other|].
    split; [unfold size; cbn [cache]; now apply (Map_set_length _ _ _ e)|].
    split; [exact Hms|].
    split; [apply view_clone|].
    intros k e0 Hk.
    assert (Hv0 : is_Some (view h (matches e0))).
    { destruct (String.eqb_spec k key) as [->|Hkk].
      - rewrite Map_get_set_same in Hk. injection Hk as <-. cbn [matches]. eauto.
      - rewrite Map_get_set_other in Hk by exact Hkk.
        apply Map_get_In in Hk. now destruct (Hall k e0 Hk). }
    split; [now apply view_extend|].
    intros l x Hl. apply footprint_clone in Hl.
    rewrite (view_extend_write h _ (matches e0) l x Hv0 Hl).
    symmetry. now apply view_extend.
Qed.

(** C8: [get] looks the keyword up under its normalized form: the keyword
    without the white space around it, with every letter [A] to [Z]
    replaced by its lower-case letter; so keywords that differ only in
    case and in white space around them are answered alike.  An empty
    normalized key and a miss return [null] and change nothing.  An entry
    whose expiry is at or before [now] is removed, the size goes down by
    one and the result is [null].  Otherwise the counter moves to a value
    above every recency marker, the entry takes it as its marker, and the
    result is a new array whose content equals the stored matches; writing
    any cell of that array, or of its elements, leaves the content of
    every stored entry as it was. *)
Theorem get_returns_defensive_copy (now : number) (keyword : string)
    (h : heap) (c : SymbolSearchCache) :
  wf_cache h c = true ->
  let key := normalizeSymbolSearchKeyword keyword in
  (exists t, trimmed_of keyword t /\ lowercase_of t key)
  /\ (forall p1 p2 keyword',
        all_whitespace p1 = true -> all_whitespace p2 = true ->
        toLowerCase keyword' = toLowerCase keyword ->
        get now (p1 ++ keyword' ++ p2) h c = get now keyword h c)
  /\ (forall keyword', normalizeSymbolSearchKeyword keyword' = key ->
     get now keyword' h c = get now keyword h c)
  /\ (key = "" -> get now keyword h c = Some (h, c, None))
  /\ (Map_get (cache c) key = None -> get now keyword h c = Some (h, c, None))
  /\ (forall e, key <> "" -> Map_get (cache c) key = Some e ->
        num_le (expiresAt e) now = true ->
        exists c', get now keyword h c = Some (h, c', None)
          /\ S (size c') = size c
          /\ Map_get (cache c') key = None
          /\ (forall k, k <> key -> Map_get (cache c') k = Map_get (cache c) k))
  /\ (forall e, key <> "" -> Map_get (cache c) key = Some e ->
        num_le (expiresAt e) now = false ->
        exists h' c' r ms,
          get now keyword h c = Some (h', c', Some r)
          /\ accessSequence c' = (accessSequence c + 1)%Z
          /\ (forall k e0, Map_get (cache c) k = Some e0 ->
                (lastAccessed e0 < accessSequence c')%Z)
          /\ Map_get (cache c') key
             = Some {| matches := matches e; expiresAt := expiresAt e;
                       lastAccessed := accessSequence c' |}
          /\ (forall k, k <> key -> Map_get (cache c') k = Map_get (cache c) k)
          /\ size c' = size c
          /\ view h (matches e) = Some ms
          /\ view h' r = Some ms
          /\ (forall k e0, Map_get (cache c') k = Some e0 ->
                view h' (matches e0) = view h (matches e0)
                /\ forall l x, l ∈ footprint h' r ->
                     view (<[l := x]> h') (matches e0) = view h' (matches e0))).
Proof.
  intros Hwf key.
  split; [|split; [|exact (get_cases now keyword h c Hwf)]].
  - exists (trim keyword). split; [apply trim_trimmed_of|].
    apply toLowerCase_lowercase_of.
  - intros p1 p2 keyword' H1 H2 Hlow.
    apply (proj1 (get_cases now keyword h c Hwf)).
    unfold key, normalizeSymbolSearchKeyword.
    now rewrite (trim_padding p1 keyword' p2 H1 H2), <- !trim_toLowerCase, Hlow.
Qed.

(** ** Symbol search cache: the maintained state *)

Section StringMapSet.
Context {V : Type}.
Implicit Types (m : list (string * V)) (k : string) (v : V).

Lemma Map_set_In m k v kv :
  In kv (Map_set m k v) -> kv = (k, v) \/ In kv m.
Proof.
  induction m as [|[k0 v0] rest IH]; simpl.
  - intros [E|[]]. now left.
  - destruct (String.eqb_spec k0 k) as [->|Hk]; simpl.
    + intros [E|Hin]; [now left|right; now right].
    + intros [E|Hin]; [right; now left|].
      destruct (IH Hin); [now left|right; now right].
Qed.

Lemma Map_set_keys_NoDup m k v :
  List.NoDup (map fst m) -> List.NoDup (map fst (Map_set m k v)).
Proof.
  induction m as [|[k0 v0] rest IH]; simpl.
  - intros _. constructor; [intros []|constructor].
  - intros Hnd. inversion Hnd as [|? ? Hnotin Hrest]; subst.
    destruct (String.eqb_spec k0 k) as [->|Hk]; simpl.
    + now constructor.
    + constructor; [|now apply IH].
      intros Hin. apply List.in_map_iff in Hin as ([k1 v1] & E & Hkv).
      cbn [fst] in E. subst k1.
      destruct (Map_set_In rest k v _ Hkv) as [[= E _]|Hin]; [congruence|].
      apply Hnotin. now apply (List.in_map fst) in Hin.
Qed.

End StringMapSet.

Lemma createSymbolSearchCache_wf (h : heap) (options : SymbolSearchCacheOptions) :
  wf_cache h (createSymbolSearchCache options) = true.
Proof. reflexivity. Qed.

Lemma set_wf (now : number) (keyword : string) (m : loc) (h : heap)
    (c : SymbolSearchCache) :
  wf_cache h c = true -> is_Some (view h m) ->
  exists h' c', SymbolSearchCache.set now keyword m h c = Some (h', c')
    /\ wf_cache h' c' = true.
Proof.
  intros Hwf [ms Hms]. unfold SymbolSearchCache.set.
  destruct (num_seq (maxEntries c) (Fin 0)); [eauto|].
  destruct (str_truthy (normalizeSymbolSearchKeyword keyword)); cbn [negb];
    [|eauto].
  rewrite (cloneMatches_spec h m ms Hms).
  do 2 eexists. split; [reflexivity|].
  apply wf_cache_spec in Hwf as [Hnd Hall].
  set (key := normalizeSymbolSearchKeyword keyword).
  set (h' := (h ++ map CMatch ms ++ [CArray (seq (length h) (length ms))])%list).
  set (e := {| matches := length h + length ms;
               expiresAt := num_add now (ttlMs c);
               lastAccessed := (accessSequence c + 1)%Z |}).
  assert (Hset : forall k0 e0, In (k0, e0) (Map_set (cache c) key e) ->
            is_Some (view h' (matches e0))
            /\ (lastAccessed e0 <= accessSequence c + 1)%Z).
  { intros k0 e0 Hin. destruct (Map_set_In _ _ _ _ Hin) as [[= _ ->]|Hold].
    - split; [|cbn; lia]. exists ms. apply view_clone.
    - destruct (Hall k0 e0 Hold) as [Hv Hle]. split; [|lia].
      unfold h'. now rewrite view_extend. }
  pose proof (Map_set_keys_NoDup (cache c) key e Hnd) as Hnd'.
  apply wf_cache_spec. cbn [cache accessSequence with_cache].
  destruct (num_gt _ _); [|auto].
  destruct (findOldestKey _) as [oldest|]; [|auto].
  destruct (str_truthy oldest); [|auto].
  split; [now apply Map_delete_keys_NoDup|].
  intros k0 e0 Hin. apply Hset with k0. now apply (Map_delete_In _ oldest).
Qed.

Lemma get_wf (now : number) (keyword : string) (h : heap)
    (c : SymbolSearchCache) :
  wf_cache h c = true ->
  exists h' c' r, get now keyword h c = Some (h', c', r)
    /\ wf_cache h' c' = true.
Proof.
  intros Hwf. pose proof Hwf as Hwf0.
  apply wf_cache_spec in Hwf as [Hnd Hall]. unfold get.
  set (key := normalizeSymbolSearchKeyword keyword).
  destruct (str_truthy key); cbn [negb]; [|eauto 6].
  destruct (Map_get (cache c) key) as [e|] eqn:Hget; [|eauto 6].
  destruct (num_le (expiresAt e) now).
  - do 3 eexists. split; [reflexivity|].
    apply wf_cache_spec. cbn [cache accessSequence with_cache].
    split; [now apply Map_delete_keys_NoDup|].
    intros k0 e0 Hin. apply Hall with k0. now apply (Map_delete_In _ key).
  - destruct (Hall key e (Map_get_In _ _ _ Hget)) as [[ms Hms] Hle].
    rewrite (cloneMatches_spec h (matches e) ms Hms).
    do 3 eexists. split; [reflexivity|].
    apply wf_cache_spec. cbn [cache accessSequence with_cache].
    split; [now apply Map_set_keys_NoDup|].
    intros k0 e0 Hin. destruct (Map_set_In _ _ _ _ Hin) as [[= _ ->]|Hold].
    + cbn [matches lastAccessed]. split; [|lia].
      rewrite view_extend by eauto. eauto.
    + destruct (Hall k0 e0 Hold) as [Hv Hle0]. split; [|lia].
      now rewrite view_extend.
Qed.

Lemma clear_wf (h : heap) (c : SymbolSearchCache) : wf_cache h (clear c) = true.
Proof. reflexivity. Qed.

Lemma filter_keys_NoDup {V : Type} (f : string * V -> bool)
    (m : list (string * V)) :
  List.NoDup (map fst m) -> List.NoDup (map fst (List.filter f m)).
Proof.
  induction m as [|kv rest IH]; simpl; [trivial|].
  intros Hnd. inversion Hnd as [|? ? Hnotin Hrest]; subst.
  destruct (f kv); simpl; [|now apply IH].
  constructor; [|now apply IH].
  intros Hin. apply Hnotin. apply List.in_map_iff in Hin as (kv' & <- & Hkv).
  apply List.filter_In in Hkv as [Hkv _]. now apply List.in_map.
Qed.

Lemma pruneExpired_wf (now : number) (h : heap) (c : SymbolSearchCache) :
  wf_cache h c = true -> wf_cache h (pruneExpired now c) = true.
Proof.
  intros Hwf. apply wf_cache_spec in Hwf as [Hnd Hall].
  apply wf_cache_spec. unfold pruneExpired. cbn [cache accessSequence with_cache].
  split.
  - now apply filter_keys_NoDup.
  - intros k e Hin. apply List.filter_In in Hin as [Hin _]. now apply Hall with k.
Qed.

(** ** Symbol search cache: a maximum of zero entries *)

Lemma Qfloor_zero (q : Q) : Qfloor q = 0%Z -> (0 <= q)%Q /\ (q < 1)%Q.
Proof.
  intros Hf. pose proof (Qfloor_le q) as Hle. pose proof (Qlt_floor q) as Hlt.
  rewrite Hf in Hle, Hlt. split; [exact Hle|exact Hlt].
Qed.

Lemma maxEntries_zero_options (options : SymbolSearchCacheOptions) :
  num_seq (maxEntries (createSymbolSearchCache options)) (Fin 0) = true ->
  exists q, options_maxEntries options = Some (Fin q) /\ (0 < q)%Q /\ (q < 1)%Q.
Proof.
  unfold createSymbolSearchCache. cbn [maxEntries].
  destruct (options_maxEntries options) as [[ | | |q]|]; try discriminate.
  unfold num_gt, num_lt. destruct (Qlt_bool 0 q) eqn:Hpos; [|discriminate].
  cbn [Math_floor num_seq]. intros Hz. exists q. split; [reflexivity|].
  apply Qeq_bool_iff in Hz.
  assert (Hf : Qfloor q = 0%Z).
  { unfold Qeq, inject_Z in Hz. simpl in Hz. lia. }
  split; [|now apply Qfloor_zero].
  unfold Qlt_bool in Hpos. apply negb_true_iff in Hpos.
  destruct (Qlt_le_dec 0 q) as [Hlt|Hle]; [exact Hlt|].
  apply Qle_bool_iff in Hle. congruence.
Qed.

Lemma step_disabled (a : action) (h : heap) (c : SymbolSearchCache) :
  num_seq (maxEntries c) (Fin 0) = true -> cache c = [] ->
  exists h', step a h c = Some (h', c).
Proof.
  intros Hz He. destruct c as [ttl mx sq m]. cbn [maxEntries cache] in *. subst m.
  destruct a as [now k m|now k| |now|l x|x]; cbn [step].
  - unfold SymbolSearchCache.set. cbn [maxEntries]. rewrite Hz. eauto.
  - unfold get. cbn [cache Map_get].
    destruct (str_truthy _); cbn [negb]; eauto.
  - eauto.
  - eauto.
  - eauto.
  - eauto.
Qed.

Lemma run_disabled (actions : list action) :
  forall (h : heap) (c : SymbolSearchCache),
    num_seq (maxEntries c) (Fin 0) = true -> cache c = [] ->
    exists h', run actions h c = Some (h', c).
Proof.
  induction actions as [|a rest IH]; intros h c Hz He; cbn [run]; [eauto|].
  destruct (step_disabled a h c Hz He) as [h1 ->]. now apply IH.
Qed.

Lemma maxEntries_fraction_floors_to_zero (options : SymbolSearchCacheOptions)
    (q : Q) :
  options_maxEntries options = Some (Fin q) -> (0 < q)%Q -> (q < 1)%Q ->
  num_seq (maxEntries (createSymbolSearchCache options)) (Fin 0) = true.
Proof.
  intros Ho Hpos Hlt. unfold createSymbolSearchCache. cbn [maxEntries].
  rewrite Ho. unfold num_gt, num_lt.
  assert (Hb : Qlt_bool 0 q = true).
  { unfold Qlt_bool. apply negb_true_iff.
    destruct (Qle_bool q 0) eqn:E; [|reflexivity].
    apply Qle_bool_iff in E. exfalso. now apply (Qlt_not_le _ _ Hpos). }
  rewrite Hb. cbn [Math_floor num_seq].
  assert (Hf : Qfloor q = 0%Z).
  { pose proof (Qfloor_le q) as Hle. pose proof (Qlt_floor q) as Hlt'.
    assert (H1 : (inject_Z (Qfloor q) < inject_Z 1)%Q)
      by (eapply Qle_lt_trans; [exact Hle|exact Hlt]).
    assert (H2 : (inject_Z 0 < inject_Z (Qfloor q + 1))%Q)
      by (eapply Qlt_trans; [exact Hpos|exact Hlt']).
    rewrite <- Zlt_Qlt in H1, H2. lia. }
  now rewrite Hf.
Qed.

(** X22: the guard of [set] on a maximum of zero works: for a cache whose
    maximum is [0], [set] does nothing for every keyword and every match
    list; whatever is then done with the cache, it stays as created, so its
    size is 0 and [get] returns [null] for every keyword.  The constructor
    gives such a cache exactly for a [maxEntries] option strictly between
    0 and 1, which [Math.floor] takes to 0. *)
Theorem zero_maxEntries_disables_storage (options : SymbolSearchCacheOptions) :
  (num_seq (maxEntries (createSymbolSearchCache options)) (Fin 0) = true <->
   exists q, options_maxEntries options = Some (Fin q) /\ (0 < q)%Q /\ (q < 1)%Q)
  /\ (num_seq (maxEntries (createSymbolSearchCache options)) (Fin 0) = true ->
      (forall now keyword m h,
         SymbolSearchCache.set now keyword m h (createSymbolSearchCache options)
         = Some (h, createSymbolSearchCache options))
      /\ (forall actions h, exists h',
            run actions h (createSymbolSearchCache options)
            = Some (h', createSymbolSearchCache options))
      /\ size (createSymbolSearchCache options) = 0
      /\ (forall now keyword h,
            get now keyword h (createSymbolSearchCache options)
            = Some (h, createSymbolSearchCache options, None))).
Proof.
  split.
  { split; [now apply maxEntries_zero_options|].
    intros (q & Ho & Hpos & Hlt).
    now apply (maxEntries_fraction_floors_to_zero options q). }
  intros Hz.
  split; [intros now keyword m h; unfold SymbolSearchCache.set; now rewrite Hz|].
  split; [intros actions h; now apply run_disabled|].
  split; [reflexivity|].
  intros now keyword h. unfold get. cbn [cache createSymbolSearchCache Map_get].
  now destruct (str_truthy _).
Qed.

(** C2: the constructor never lets the option [maxEntries = 0] reach the
    guard of [set].  An option that is not above 0 (zero, a negative
    number, [NaN]) is replaced by the default maximum of 50, whatever the
    other option.  So on a cache made with [maxEntries = 0], [set] stores
    the entry: the size becomes 1 and a later [get] returns the matches. *)
Theorem maxEntries_option_zero_still_stores :
  (forall ttl n, num_gt n (Fin 0) = false ->
     maxEntries (createSymbolSearchCache
                   {| options_ttlMs := ttl; options_maxEntries := Some n |})
     = num_of_Z 50)
  /\ options_maxEntries zeroMaxEntries = Some (Fin 0)
  /\ maxEntries (createSymbolSearchCache zeroMaxEntries) = num_of_Z 50
  /\ SymbolSearchCache.set (num_of_Z 1000) "AAPL" 1 appleHeap
       (createSymbolSearchCache zeroMaxEntries)
     = Some (afterSetApple zeroMaxEntries)
  /\ size (snd (afterSetApple zeroMaxEntries)) = 1
  /\ exists h' c' r,
       get (num_of_Z 2000) "AAPL" (fst (afterSetApple zeroMaxEntries))
         (snd (afterSetApple zeroMaxEntries)) = Some (h', c', Some r)
       /\ view h' r = Some [apple].
Proof.
  split.
  { intros ttl n Hn. unfold createSymbolSearchCache.
    cbn [maxEntries options_maxEntries]. now rewrite Hn. }
  split; [reflexivity|].
  split; [reflexivity|]. split; [reflexivity|]. split; [reflexivity|].
  do 3 eexists. split; [vm_compute; reflexivity|reflexivity].
Qed.

Lemma zero_maxEntries_disables_storage_witness :
  num_seq (maxEntries (createSymbolSearchCache halfMaxEntries)) (Fin 0) = true
  /\ SymbolSearchCache.set (num_of_Z 1000) "AAPL" 1 appleHeap
       (createSymbolSearchCache halfMaxEntries)
     = Some (appleHeap, createSymbolSearchCache halfMaxEntries).
Proof.
  split; [reflexivity|].
  exact (proj1 (proj2 (zero_maxEntries_disables_storage halfMaxEntries) eq_refl)
           (num_of_Z 1000) "AAPL" 1 appleHeap).
Defined.

Lemma get_returns_defensive_copy_witness :
  wf_cache (fst (afterSetApple defaultOptions))
           (snd (afterSetApple defaultOptions)) = true
  /\ (exists h' c' r,
        get (num_of_Z 2000) "  aApL " (fst (afterSetApple defaultOptions))
          (snd (afterSetApple defaultOptions)) = Some (h', c', Some r)
        /\ view h' r = Some [apple])
  /\ get (num_of_Z 2000) "MSFT" (fst (afterSetApple defaultOptions))
       (snd (afterSetApple defaultOptions))
     = Some (afterSetApple defaultOptions, None).
Proof.
  assert (Hwf : wf_cache (fst (afterSetApple defaultOptions))
                         (snd (afterSetApple defaultOptions)) = true)
    by (vm_compute; reflexivity).
  split; [exact Hwf|]. split.
  - destruct (proj2 (proj2 (proj2 (proj2 (proj2 (proj2
                (get_returns_defensive_copy (num_of_Z 2000) "  aApL " _ _ Hwf))))))
                {| matches := 3; expiresAt := num_of_Z 301000; lastAccessed := 1 |})
      as (h' & c' & r & ms & Hget & _ & _ & _ & _ & _ & Hms & Hcopy & _).
    + vm_compute. discriminate.
    + vm_compute. reflexivity.
    + vm_compute. reflexivity.
    + exists h', c', r. split; [exact Hget|].
      rewrite Hcopy, <- Hms. vm_compute. reflexivity.
  - refine (proj1 (proj2 (proj2 (proj2 (proj2
              (get_returns_defensive_copy (num_of_Z 2000) "MSFT" _ _ Hwf))))) _).
    vm_compute. reflexivity.
Defined.

Lemma epoch_updatedAt_counts_as_missing_witness :
  Date_parse (Builtins := Sample.sample_builtins) (updatedAt epochEntry)
  = Some 0%Z
  /\ shouldReplaceUserEntry (rt := Sample.sample_builtins)
       (StoredEntry epochEntry) beforeEpochEntry = true.
Proof.
  split; [reflexivity|].
  refine (proj1 (proj2 (proj2 (proj2
    (epoch_updatedAt_counts_as_missing (rt := Sample.sample_builtins)
       epochEntry beforeEpochEntry eq_refl))) _)).
  vm_compute. discriminate.
Defined.

(** ** Merge resolver: [mergeLeagueUsers] *)

Section Merge.
Context {rt : Builtins}.

Lemma inherited_name_proto (k : string) :
  inherited_name k = false -> String.eqb k "__proto__" = false.
Proof.
  intros Hk. destruct (String.eqb_spec k "__proto__") as [->|]; [|reflexivity].
  discriminate.
Qed.

Lemma mergeStep_plain (ex : gset string) (S1 : MergeSummary) (now_iso k : string)
    (v : jsval) :
  inherited_name k = false -> proto (mergedUsers S1) = None ->
  mergeStep ex S1 now_iso k v =
    if skipped ex k v then S1
    else
      let s := sanitizeUserEntry now_iso k v in
      match own (mergedUsers S1) !! k with
      | None =>
          {| added := added S1 ++ [k]; updated := updated S1;
             mergedUsers := {| own := <[k := s]> (own (mergedUsers S1));
                               proto := None |} |}
      | Some x =>
          if shouldReplaceUserEntry (StoredEntry x) s
          then {| added := added S1; updated := updated S1 ++ [k];
                  mergedUsers := {| own := <[k := s]> (own (mergedUsers S1));
                                    proto := None |} |}
          else S1
      end.
Proof.
  intros Hk Hp. unfold mergeStep.
  destruct (skipped ex k v); [reflexivity|]. cbn zeta.
  unfold users_get, users_set. rewrite Hp, Hk, (inherited_name_proto k Hk).
  destruct (own (mergedUsers S1) !! k) as [x|]; cbn [stored_truthy negb];
    reflexivity.
Qed.

Lemma mergeStep_proto (ex : gset string) (S1 : MergeSummary) (now_iso k : string)
    (v : jsval) :
  inherited_name k = false -> proto (mergedUsers S1) = None ->
  proto (mergedUsers (mergeStep ex S1 now_iso k v)) = None.
Proof.
  intros Hk Hp. rewrite (mergeStep_plain ex S1 now_iso k v Hk Hp).
  destruct (skipped ex k v); [exact Hp|]. cbn zeta.
  destruct (own (mergedUsers S1) !! k); [|reflexivity].
  now destruct (shouldReplaceUserEntry _ _).
Qed.

Lemma mergeStep_other (ex : gset string) (S1 : MergeSummary) (now_iso k : string)
    (v : jsval) (k' : string) :
  k' <> k -> inherited_name k = false -> proto (mergedUsers S1) = None ->
  own (mergedUsers (mergeStep ex S1 now_iso k v)) !! k'
    = own (mergedUsers S1) !! k'
  /\ (k' ∈ added (mergeStep ex S1 now_iso k v) <-> k' ∈ added S1)
  /\ (k' ∈ updated (mergeStep ex S1 now_iso k v) <-> k' ∈ updated S1).
Proof.
  intros Hne Hk Hp. rewrite (mergeStep_plain ex S1 now_iso k v Hk Hp).
  destruct (skipped ex k v); [tauto|]. cbn zeta.
  destruct (own (mergedUsers S1) !! k).
  - destruct (shouldReplaceUserEntry _ _); [|tauto].
    cbn [own mergedUsers added updated]. rewrite lookup_insert_ne by congruence.
    rewrite elem_of_app, list_elem_of_singleton. tauto.
  - cbn [own mergedUsers added updated]. rewrite lookup_insert_ne by congruence.
    rewrite elem_of_app, list_elem_of_singleton. tauto.
Qed.


(** A username that the loop does not meet keeps its record and its place
    outside or inside the two lists. *)
Lemma mergeLoop_frame (ex : gset string) (clock : nat -> string)
    (entries : list (string * jsval)) (k' : string) :
  forall (i : nat) (S1 : MergeSummary),
    k' ∉ entries.*1 ->
    (forall k, k ∈ entries.*1 -> inherited_name k = false) ->
    proto (mergedUsers S1) = None ->
    own (mergedUsers (mergeLoop ex clock i entries S1)) !! k'
      = own (mergedUsers S1) !! k'
    /\ (k' ∈ added (mergeLoop ex clock i entries S1) <-> k' ∈ added S1)
    /\ (k' ∈ updated (mergeLoop ex clock i entries S1) <-> k' ∈ updated S1).
Proof.
  induction entries as [|[k v] rest IH]; intros i S1 Hnotin Hplain Hp; [tauto|].
  cbn [mergeLoop]. cbn in Hnotin. apply not_elem_of_cons in Hnotin as [Hne Hnotin].
  assert (Hk : inherited_name k = false)
    by (apply Hplain; cbn; apply elem_of_cons; now left).
  destruct (IH (S i) (mergeStep ex S1 (clock i) k v) Hnotin) as (E1 & E2 & E3).
  - intros k0 Hk0. apply Hplain. cbn. apply elem_of_cons; now right.
  - now apply mergeStep_proto.
  - destruct (mergeStep_other ex S1 (clock i) k v k' Hne Hk Hp) as (F1 & F2 & F3).
    rewrite E1, E2, E3, F1, F2, F3. tauto.
Qed.

Lemma mergeLoop_NoDup (ex : gset string) (clock : nat -> string)
    (entries : list (string * jsval)) :
  forall (i : nat) (S1 : MergeSummary),
    NoDup entries.*1 ->
    (forall k, k ∈ entries.*1 -> inherited_name k = false) ->
    proto (mergedUsers S1) = None ->
    (forall k, k ∈ entries.*1 -> (k ∉ added S1) /\ (k ∉ updated S1)) ->
    NoDup (added S1) -> NoDup (updated S1) ->
    NoDup (added (mergeLoop ex clock i entries S1))
    /\ NoDup (updated (mergeLoop ex clock i entries S1)).
Proof.
  induction entries as [|[k v] rest IH];
    intros i S1 Hnd Hplain Hp Hfresh Ha Hu; [tauto|].
  cbn [mergeLoop]. cbn in Hnd. apply NoDup_cons in Hnd as [Hk_rest Hnd].
  assert (Hk : inherited_name k = false)
    by (apply Hplain; cbn; apply elem_of_cons; now left).
  destruct (Hfresh k) as [Hka Hku]; [cbn; apply elem_of_cons; now left|].
  apply IH; try assumption.
  - intros k0 Hk0. apply Hplain. cbn. apply elem_of_cons; now right.
  - now apply mergeStep_proto.
  - intros k0 Hk0.
    assert (Hne : k0 <> k) by (intros ->; contradiction).
    destruct (mergeStep_other ex S1 (clock i) k v k0 Hne Hk Hp) as (_ & F2 & F3).
    rewrite F2, F3. apply Hfresh. cbn. apply elem_of_cons; now right.
  - rewrite (mergeStep_plain ex S1 (clock i) k v Hk Hp).
    destruct (skipped ex k v); [exact Ha|]. cbn zeta.
    destruct (own (mergedUsers S1) !! k).
    + now destruct (shouldReplaceUserEntry _ _).
    + cbn [added]. apply NoDup_app. repeat split; [exact Ha| |apply NoDup_singleton].
      intros x Hx Hx'. apply list_elem_of_singleton in Hx'. now subst x.
  - rewrite (mergeStep_plain ex S1 (clock i) k v Hk Hp).
    destruct (skipped ex k v); [exact Hu|]. cbn zeta.
    destruct (own (mergedUsers S1) !! k); [|exact Hu].
    destruct (shouldReplaceUserEntry _ _); [|exact Hu].
    cbn [updated]. apply NoDup_app. repeat split; [exact Hu| |apply NoDup_singleton].
    intros x Hx Hx'. apply list_elem_of_singleton in Hx'. now subst x.
Qed.

Lemma mergeLoop_entry (ex : gset string) (clock : nat -> string)
    (entries : list (string * jsval)) :
  forall (i : nat) (S1 : MergeSummary) (j : nat) (k : string) (v : jsval),
    NoDup entries.*1 ->
    (forall k0, k0 ∈ entries.*1 -> inherited_name k0 = false) ->
    proto (mergedUsers S1) = None ->
    entries !! j = Some (k, v) ->
    let S2 := mergeLoop ex clock i entries S1 in
    let s := sanitizeUserEntry (clock (i + j)) k v in
    if skipped ex k v
    then own (mergedUsers S2) !! k = own (mergedUsers S1) !! k
         /\ (k ∈ added S2 <-> k ∈ added S1)
         /\ (k ∈ updated S2 <-> k ∈ updated S1)
    else
      match own (mergedUsers S1) !! k with
      | None =>
          own (mergedUsers S2) !! k = Some s
          /\ k ∈ added S2
          /\ (k ∈ updated S2 <-> k ∈ updated S1)
      | Some x =>
          own (mergedUsers S2) !! k
            = Some (if shouldReplaceUserEntry (StoredEntry x) s then s else x)
          /\ (k ∈ added S2 <-> k ∈ added S1)
          /\ (k ∈ updated S2 <->
                k ∈ updated S1 \/ shouldReplaceUserEntry (StoredEntry x) s = true)
      end.
Proof.
  induction entries as [|[k0 v0] rest IH];
    intros i S1 j k v Hnd Hplain Hp Hj; [discriminate|].
  cbn in Hnd. apply NoDup_cons in Hnd as [Hk0_rest Hnd].
  assert (Hk0 : inherited_name k0 = false)
    by (apply Hplain; cbn; apply elem_of_cons; now left).
  assert (Hrest : forall k1, k1 ∈ rest.*1 -> inherited_name k1 = false)
    by (intros k1 Hk1; apply Hplain; cbn; apply elem_of_cons; now right).
  pose proof (mergeStep_proto ex S1 (clock i) k0 v0 Hk0 Hp) as Hp'.
  cbn [mergeLoop]. cbn zeta. destruct j as [|j].
  - injection Hj as -> ->. rewrite Nat.add_0_r.
    destruct (mergeLoop_frame ex clock rest k (S i)
                (mergeStep ex S1 (clock i) k v) Hk0_rest Hrest Hp')
      as (E1 & E2 & E3).
    rewrite (mergeStep_plain ex S1 (clock i) k v Hk0 Hp) in E1, E2, E3 |- *.
    destruct (skipped ex k v); [cbn iota in E1, E2, E3; tauto|].
    cbn zeta iota in E1, E2, E3 |- *.
    destruct (own (mergedUsers S1) !! k) as [x|] eqn:Hx.
    + destruct (shouldReplaceUserEntry (StoredEntry x) _) eqn:Hsr.
      * cbn [own mergedUsers added updated] in E1, E2, E3.
        rewrite lookup_insert_eq in E1.
        rewrite elem_of_app, list_elem_of_singleton in E3.
        rewrite E1, E2, E3. tauto.
      * rewrite E1, E2, E3, Hx. intuition congruence.
    + cbn [own mergedUsers added updated] in E1, E2, E3.
      rewrite lookup_insert_eq in E1.
      rewrite elem_of_app, list_elem_of_singleton in E2.
      rewrite E1, E2, E3. tauto.
  - cbn in Hj.
    assert (Hk : k ∈ rest.*1).
    { apply list_elem_of_fmap. exists (k, v). split; [reflexivity|].
      apply list_elem_of_lookup. eauto. }
    assert (Hne : k <> k0) by (intros ->; contradiction).
    pose proof (IH (S i) (mergeStep ex S1 (clock i) k0 v0) j k v
                  Hnd Hrest Hp' Hj) as Hind.
    cbn zeta in Hind.
    destruct (mergeStep_other ex S1 (clock i) k0 v0 k Hne Hk0 Hp) as (F1 & F2 & F3).
    rewrite F1 in Hind.
    replace (i + S j) with (S i + j) by lia.
    destruct (skipped ex k v); [|destruct (own (mergedUsers S1) !! k)];
      rewrite ?F2, ?F3 in Hind; exact Hind.
Qed.

(** X1: for usernames that are not names of members of [Object.prototype]:
    an entry that is skipped leaves no trace; a sanitized record without an
    existing counterpart is inserted and its username is in [added]; one
    with a counterpart replaces it and is in [updated] exactly when
    [shouldReplaceUserEntry] says so, and otherwise the existing record is
    kept; neither list has duplicates. *)
Theorem mergeLeagueUsers_plain_names (clock : nat -> string)
    (existingUsers : gmap string LeagueEntry) (incomingUsers : jsval)
    (options : MergeOptions) :
  NoDup (Object_entries incomingUsers).*1 ->
  (forall k, k ∈ (Object_entries incomingUsers).*1 -> inherited_name k = false) ->
  truthy incomingUsers = true -> typeof_object incomingUsers = true ->
  let S2 := mergeLeagueUsers clock existingUsers incomingUsers options in
  let ex : gset string := list_to_set (default [] (exclude options)) in
  NoDup (added S2) /\ NoDup (updated S2)
  /\ forall i k v, Object_entries incomingUsers !! i = Some (k, v) ->
       let s := sanitizeUserEntry (clock i) k v in
       if skipped ex k v
       then (k ∉ added S2) /\ (k ∉ updated S2)
            /\ own (mergedUsers S2) !! k = existingUsers !! k
       else
         match existingUsers !! k with
         | None =>
             k ∈ added S2 /\ (k ∉ updated S2)
             /\ own (mergedUsers S2) !! k = Some s
         | Some x =>
             (k ∉ added S2)
             /\ (k ∈ updated S2 <->
                   shouldReplaceUserEntry (StoredEntry x) s = true)
             /\ own (mergedUsers S2) !! k
                = Some (if shouldReplaceUserEntry (StoredEntry x) s
                        then s else x)
         end.
Proof.
  intros Hnd Hplain Ht Ho S2 ex. subst S2. unfold mergeLeagueUsers.
  rewrite Ht, Ho. cbn [negb orb]. fold ex.
  set (S0 := {| added := []; updated := [];
                mergedUsers := {| own := existingUsers; proto := None |} |}).
  destruct (mergeLoop_NoDup ex clock (Object_entries incomingUsers) 0 S0
              Hnd Hplain eq_refl) as [Ha Hu].
  { intros k _. split; apply not_elem_of_nil. }
  { apply NoDup_nil_2. }
  { apply NoDup_nil_2. }
  split; [exact Ha|]. split; [exact Hu|].
  intros i k v Hi.
  pose proof (mergeLoop_entry ex clock (Object_entries incomingUsers) 0 S0 i k v
                Hnd Hplain eq_refl Hi) as Hent.
  cbn zeta in Hent. cbn [Nat.add] in Hent. cbn zeta.
  destruct (skipped ex k v).
  - destruct Hent as (E1 & E2 & E3). cbn [S0 added updated mergedUsers own] in *.
    rewrite E1, E2, E3. repeat split; apply not_elem_of_nil.
  - cbn [S0 added updated mergedUsers own] in Hent.
    destruct (existingUsers !! k) as [x|].
    + destruct Hent as (E1 & E2 & E3). rewrite E1, E2, E3.
      split; [apply not_elem_of_nil|]. split; [|reflexivity].
      split; [intros [Hnil|Hsr]; [now apply not_elem_of_nil in Hnil|exact Hsr]|].
      intros Hsr. now right.
    + destruct Hent as (E1 & E2 & E3). rewrite E1, E3.
      split; [exact E2|]. split; [apply not_elem_of_nil|reflexivity].
Qed.

End Merge.

(** C6: with no existing users and one incoming user named [toString],
    the record is not reported as added: the lookup of the existing record
    finds the inherited method, [shouldReplaceUserEntry] is asked, and the
    username ends in [updated]. *)
Theorem mergeLeagueUsers_inherited_name_is_updated :
  added (mergeLeagueUsers (rt := Sample.sample_builtins) fixedClock ∅
           toStringUsers {| exclude := None |}) = []
  /\ updated (mergeLeagueUsers (rt := Sample.sample_builtins) fixedClock ∅
                toStringUsers {| exclude := None |}) = ["toString"].
Proof. split; vm_compute; reflexivity. Qed.

(** ** The theorems at the inputs of the test suite *)

Lemma calculateSystem2Points_zero_open_excluded_witness :
  calculateSystem2Points [obj_set basePrediction "closePrice" (VNum (Fin 120))]
  = num_add (Fin 0) (num_mul (num_div (num_sub (Fin 120) (Fin 100)) (Fin 100))
                       (Fin 100)).
Proof.
  pose proof calculateSystem2Points_zero_open_excluded as (_ & _ & _ & _ & Hc).
  exact (proj1 (Hc [] (obj_set basePrediction "closePrice" (VNum (Fin 120)))
                  (Fin 100) (Fin 120) eq_refl eq_refl eq_refl eq_refl) eq_refl).
Defined.

Lemma shouldReplaceUserEntry_cascade_witness :
  length (predictions laterButPoorer) < length (predictions existingMarch1)
  /\ num_lt (pointsS1 laterButPoorer) (pointsS1 existingMarch1) = true
  /\ num_lt (pointsS2 laterButPoorer) (pointsS2 existingMarch1) = true
  /\ shouldReplaceUserEntry (rt := Sample.sample_builtins)
       (StoredEntry existingMarch1) laterButPoorer = true
  /\ shouldReplaceUserEntry (rt := Sample.sample_builtins)
       (StoredEntry laterButPoorer) existingMarch1 = false
  /\ shouldReplaceUserEntry (rt := Sample.sample_builtins)
       (StoredEntry existingMarch1) incomingMarch2 = true.
Proof.
  split; [vm_compute; lia|]. split; [reflexivity|]. split; [reflexivity|].
  split; [|split].
  - pose proof (shouldReplaceUserEntry_cascade (rt := Sample.sample_builtins)
                  existingMarch1 laterButPoorer) as Hc.
    cbv zeta in Hc. destruct Hc as [Hlater _].
    apply Hlater; vm_compute; [discriminate|discriminate|reflexivity].
  - pose proof (shouldReplaceUserEntry_cascade (rt := Sample.sample_builtins)
                  laterButPoorer existingMarch1) as Hc.
    cbv zeta in Hc. destruct Hc as (_ & Hearlier & _).
    apply Hearlier; vm_compute; [discriminate|discriminate|reflexivity].
  - pose proof (shouldReplaceUserEntry_cascade (rt := Sample.sample_builtins)
                  existingMarch1 incomingMarch2) as Hc.
    cbv zeta in Hc. destruct Hc as [Hlater _].
    apply Hlater; vm_compute; [discriminate|discriminate|reflexivity].
Defined.

Lemma parseSymbolSearchResponse_signals_witness :
  (exists t,
     t = "Please try again later."
     /\ trimmed_of "  Please try again later. " t
     /\ parseSymbolSearchResponse (rt := Sample.sample_builtins) paddedNoteResponse
        = {| AlphaVantage.matches := []; message := Some t;
             isRateLimited := true; isCacheable := false |})
  /\ parseSymbolSearchResponse (rt := Sample.sample_builtins) mixedMatchesResponse
     = {| AlphaVantage.matches := [ {| symbol := "TSLA"; name := "Tesla Inc."; region := None;
                          currency := None; matchScore := None; type := None |} ];
          message := None; isRateLimited := false; isCacheable := true |}.
Proof.
  split.
  - destruct (proj1 (parseSymbolSearchResponse_signals
                       (rt := Sample.sample_builtins) paddedNoteResponse)
                "  Please try again later. " eq_refl eq_refl)
      as (t & Ht & Htrim & _ & Hparse).
    exists t. split; [rewrite Ht; vm_compute; reflexivity|].
    split; [exact Htrim|exact Hparse].
  - pose proof (parseSymbolSearchResponse_signals
                  (rt := Sample.sample_builtins) mixedMatchesResponse)
      as (_ & _ & _ & Hlist).
    refine (proj1 (Hlist _ _ _ _ eq_refl)); intros s Hs; discriminate.
Defined.

Lemma mergeLeagueUsers_plain_names_witness :
  added (mergeLeagueUsers (rt := Sample.sample_builtins) fixedClock mergeExisting
           mergeIncoming mergeOptions) = ["Beta"]
  /\ updated (mergeLeagueUsers (rt := Sample.sample_builtins) fixedClock
                mergeExisting mergeIncoming mergeOptions) = ["Alpha"]
  /\ "Beta" ∈ added (mergeLeagueUsers (rt := Sample.sample_builtins) fixedClock
                       mergeExisting mergeIncoming mergeOptions).
Proof.
  split; [vm_compute; reflexivity|]. split; [vm_compute; reflexivity|].
  assert (Hnd : NoDup (Object_entries mergeIncoming).*1) by compute_done.
  assert (Hplain : forall k, k ∈ (Object_entries mergeIncoming).*1 ->
                     inherited_name k = false).
  { intros k Hk. cbn in Hk.
    repeat (apply elem_of_cons in Hk as [->|Hk]; [reflexivity|]).
    now apply not_elem_of_nil in Hk. }
  pose proof (mergeLeagueUsers_plain_names (rt := Sample.sample_builtins)
                fixedClock mergeExisting mergeIncoming mergeOptions
                Hnd Hplain eq_refl eq_refl) as Hm.
  cbv zeta in Hm. destruct Hm as (_ & _ & Hent).
  specialize (Hent 1 "Beta" _ eq_refl).
  exact (proj1 Hent).
Defined.

(** * Further properties of the code *)

(** ** Scoring engine: system 1 *)

Import System1.

Lemma num_add_of_Z (a b : Z) :
  num_add (num_of_Z a) (num_of_Z b) = num_of_Z (a + b).
Proof.
  unfold num_of_Z, num_add, inject_Z, Qplus. cbn [Qnum Qden].
  f_equal. f_equal. lia.
Qed.

Lemma Math_round_of_Z (z : Z) : Math_round (num_of_Z z) = num_of_Z z.
Proof. unfold num_of_Z, Math_round. now rewrite Qfloor_half. Qed.

Lemma system1Step_of_Z (z : Z) (p : jsobject) :
  system1Step (num_of_Z z) p = num_of_Z (z + system1Contribution p).
Proof.
  unfold system1Step, system1Contribution.
  destruct (is_str _ _); apply (num_add_of_Z z).
Qed.

Lemma system1_fold_of_Z (l : list jsobject) :
  forall z, fold_left system1Step l (num_of_Z z)
            = num_of_Z (z + sumZ (map system1Contribution l)).
Proof.
  induction l as [|p l IH]; intros z.
  - cbn. f_equal. lia.
  - cbn [fold_left]. rewrite system1Step_of_Z, IH. f_equal.
    cbn [map]. unfold sumZ. cbn [fold_right]. lia.
Qed.

Lemma calculateSystem1Points_sum (entries : list jsobject) :
  calculateSystem1Points entries
  = num_of_Z (sumZ (map system1Contribution
                        (List.filter resolvedWithPrices entries))).
Proof.
  unfold calculateSystem1Points.
  change (Fin 0) with (num_of_Z 0). now rewrite system1_fold_of_Z.
Qed.

Lemma sumZ_contribution_bound (l : list jsobject) :
  (Z.abs (sumZ (map system1Contribution l)) <= Z.of_nat (length l))%Z.
Proof.
  induction l as [|p l IH]; [cbn; lia|].
  assert (Hp : system1Contribution p = 1%Z \/ system1Contribution p = (-1)%Z).
  { unfold system1Contribution. destruct (is_str _ _); auto. }
  cbn [map length]. unfold sumZ in *. cbn [fold_right]. lia.
Qed.

Lemma sumZ_contribution_counts (l : list jsobject) :
  sumZ (map system1Contribution l)
  = (Z.of_nat (length (List.filter matchesActualDirection l))
     - Z.of_nat (length (List.filter (fun p => negb (matchesActualDirection p)) l)))%Z.
Proof.
  induction l as [|p l IH]; [reflexivity|].
  cbn [map List.filter]. unfold sumZ in *. cbn [fold_right]. rewrite IH.
  change (system1Contribution p)
    with (if matchesActualDirection p then 1%Z else (-1)%Z).
  destruct (matchesActualDirection p); cbn [negb length]; lia.
Qed.

Lemma filter_partition_length {A : Type} (f : A -> bool) (l : list A) :
  length (List.filter f l) + length (List.filter (fun x => negb (f x)) l)
  = length l.
Proof.
  induction l as [|x l IH]; [reflexivity|]. cbn [List.filter].
  destruct (f x); cbn [negb length]; lia.
Qed.

(** X2: the system-1 score is the number of counted predictions (resolved,
    both prices numbers) that name the actual direction minus the number of
    counted predictions that do not, where the actual direction is ['up']
    when the close price is above the open price and ['down'] otherwise.
    It is therefore an integer between [-n] and [n] for [n] counted
    predictions, hence between [-length] and [length] of the whole list,
    and [Math.round] leaves it as it is. *)
Theorem calculateSystem1Points_integer_bounded (entries : list jsobject) :
  let counted := List.filter resolvedWithPrices entries in
  let right := List.filter matchesActualDirection counted in
  let wrong := List.filter (fun p => negb (matchesActualDirection p)) counted in
  calculateSystem1Points entries
  = num_of_Z (Z.of_nat (length right) - Z.of_nat (length wrong))
  /\ length right + length wrong = length counted
  /\ (forall p o c,
        obj_get p "openPrice" = VNum o -> obj_get p "closePrice" = VNum c ->
        (matchesActualDirection p = true <->
         (num_gt c o = true /\ obj_get p "prediction" = VStr "up")
         \/ (num_gt c o = false /\ obj_get p "prediction" = VStr "down")))
  /\ exists z : Z,
       calculateSystem1Points entries = num_of_Z z
       /\ (Z.abs z <= Z.of_nat (length counted))%Z
       /\ (Z.abs z <= Z.of_nat (length entries))%Z
       /\ Math_round (calculateSystem1Points entries)
          = calculateSystem1Points entries.
Proof.
  intros counted right wrong.
  pose proof (filter_partition_length matchesActualDirection counted) as Hpart.
  fold right wrong in Hpart.
  assert (Hscore : calculateSystem1Points entries
                   = num_of_Z (Z.of_nat (length right) - Z.of_nat (length wrong))).
  { rewrite calculateSystem1Points_sum. fold counted.
    now rewrite sumZ_contribution_counts. }
  split; [exact Hscore|]. split; [exact Hpart|]. split.
  { intros p o c Ho Hc. unfold matchesActualDirection. rewrite Ho, Hc.
    cbn [price_or]. destruct (num_gt c o).
    - rewrite is_str_true. split; [auto|]. intros [[_ E]|[E _]]; [exact E|discriminate].
    - rewrite is_str_true. split; [auto|]. intros [[E _]|[_ E]]; [discriminate|exact E]. }
  exists (Z.of_nat (length right) - Z.of_nat (length wrong))%Z.
  pose proof (List.filter_length_le resolvedWithPrices entries) as Hle.
  fold counted in Hle.
  split; [exact Hscore|]. split; [lia|]. split; [lia|].
  rewrite Hscore. apply Math_round_of_Z.
Qed.

Lemma sumZ_Permutation (l l' : list Z) : Permutation l l' -> sumZ l = sumZ l'.
Proof. unfold sumZ. induction 1; cbn [fold_right]; lia. Qed.

Lemma num_seq_not_gt (a b : number) : num_seq a b = true -> num_gt a b = false.
Proof.
  unfold num_gt.
  destruct a as [ | | |x], b as [ | | |y]; simpl; try discriminate; try reflexivity.
  intros E. unfold Qlt_bool. apply negb_false_iff, Qle_bool_iff.
  apply Qeq_bool_iff in E. rewrite E. apply Qle_refl.
Qed.

(** X3: the system-1 score does not depend on the order of the predictions;
    a prediction that is not resolved, or lacks a numeric price, does not
    change it; and a resolved prediction whose close price equals its open
    price is scored as a fall: [+1] when predicted down, [-1] when
    predicted up. *)
Theorem calculateSystem1Points_order_and_ties :
  (forall l l', Permutation l l' ->
     calculateSystem1Points l = calculateSystem1Points l')
  /\ (forall l1 p l2, resolvedWithPrices p = false ->
        calculateSystem1Points (l1 ++ p :: l2) = calculateSystem1Points (l1 ++ l2))
  /\ (forall l p o c,
        obj_get p "status" = VStr "resolved" ->
        obj_get p "openPrice" = VNum o -> obj_get p "closePrice" = VNum c ->
        num_seq c o = true ->
        (obj_get p "prediction" = VStr "down" ->
           calculateSystem1Points (l ++ [p])
           = num_add (calculateSystem1Points l) (Fin 1))
        /\ (obj_get p "prediction" = VStr "up" ->
              calculateSystem1Points (l ++ [p])
              = num_add (calculateSystem1Points l) (Fin (-1)))).
Proof.
  split; [|split].
  - intros l l' Hp. rewrite !calculateSystem1Points_sum. f_equal.
    apply sumZ_Permutation, Permutation_map.
    induction Hp; simpl.
    + constructor.
    + destruct (resolvedWithPrices x); [now constructor|assumption].
    + destruct (resolvedWithPrices x), (resolvedWithPrices y);
        try (now constructor); reflexivity.
    + etransitivity; eassumption.
  - intros l1 p l2 Hp. unfold calculateSystem1Points.
    rewrite !List.filter_app. simpl. now rewrite Hp.
  - intros l p o c Hs Ho Hc Heq.
    assert (Hf : resolvedWithPrices p = true).
    { unfold resolvedWithPrices. now rewrite Hs, Ho, Hc. }
    assert (Hgt : num_gt c o = false) by now apply num_seq_not_gt.
    assert (Hsnoc : calculateSystem1Points (l ++ [p])
                    = system1Step (calculateSystem1Points l) p).
    { unfold calculateSystem1Points. rewrite List.filter_app. simpl.
      rewrite Hf. now rewrite fold_left_app. }
    rewrite Hsnoc. unfold system1Step. rewrite Ho, Hc. cbn [price_or].
    rewrite Hgt. split; intros ->; reflexivity.
Qed.

(** ** Merge resolver: [shouldReplaceUserEntry] as an order *)

Lemma num_seq_sym (a b : number) : num_seq a b = num_seq b a.
Proof.
  destruct a as [ | | |x], b as [ | | |y]; try reflexivity. cbn [num_seq].
  destruct (Qeq_bool x y) eqn:E, (Qeq_bool y x) eqn:E'; try reflexivity.
  - apply Qeq_bool_iff in E. symmetry in E. apply Qeq_bool_iff in E. congruence.
  - apply Qeq_bool_iff in E'. symmetry in E'. apply Qeq_bool_iff in E'. congruence.
Qed.

Lemma num_sne_sym (a b : number) : num_sne a b = num_sne b a.
Proof. unfold num_sne. now rewrite num_seq_sym. Qed.

Lemma num_gt_asym (a b : number) : num_gt a b = true -> num_gt b a = false.
Proof. unfold num_gt at 1. intros Hlt. now apply num_lt_asym in Hlt. Qed.

Lemma num_sne_refl_gt (a : number) : num_sne a a = true -> num_gt a a = false.
Proof.
  destruct a as [ | | |x]; try reflexivity; try discriminate.
  intros _. unfold num_gt, num_lt, Qlt_bool. apply negb_false_iff, Qle_bool_iff.
  apply Qle_refl.
Qed.

Section ReplaceOrder.
Context {rt : Builtins}.

(** The comparison of counts and scores that follows the timestamps. *)
Lemma byCountAndPoints_asym (a b : LeagueEntry) :
  (if negb (Nat.eqb (length (predictions b)) (length (predictions a)))
   then Nat.ltb (length (predictions a)) (length (predictions b))
   else if num_sne (pointsS1 b) (pointsS1 a)
   then num_gt (pointsS1 b) (pointsS1 a)
   else if num_sne (pointsS2 b) (pointsS2 a)
   then num_gt (pointsS2 b) (pointsS2 a) else false) = true ->
  (if negb (Nat.eqb (length (predictions a)) (length (predictions b)))
   then Nat.ltb (length (predictions b)) (length (predictions a))
   else if num_sne (pointsS1 a) (pointsS1 b)
   then num_gt (pointsS1 a) (pointsS1 b)
   else if num_sne (pointsS2 a) (pointsS2 b)
   then num_gt (pointsS2 a) (pointsS2 b) else false) = false.
Proof.
  rewrite (Nat.eqb_sym (length (predictions a))).
  rewrite (num_sne_sym (pointsS1 a)), (num_sne_sym (pointsS2 a)).
  destruct (Nat.eqb_spec (length (predictions b)) (length (predictions a)))
    as [E|E]; cbn [negb].
  - destruct (num_sne (pointsS1 b) (pointsS1 a)); [apply num_gt_asym|].
    destruct (num_sne (pointsS2 b) (pointsS2 a)); [apply num_gt_asym|discriminate].
  - intros Hlt. apply Nat.ltb_lt in Hlt. apply Nat.ltb_ge. lia.
Qed.

Lemma shouldReplaceUserEntry_irrefl (a : LeagueEntry) :
  shouldReplaceUserEntry (StoredEntry a) a = false.
Proof.
  unfold shouldReplaceUserEntry.
  cbn [read_updatedAt read_count read_pointsS1 read_pointsS2 sne_opt gt_opt].
  rewrite Nat.eqb_refl, Z.ltb_irrefl. cbn [negb].
  assert (Hb : (if num_sne (pointsS1 a) (pointsS1 a)
                then num_gt (pointsS1 a) (pointsS1 a)
                else if num_sne (pointsS2 a) (pointsS2 a)
                then num_gt (pointsS2 a) (pointsS2 a) else false) = false).
  { destruct (num_sne (pointsS1 a) (pointsS1 a)) eqn:E1;
      [now apply num_sne_refl_gt|].
    destruct (num_sne (pointsS2 a) (pointsS2 a)) eqn:E2;
      [now apply num_sne_refl_gt|reflexivity]. }
  rewrite Hb.
  destruct (Z.eqb (getValidTimestamp (VStr (updatedAt a))) 0); reflexivity.
Qed.

Lemma shouldReplaceUserEntry_asym (a b : LeagueEntry) :
  shouldReplaceUserEntry (StoredEntry a) b = true ->
  shouldReplaceUserEntry (StoredEntry b) a = false.
Proof.
  unfold shouldReplaceUserEntry.
  cbn [read_updatedAt read_count read_pointsS1 read_pointsS2 sne_opt gt_opt].
  pose proof (byCountAndPoints_asym a b) as Hab.
  set (ta := getValidTimestamp (VStr (updatedAt a))) in *.
  set (tb := getValidTimestamp (VStr (updatedAt b))) in *.
  destruct (Z.eqb_spec tb 0), (Z.eqb_spec ta 0); cbn [negb andb];
    try discriminate; try reflexivity; try exact Hab.
  destruct (Z.ltb_spec ta tb), (Z.ltb_spec tb ta);
    try discriminate; try reflexivity; try lia; exact Hab.
Qed.

(** X4: [shouldReplaceUserEntry] never lets two entries replace each other:
    an entry does not replace itself, and when the incoming entry replaces
    the existing one, the existing one would not replace the incoming one. *)
Theorem shouldReplaceUserEntry_asymmetric :
  (forall a, shouldReplaceUserEntry (StoredEntry a) a = false)
  /\ (forall a b, shouldReplaceUserEntry (StoredEntry a) b = true ->
        shouldReplaceUserEntry (StoredEntry b) a = false).
Proof.
  split; [exact shouldReplaceUserEntry_irrefl|exact shouldReplaceUserEntry_asym].
Qed.

End ReplaceOrder.

(** ** Merge resolver: what [mergeLeagueUsers] does for every input *)

Section MergeAlways.
Context {rt : Builtins}.

Lemma users_set_keeps (users : users_object) (k : string) (e : LeagueEntry)
    (k0 : string) :
  is_Some (own users !! k0) -> is_Some (own (users_set users k e) !! k0).
Proof.
  intros Hk0. unfold users_set.
  destruct (own users !! k) eqn:Hk.
  - cbn [own]. rewrite lookup_insert_is_Some. destruct (decide (k = k0)); auto.
  - destruct (String.eqb k "__proto__"); cbn [own]; [exact Hk0|].
    rewrite lookup_insert_is_Some. destruct (decide (k = k0)); auto.
Qed.

Lemma users_get_falsy_own (users : users_object) (k : string) :
  stored_truthy (users_get users k) = false -> own users !! k = None.
Proof.
  unfold users_get. destruct (own users !! k); [discriminate|reflexivity].
Qed.

(** One call of the callback: no own record is lost, and a name is
    appended to at most one list, only when the entry was not skipped. *)
Lemma mergeStep_facts (ex : gset string) (S1 : MergeSummary)
    (now_iso k : string) (v : jsval) :
  (forall k0, is_Some (own (mergedUsers S1) !! k0) ->
     is_Some (own (mergedUsers (mergeStep ex S1 now_iso k v)) !! k0))
  /\ ((added (mergeStep ex S1 now_iso k v) = added S1
       /\ updated (mergeStep ex S1 now_iso k v) = updated S1)
      \/ (skipped ex k v = false
          /\ own (mergedUsers S1) !! k = None
          /\ added (mergeStep ex S1 now_iso k v) = (added S1 ++ [k])%list
          /\ updated (mergeStep ex S1 now_iso k v) = updated S1)
      \/ (skipped ex k v = false
          /\ added (mergeStep ex S1 now_iso k v) = added S1
          /\ updated (mergeStep ex S1 now_iso k v) = (updated S1 ++ [k])%list)).
Proof.
  unfold mergeStep. destruct (skipped ex k v) eqn:Hs; [auto|].
  destruct (stored_truthy (users_get (mergedUsers S1) k)) eqn:Ht; cbn [negb].
  - destruct (users_get (mergedUsers S1) k) as [x|]; [|auto].
    destruct (shouldReplaceUserEntry x _); [|auto].
    cbn [added updated mergedUsers]. split; [|auto].
    intros k0. apply users_set_keeps.
  - cbn [added updated mergedUsers]. split; [intros k0; apply users_set_keeps|].
    right. left. split; [reflexivity|]. split; [|auto].
    now apply users_get_falsy_own.
Qed.

Lemma mergeLoop_facts (ex : gset string) (clock : nat -> string)
    (entries : list (string * jsval)) :
  forall (i : nat) (S1 : MergeSummary),
    (forall k0, is_Some (own (mergedUsers S1) !! k0) ->
       is_Some (own (mergedUsers (mergeLoop ex clock i entries S1)) !! k0))
    /\ (forall k0, k0 ∈ added (mergeLoop ex clock i entries S1) ->
          k0 ∈ added S1
          \/ (own (mergedUsers S1) !! k0 = None
              /\ exists v, (k0, v) ∈ entries /\ skipped ex k0 v = false))
    /\ (forall k0, k0 ∈ updated (mergeLoop ex clock i entries S1) ->
          k0 ∈ updated S1
          \/ exists v, (k0, v) ∈ entries /\ skipped ex k0 v = false)
    /\ length (added (mergeLoop ex clock i entries S1))
         + length (updated (mergeLoop ex clock i entries S1))
       <= length (added S1) + length (updated S1) + length entries.
Proof.
  induction entries as [|[k v] rest IH]; intros i S1.
  - cbn [mergeLoop length]. repeat split; auto. lia.
  - cbn [mergeLoop].
    destruct (IH (S i) (mergeStep ex S1 (clock i) k v)) as (I1 & I2 & I3 & I4).
    destruct (mergeStep_facts ex S1 (clock i) k v) as (F1 & F2).
    split; [intros k0 Hk0; apply I1, F1, Hk0|].
    split; [|split].
    + intros k0 Hk0. destruct (I2 k0 Hk0) as [Hin|(Hnone & v' & Hv' & Hs')].
      * destruct F2 as [[Ea _]|[(Hs & Hn & Ea & _)|(_ & Ea & _)]];
          rewrite Ea in Hin; auto.
        apply elem_of_app in Hin as [Hin|Hin]; [auto|].
        apply list_elem_of_singleton in Hin. subst k0. right.
        split; [exact Hn|]. exists v. split; [apply elem_of_cons; now left|exact Hs].
      * right. split.
        -- destruct (own (mergedUsers S1) !! k0) eqn:E; [|reflexivity].
           destruct (F1 k0) as [y Hy]; [eauto|]. congruence.
        -- exists v'. split; [apply elem_of_cons; now right|exact Hs'].
    + intros k0 Hk0. destruct (I3 k0 Hk0) as [Hin|(v' & Hv' & Hs')].
      * destruct F2 as [[_ Eu]|[(_ & _ & _ & Eu)|(Hs & _ & Eu)]];
          rewrite Eu in Hin; auto.
        apply elem_of_app in Hin as [Hin|Hin]; [auto|].
        apply list_elem_of_singleton in Hin. subst k0. right.
        exists v. split; [apply elem_of_cons; now left|exact Hs].
      * right. exists v'. split; [apply elem_of_cons; now right|exact Hs'].
    + cbn [length].
      destruct F2 as [[Ea Eu]|[(_ & _ & Ea & Eu)|(_ & Ea & Eu)]];
        rewrite Ea, Eu in I4; rewrite ?length_app in I4; cbn [length] in I4; lia.
Qed.

(** X5: whatever the input, [mergeLeagueUsers] loses no existing user;
    every username it reports as added or updated is a key of
    [incomingUsers] that is not empty, not excluded and mapped to an
    object; a username reported as added had no existing record; the two
    lists together are no longer than [incomingUsers]; and when
    [incomingUsers] is not an object nothing is reported and the users are
    those given. *)
Theorem mergeLeagueUsers_keeps_existing (clock : nat -> string)
    (existingUsers : gmap string LeagueEntry) (incomingUsers : jsval)
    (options : MergeOptions) :
  let S2 := mergeLeagueUsers clock existingUsers incomingUsers options in
  let ex : gset string := list_to_set (default [] (exclude options)) in
  (forall k, is_Some (existingUsers !! k) -> is_Some (own (mergedUsers S2) !! k))
  /\ (forall k, k ∈ added S2 \/ k ∈ updated S2 ->
        k <> "" /\ (k ∉ ex)
        /\ exists v, (k, v) ∈ Object_entries incomingUsers
                     /\ truthy v = true /\ typeof_object v = true)
  /\ (forall k, k ∈ added S2 -> existingUsers !! k = None)
  /\ length (added S2) + length (updated S2)
     <= length (Object_entries incomingUsers)
  /\ (truthy incomingUsers = false \/ typeof_object incomingUsers = false ->
      added S2 = [] /\ updated S2 = []
      /\ mergedUsers S2 = {| own := existingUsers; proto := None |}).
Proof.
  intros S2 ex. subst S2. unfold mergeLeagueUsers. fold ex.
  set (S0 := {| added := []; updated := [];
                mergedUsers := {| own := existingUsers; proto := None |} |}).
  assert (Hskip : forall k v, skipped ex k v = false ->
            k <> "" /\ (k ∉ ex) /\ truthy v = true /\ typeof_object v = true).
  { intros k v Hs. unfold skipped in Hs.
    apply orb_false_iff in Hs as [Hs Ho]. apply orb_false_iff in Hs as [Hs Ht].
    apply orb_false_iff in Hs as [Hk He].
    apply negb_false_iff in Hk, Ht, Ho. apply bool_decide_eq_false in He.
    repeat split; auto. intros ->. discriminate. }
  destruct (negb (truthy incomingUsers) || negb (typeof_object incomingUsers))
    eqn:Hguard.
  - unfold S0. cbn [added updated mergedUsers own length].
    split; [auto|]. split; [|split; [|split; [lia|auto]]].
    + intros k [Hk|Hk]; now apply not_elem_of_nil in Hk.
    + intros k Hk. now apply not_elem_of_nil in Hk.
  - destruct (mergeLoop_facts ex clock (Object_entries incomingUsers) 0 S0)
      as (I1 & I2 & I3 & I4).
    unfold S0 in I1, I2, I3, I4 |- *.
    cbn [added updated mergedUsers own length] in I1, I2, I3, I4.
    split; [exact I1|]. split; [|split; [|split]].
    + intros k [Hk|Hk].
      * destruct (I2 k Hk) as [Hnil|(_ & v & Hv & Hs)];
          [now apply not_elem_of_nil in Hnil|].
        destruct (Hskip k v Hs) as (H1 & H2 & H3 & H4). eauto 10.
      * destruct (I3 k Hk) as [Hnil|(v & Hv & Hs)];
          [now apply not_elem_of_nil in Hnil|].
        destruct (Hskip k v Hs) as (H1 & H2 & H3 & H4). eauto 10.
    + intros k Hk. destruct (I2 k Hk) as [Hnil|(Hn & _)];
        [now apply not_elem_of_nil in Hnil|exact Hn].
    + lia.
    + intros [Ht|Ho]; [rewrite Ht in Hguard|rewrite Ho in Hguard];
        cbn in Hguard; rewrite ?orb_true_r in Hguard; discriminate.
Qed.

End MergeAlways.

(** ** Merge resolver: importing the same collection twice *)

Section MergeTwice.
Context {rt : Builtins}.

(** After the loop, an entry that was not skipped has a record that its
    sanitized form does not replace. *)
Lemma mergeLoop_settled (ex : gset string) (clock : nat -> string)
    (entries : list (string * jsval)) (S0 : MergeSummary)
    (i : nat) (k : string) (v : jsval) :
  NoDup entries.*1 ->
  (forall k0, k0 ∈ entries.*1 -> inherited_name k0 = false) ->
  proto (mergedUsers S0) = None ->
  entries !! i = Some (k, v) ->
  skipped ex k v = false ->
  exists y,
    own (mergedUsers (mergeLoop ex clock 0 entries S0)) !! k = Some y
    /\ shouldReplaceUserEntry (StoredEntry y)
         (sanitizeUserEntry (clock i) k v) = false.
Proof.
  intros Hnd Hplain Hp Hi Hs.
  pose proof (mergeLoop_entry ex clock entries 0 S0 i k v Hnd Hplain Hp Hi) as He.
  cbn zeta in He. cbn [Nat.add] in He. rewrite Hs in He.
  destruct (own (mergedUsers S0) !! k) as [x|].
  - destruct He as (E1 & _).
    destruct (shouldReplaceUserEntry (StoredEntry x) _) eqn:Hsr.
    + eexists. split; [exact E1|apply shouldReplaceUserEntry_irrefl].
    + eexists. split; [exact E1|exact Hsr].
  - destruct He as (E1 & _). eexists. split; [exact E1|].
    apply shouldReplaceUserEntry_irrefl.
Qed.

Lemma mergeLoop_proto_None (ex : gset string) (clock : nat -> string)
    (entries : list (string * jsval)) :
  forall (i : nat) (S1 : MergeSummary),
    (forall k, k ∈ entries.*1 -> inherited_name k = false) ->
    proto (mergedUsers S1) = None ->
    proto (mergedUsers (mergeLoop ex clock i entries S1)) = None.
Proof.
  induction entries as [|[k v] rest IH]; intros i S1 Hplain Hp; [exact Hp|].
  cbn [mergeLoop]. apply IH.
  - intros k' Hk'. apply Hplain. cbn. apply elem_of_cons; now right.
  - apply mergeStep_proto; [|exact Hp].
    apply Hplain. cbn. apply elem_of_cons; now left.
Qed.

(** X6: importing the same collection a second time changes nothing.  For
    incoming usernames that are not names of members of [Object.prototype]
    and the same clock readings, merging [incomingUsers] into the result of
    merging it reports no username as added or updated and returns the
    same users. *)
Theorem mergeLeagueUsers_twice (clock : nat -> string)
    (existingUsers : gmap string LeagueEntry) (incomingUsers : jsval)
    (options : MergeOptions) :
  NoDup (Object_entries incomingUsers).*1 ->
  (forall k, k ∈ (Object_entries incomingUsers).*1 -> inherited_name k = false) ->
  let once := mergeLeagueUsers clock existingUsers incomingUsers options in
  let twice :=
    mergeLeagueUsers clock (own (mergedUsers once)) incomingUsers options in
  added twice = [] /\ updated twice = []
  /\ mergedUsers twice = mergedUsers once.
Proof.
  intros Hnd Hplain once twice. subst once twice. unfold mergeLeagueUsers.
  set (ex := list_to_set (default [] (exclude options)) : gset string).
  destruct (negb (truthy incomingUsers) || negb (typeof_object incomingUsers)).
  { cbn [added updated mergedUsers own]. auto. }
  set (entries := Object_entries incomingUsers) in *.
  set (S0 := {| added := []; updated := [];
                mergedUsers := {| own := existingUsers; proto := None |} |}).
  set (S1 := mergeLoop ex clock 0 entries S0).
  set (S0' := {| added := []; updated := [];
                 mergedUsers := {| own := own (mergedUsers S1); proto := None |} |}).
  set (S2 := mergeLoop ex clock 0 entries S0').
  assert (Hp1 : proto (mergedUsers S1) = None)
    by (apply mergeLoop_proto_None; [exact Hplain|reflexivity]).
  assert (Hp2 : proto (mergedUsers S2) = None)
    by (apply mergeLoop_proto_None; [exact Hplain|reflexivity]).
  (* what the second pass does for each username *)
  assert (Hall : forall k,
            own (mergedUsers S2) !! k = own (mergedUsers S1) !! k
            /\ (k ∉ added S2) /\ (k ∉ updated S2)).
  { intros k. destruct (decide (k ∈ entries.*1)) as [Hin|Hout].
    - apply list_elem_of_fmap in Hin as ([k' v] & Hk & Hkv). cbn in Hk. subst k'.
      apply list_elem_of_lookup in Hkv as [i Hi].
      pose proof (mergeLoop_entry ex clock entries 0 S0' i k v Hnd Hplain
                    eq_refl Hi) as He.
      cbn zeta in He. cbn [Nat.add] in He. fold S2 in He.
      destruct (skipped ex k v) eqn:Hs.
      + destruct He as (E1 & E2 & E3). cbn [S0' added updated mergedUsers own] in *.
        rewrite E1, E2, E3. repeat split; apply not_elem_of_nil.
      + destruct (mergeLoop_settled ex clock entries S0 i k v Hnd Hplain
                    eq_refl Hi Hs) as (y & Hy & Hsr).
        fold S1 in Hy. cbn [S0' added updated mergedUsers own] in He.
        rewrite Hy in He. rewrite Hsr in He. destruct He as (E1 & E2 & E3).
        rewrite E1, E2, E3, Hy. split; [reflexivity|].
        split; [apply not_elem_of_nil|].
        intros [Hnil|Hf]; [now apply not_elem_of_nil in Hnil|discriminate].
    - destruct (mergeLoop_frame ex clock entries k 0 S0' Hout Hplain eq_refl)
        as (E1 & E2 & E3).
      fold S2 in E1, E2, E3. cbn [S0' added updated mergedUsers own] in *.
      rewrite E1, E2, E3. repeat split; apply not_elem_of_nil. }
  split; [|split].
  - apply elem_of_nil_inv. intros k. apply (Hall k).
  - apply elem_of_nil_inv. intros k. apply (Hall k).
  - destruct (mergedUsers S2) as [o2 p2] eqn:E2, (mergedUsers S1) as [o1 p1] eqn:E1.
    cbn [proto own] in *. subst p1 p2. f_equal.
    apply map_eq. intros k. apply (Hall k).
Qed.

End MergeTwice.

(** ** Entry sanitizer: totals and [updatedAt] *)

Section SanitizerMore.
Context {rt : Builtins}.

(** X7: when at least one prediction survives, the totals of the sanitized
    entry come from its predictions alone: [pointsS1] is the system-1 score
    itself (the rounding changes nothing), [pointsS2] is the rounded
    system-2 score, and two raw entries with the same [predictions] and
    [updatedAt] give the same entry whatever totals they carry.  When none
    survives, the totals are rounded, so rounding them again changes
    nothing. *)
Theorem sanitizeUserEntry_totals (now_iso u : string) (e : jsval) :
  (predictions (sanitizeUserEntry now_iso u e) <> [] ->
     pointsS1 (sanitizeUserEntry now_iso u e)
     = calculateSystem1Points (predictions (sanitizeUserEntry now_iso u e))
     /\ pointsS2 (sanitizeUserEntry now_iso u e)
        = Math_round
            (calculateSystem2Points (predictions (sanitizeUserEntry now_iso u e)))
     /\ forall e',
          get_field e' "predictions" = get_field e "predictions" ->
          get_field e' "updatedAt" = get_field e "updatedAt" ->
          sanitizeUserEntry now_iso u e' = sanitizeUserEntry now_iso u e)
  /\ Math_round (pointsS1 (sanitizeUserEntry now_iso u e))
     = pointsS1 (sanitizeUserEntry now_iso u e)
  /\ Math_round (pointsS2 (sanitizeUserEntry now_iso u e))
     = pointsS2 (sanitizeUserEntry now_iso u e).
Proof.
  split; [|split].
  - unfold sanitizeUserEntry. cbn [predictions pointsS1 pointsS2].
    set (ps := map (sanitizePrediction u) _). intros Hne.
    assert (Hlen : Nat.ltb 0 (length ps) = true).
    { destruct ps; [contradiction|reflexivity]. }
    rewrite Hlen. split; [|split; [reflexivity|]].
    + rewrite calculateSystem1Points_sum. apply Math_round_of_Z.
    + intros e' Hp Hu. rewrite Hp, Hu. fold ps. now rewrite Hlen.
  - unfold sanitizeUserEntry. cbn [pointsS1].
    destruct (Nat.ltb 0 _); apply Math_round_idempotent.
  - unfold sanitizeUserEntry. cbn [pointsS2].
    destruct (Nat.ltb 0 _); apply Math_round_idempotent.
Qed.

(** X8: the [updatedAt] of a sanitized entry is the raw one when that is a
    non-empty string, and the clock reading in every other case (absent,
    empty, or not a string); with a non-empty clock reading it is never
    empty.  The predictions do not depend on the clock. *)
Theorem sanitizeUserEntry_updatedAt (now_iso u : string) (e : jsval) :
  (forall s, get_field e "updatedAt" = VStr s -> s <> "" ->
     updatedAt (sanitizeUserEntry now_iso u e) = s)
  /\ ((forall s, get_field e "updatedAt" = VStr s -> s = "") ->
      updatedAt (sanitizeUserEntry now_iso u e) = now_iso)
  /\ (now_iso <> "" -> updatedAt (sanitizeUserEntry now_iso u e) <> "")
  /\ (forall now_iso',
        predictions (sanitizeUserEntry now_iso' u e)
        = predictions (sanitizeUserEntry now_iso u e)).
Proof.
  unfold sanitizeUserEntry. cbn [updatedAt predictions].
  split; [|split; [|split; [|reflexivity]]].
  - intros s Hs Hne. rewrite Hs. cbn [typeof_string truthy andb].
    now rewrite (str_truthy_true s Hne).
  - intros Hempty. destruct (get_field e "updatedAt") as [ | | | |s| | ];
      try reflexivity.
    rewrite (Hempty s eq_refl). reflexivity.
  - intros Hnow. destruct (get_field e "updatedAt") as [ | | | |s| | ];
      try exact Hnow.
    cbn [typeof_string truthy andb]. unfold str_truthy.
    destruct (String.eqb_spec s ""); cbn [negb]; assumption.
Qed.

End SanitizerMore.

(** ** Symbol search cache: eviction *)

Import CacheBound.

Lemma num_lt_of_Z (a b : Z) : num_lt (num_of_Z a) (num_of_Z b) = (a <? b)%Z.
Proof.
  unfold num_of_Z, num_lt, Qlt_bool, Qle_bool, inject_Z. cbn [Qnum Qden].
  destruct (Z.leb_spec (b * 1) (a * 1)), (Z.ltb_spec a b); cbn [negb];
    try reflexivity; lia.
Qed.

(** The scan started with a first candidate ends on an entry of the map
    whose marker is the smallest. *)
Lemma oldest_fold (m : list (string * CacheEntry)) :
  forall (k0 : string) (e0 : CacheEntry),
  exists k e,
    fold_left oldestStep m (Some k0, num_of_Z (lastAccessed e0))
    = (Some k, num_of_Z (lastAccessed e))
    /\ In (k, e) ((k0, e0) :: m)
    /\ (lastAccessed e <= lastAccessed e0)%Z
    /\ forall k' e', In (k', e') m -> (lastAccessed e <= lastAccessed e')%Z.
Proof.
  induction m as [|[k1 e1] rest IH]; intros k0 e0.
  - exists k0, e0. cbn [fold_left]. split; [reflexivity|]. split; [now left|].
    split; [lia|]. intros k' e' [].
  - cbn [fold_left]. unfold oldestStep at 2. cbn [fst snd].
    rewrite num_lt_of_Z. destruct (Z.ltb_spec (lastAccessed e1) (lastAccessed e0)).
    + destruct (IH k1 e1) as (k & e & Hf & Hin & Hle & Hall).
      exists k, e. split; [exact Hf|]. split; [now right|]. split; [lia|].
      intros k' e' [[= <- <-]|Hin']; [exact Hle|now apply (Hall k' e')].
    + destruct (IH k0 e0) as (k & e & Hf & Hin & Hle & Hall).
      exists k, e. split; [exact Hf|]. split.
      { destruct Hin as [Hin|Hin]; [now left|right; now right]. }
      split; [exact Hle|].
      intros k' e' [[= <- <-]|Hin']; [lia|now apply (Hall k' e')].
Qed.

Lemma findOldestKey_min (m : list (string * CacheEntry)) :
  m <> [] ->
  exists k e,
    findOldestKey m = Some k /\ In (k, e) m
    /\ forall k' e', In (k', e') m -> (lastAccessed e <= lastAccessed e')%Z.
Proof.
  destruct m as [|[k1 e1] rest]; [contradiction|]. intros _.
  unfold findOldestKey. cbn [fold_left]. unfold oldestStep at 2. cbn [fst snd].
  change (num_lt (num_of_Z (lastAccessed e1)) PosInf) with true. cbn iota.
  destruct (oldest_fold rest k1 e1) as (k & e & Hf & Hin & Hle & Hall).
  exists k, e. rewrite Hf. split; [reflexivity|]. split; [exact Hin|].
  intros k' e' [[= <- <-]|Hin']; [exact Hle|now apply (Hall k' e')].
Qed.

Lemma Map_get_In_NoDup {V : Type} (m : list (string * V)) (k : string) (v : V) :
  List.NoDup (map fst m) -> In (k, v) m -> Map_get m k = Some v.
Proof.
  induction m as [|[k0 v0] rest IH]; [intros _ []|].
  cbn [map fst]. intros Hnd. inversion Hnd as [|? ? Hnotin Hrest]; subst.
  intros [[= -> ->]|Hin]; cbn [Map_get].
  - now rewrite String.eqb_refl.
  - destruct (String.eqb_spec k0 k) as [->|Hne]; [|now apply IH].
    exfalso. apply Hnotin. now apply (List.in_map fst) in Hin.
Qed.

Lemma Map_set_length_le {V : Type} (m : list (string * V)) (k : string) (v : V) :
  length (Map_set m k v) <= S (length m).
Proof.
  induction m as [|[k0 v0] rest IH]; cbn [Map_set length]; [lia|].
  destruct (String.eqb k0 k); cbn [length]; lia.
Qed.

Lemma Map_delete_length_In {V : Type} (m : list (string * V)) (k : string) (v : V) :
  In (k, v) m -> S (length (Map_delete m k)) = length m.
Proof.
  induction m as [|[k0 v0] rest IH]; [intros []|].
  cbn [Map_delete length]. destruct (String.eqb_spec k0 k) as [->|Hne].
  - reflexivity.
  - intros [[= E _]|Hin]; [contradiction|]. cbn [length]. now rewrite IH.
Qed.

Lemma Map_set_keys_nonempty {V : Type} (m : list (string * V)) (k : string) (v : V) :
  str_truthy k = true ->
  forallb (fun kv => str_truthy (fst kv)) m = true ->
  forallb (fun kv => str_truthy (fst kv)) (Map_set m k v) = true.
Proof.
  intros Hk. induction m as [|[k0 v0] rest IH]; cbn [Map_set forallb fst].
  - now rewrite Hk.
  - intros Hm. apply andb_true_iff in Hm as [H0 Hrest].
    destruct (String.eqb k0 k); cbn [forallb fst]; rewrite H0; [exact Hrest|].
    now apply IH.
Qed.

Lemma Map_delete_keys_nonempty {V : Type} (m : list (string * V)) (k : string) :
  forallb (fun kv => str_truthy (fst kv)) m = true ->
  forallb (fun kv => str_truthy (fst kv)) (Map_delete m k) = true.
Proof.
  induction m as [|[k0 v0] rest IH]; cbn [Map_delete forallb fst]; [auto|].
  intros Hm. apply andb_true_iff in Hm as [H0 Hrest].
  destruct (String.eqb k0 k); [exact Hrest|].
  cbn [forallb fst]. rewrite H0. now apply IH.
Qed.

Lemma num_gt_of_nat_mono (n n' : nat) (mx : number) :
  n' <= n -> num_gt (num_of_nat n) mx = false -> num_gt (num_of_nat n') mx = false.
Proof.
  unfold num_gt, num_of_nat, num_of_Z. intros Hle.
  destruct mx as [ | | |q]; cbn [num_lt]; try reflexivity; try discriminate.
  unfold Qlt_bool. rewrite !negb_false_iff, !Qle_bool_iff. intros Hq.
  eapply Qle_trans; [|exact Hq]. rewrite <- Zle_Qle. lia.
Qed.

(** ** Symbol search cache: the size never exceeds the maximum *)

Lemma Map_delete_length_le {V : Type} (m : list (string * V)) (k : string) :
  length (Map_delete m k) <= length m.
Proof.
  induction m as [|[k0 v0] rest IH]; cbn [Map_delete length]; [lia|].
  destruct (String.eqb k0 k); cbn [length]; lia.
Qed.

Lemma bounded_cache_spec (c : SymbolSearchCache) :
  bounded_cache c = true <->
  forallb (fun kv => str_truthy (fst kv)) (cache c) = true
  /\ num_gt (num_of_nat (length (cache c))) (maxEntries c) = false.
Proof.
  unfold bounded_cache. now rewrite andb_true_iff, negb_true_iff.
Qed.

Lemma createSymbolSearchCache_bounded (options : SymbolSearchCacheOptions) :
  bounded_cache (createSymbolSearchCache options) = true.
Proof.
  apply bounded_cache_spec. split; [reflexivity|].
  unfold createSymbolSearchCache. cbn [cache maxEntries length].
  destruct (options_maxEntries options) as [[ | | |q]|]; try reflexivity.
  unfold num_gt at 2. cbn [num_lt].
  destruct (Qlt_bool 0 q) eqn:Hq; [|reflexivity].
  unfold num_gt, num_of_nat, num_of_Z. cbn [Math_floor num_lt].
  unfold Qlt_bool in *. apply negb_true_iff in Hq. apply negb_false_iff.
  apply Qle_bool_iff. change (inject_Z (Z.of_nat 0)) with (inject_Z 0).
  rewrite <- Zle_Qle. rewrite <- (Qfloor_Z 0). apply Qfloor_resp_le.
  destruct (Qlt_le_dec 0 q) as [Hlt|Hle]; [now apply Qlt_le_weak|].
  apply Qle_bool_iff in Hle. congruence.
Qed.

Lemma set_bounded (now : number) (keyword : string) (m : loc) (h : heap)
    (c : SymbolSearchCache) (h1 : heap) (c1 : SymbolSearchCache) :
  bounded_cache c = true ->
  SymbolSearchCache.set now keyword m h c = Some (h1, c1) ->
  bounded_cache c1 = true /\ maxEntries c1 = maxEntries c.
Proof.
  intros Hb. unfold SymbolSearchCache.set.
  destruct (num_seq (maxEntries c) (Fin 0)); [intros [= <- <-]; auto|].
  destruct (str_truthy (normalizeSymbolSearchKeyword keyword)) eqn:Hkey;
    cbn [negb]; [|intros [= <- <-]; auto].
  destruct (cloneMatches h m) as [[h' copy]|]; [|discriminate].
  intros [= <- <-]. split; [|reflexivity].
  apply bounded_cache_spec in Hb as [Hkeys Hcap].
  apply bounded_cache_spec. cbn [cache maxEntries with_cache].
  set (m1 := Map_set (cache c) _ _).
  assert (Hkeys1 : forallb (fun kv => str_truthy (fst kv)) m1 = true)
    by now apply Map_set_keys_nonempty.
  destruct (num_gt (num_of_nat (length m1)) (maxEntries c)) eqn:Hover; [|auto].
  assert (Hne : m1 <> []).
  { unfold m1. destruct (cache c) as [|[k0 v0] rest]; cbn [Map_set];
      [discriminate|]. destruct (String.eqb k0 _); discriminate. }
  destruct (findOldestKey_min m1 Hne) as (ko & eo & -> & Hin & _).
  assert (Hko : str_truthy ko = true).
  { rewrite forallb_forall in Hkeys1. exact (Hkeys1 (ko, eo) Hin). }
  rewrite Hko. split; [now apply Map_delete_keys_nonempty|].
  apply (num_gt_of_nat_mono (length (cache c))); [|exact Hcap].
  pose proof (Map_delete_length_In m1 ko eo Hin) as Hd.
  pose proof (Map_set_length_le (cache c) (normalizeSymbolSearchKeyword keyword)
                {| matches := copy; expiresAt := num_add now (ttlMs c);
                   lastAccessed := accessSequence c + 1 |}) as Hs.
  fold m1 in Hs. lia.
Qed.

Lemma get_bounded (now : number) (keyword : string) (h : heap)
    (c : SymbolSearchCache) (h1 : heap) (c1 : SymbolSearchCache)
    (r : option loc) :
  bounded_cache c = true ->
  get now keyword h c = Some (h1, c1, r) ->
  bounded_cache c1 = true /\ maxEntries c1 = maxEntries c.
Proof.
  intros Hb. unfold get.
  destruct (str_truthy (normalizeSymbolSearchKeyword keyword)) eqn:Hkey;
    cbn [negb]; [|intros [= <- <- <-]; auto].
  destruct (Map_get (cache c) _) as [e|] eqn:Hget; [|intros [= <- <- <-]; auto].
  apply bounded_cache_spec in Hb as [Hkeys Hcap].
  destruct (num_le (expiresAt e) now).
  - intros [= <- <- <-]. split; [|reflexivity].
    apply bounded_cache_spec. cbn [cache maxEntries with_cache].
    split; [now apply Map_delete_keys_nonempty|].
    apply (num_gt_of_nat_mono (length (cache c))); [|exact Hcap].
    apply Map_delete_length_le.
  - destruct (cloneMatches h (matches e)) as [[h' copy]|]; [|discriminate].
    intros [= <- <- <-]. split; [|reflexivity].
    apply bounded_cache_spec. cbn [cache maxEntries with_cache].
    split; [now apply Map_set_keys_nonempty|].
    now rewrite (Map_set_length _ _ _ e Hget).
Qed.

Lemma step_bounded (a : action) (h : heap) (c : SymbolSearchCache)
    (h1 : heap) (c1 : SymbolSearchCache) :
  bounded_cache c = true -> step a h c = Some (h1, c1) ->
  bounded_cache c1 = true /\ maxEntries c1 = maxEntries c.
Proof.
  intros Hb. destruct a as [now k m|now k| |now|l x|x]; cbn [step].
  - now apply set_bounded.
  - destruct (get now k h c) as [[[h' c'] r]|] eqn:Hg; [|discriminate].
    intros [= <- <-]. now apply (get_bounded now k h c h' c' r).
  - intros [= <- <-]. split; [|reflexivity].
    apply bounded_cache_spec in Hb as [_ Hcap].
    apply bounded_cache_spec. cbn [clear cache maxEntries with_cache].
    split; [reflexivity|].
    apply (num_gt_of_nat_mono (length (cache c))); [cbn; lia|exact Hcap].
  - intros [= <- <-]. split; [|reflexivity].
    apply bounded_cache_spec in Hb as [Hkeys Hcap].
    apply bounded_cache_spec. cbn [pruneExpired cache maxEntries with_cache].
    split.
    + rewrite forallb_forall in Hkeys. apply forallb_forall.
      intros kv Hin. apply List.filter_In in Hin as [Hin _]. now apply Hkeys.
    + apply (num_gt_of_nat_mono (length (cache c))); [|exact Hcap].
      apply List.filter_length_le.
  - intros [= <- <-]. auto.
  - intros [= <- <-]. auto.
Qed.

Lemma run_bounded (actions : list action) :
  forall (h : heap) (c : SymbolSearchCache) (h1 : heap) (c1 : SymbolSearchCache),
    bounded_cache c = true -> run actions h c = Some (h1, c1) ->
    bounded_cache c1 = true /\ maxEntries c1 = maxEntries c.
Proof.
  induction actions as [|a rest IH]; intros h c h1 c1 Hb; cbn [run].
  - intros [= <- <-]. auto.
  - destruct (step a h c) as [[h' c']|] eqn:Hs; [|discriminate].
    destruct (step_bounded a h c h' c' Hb Hs) as [Hb' Hm].
    intros Hr. destruct (IH h' c' h1 c1 Hb' Hr) as [Hb1 Hm1].
    split; [exact Hb1|congruence].
Qed.

Lemma createSymbolSearchCache_maxEntries (options : SymbolSearchCacheOptions) :
  num_seq (maxEntries (createSymbolSearchCache options)) (Fin 0) = true
  \/ num_gt (num_of_nat 1) (maxEntries (createSymbolSearchCache options)) = false.
Proof.
  unfold createSymbolSearchCache. cbn [maxEntries].
  destruct (options_maxEntries options) as [[ | | |q]|];
    try (right; reflexivity).
  change (num_gt (Fin q) (Fin 0)) with (Qlt_bool 0 q).
  destruct (Qlt_bool 0 q) eqn:Hq; [|right; reflexivity].
  cbn [Math_floor num_seq]. unfold num_gt, num_of_nat, num_of_Z. cbn [num_lt].
  destruct (Z.eq_dec (Qfloor q) 0%Z) as [E|E].
  - left. now rewrite E.
  - right. unfold Qlt_bool in *. apply negb_true_iff in Hq.
    apply negb_false_iff, Qle_bool_iff. rewrite <- Zle_Qle.
    assert (0 <= Qfloor q)%Z; [|cbn; lia].
    rewrite <- (Qfloor_Z 0). apply Qfloor_resp_le.
    destruct (Qlt_le_dec 0 q) as [Hlt|Hle]; [now apply Qlt_le_weak|].
    apply Qle_bool_iff in Hle. congruence.
Qed.

(** X9: whatever is done with a cache after it is created (calls of its
    functions in any order, with any arguments, and any writes of the
    caller to the heap), its size is never above its maximum, the maximum
    stays the one fixed at creation, which is 0 or not below 1, and no key
    is empty. *)
Theorem cache_size_never_exceeds_maxEntries
    (options : SymbolSearchCacheOptions) (actions : list action)
    (h h' : heap) (c' : SymbolSearchCache) :
  run actions h (createSymbolSearchCache options) = Some (h', c') ->
  maxEntries c' = maxEntries (createSymbolSearchCache options)
  /\ (num_seq (maxEntries c') (Fin 0) = true
      \/ num_gt (num_of_nat 1) (maxEntries c') = false)
  /\ num_gt (num_of_nat (size c')) (maxEntries c') = false
  /\ forall k e, In (k, e) (cache c') -> k <> "".
Proof.
  intros Hrun.
  destruct (run_bounded actions h _ h' c'
              (createSymbolSearchCache_bounded options) Hrun) as [Hb Hm].
  apply bounded_cache_spec in Hb as [Hkeys Hcap].
  split; [exact Hm|].
  split; [rewrite Hm; apply createSymbolSearchCache_maxEntries|].
  split; [exact Hcap|].
  intros k e Hin Hk. rewrite forallb_forall in Hkeys.
  specialize (Hkeys (k, e) Hin). cbn [fst] in Hkeys. now subst k.
Qed.

(** ** Symbol search cache: [set] *)

Lemma Map_set_length_new {V : Type} (m : list (string * V)) (k : string) (v : V) :
  Map_get m k = None -> length (Map_set m k v) = S (length m).
Proof.
  induction m as [|[k0 v0] rest IH]; cbn [Map_get Map_set length]; [reflexivity|].
  destruct (String.eqb k0 k); [discriminate|].
  intros Hg. cbn [length]. now rewrite IH.
Qed.

Lemma same_key_length {V : Type} (m : list (string * V)) (k : string) :
  List.NoDup (map fst m) -> (forall kv, In kv m -> fst kv = k) -> length m <= 1.
Proof.
  destruct m as [|a [|b rest]]; cbn [length]; [lia|lia|].
  intros Hnd Hall. exfalso. cbn [map] in Hnd.
  inversion Hnd as [|? ? Hnotin _]; subst. apply Hnotin. left.
  rewrite (Hall a), (Hall b); [reflexivity|right; now left|now left].
Qed.

(** The form of the state after a [set] that stores. *)
Lemma set_stores (now : number) (keyword : string) (m : loc)
    (ms : list SymbolSearchMatch) (h : heap) (c : SymbolSearchCache) :
  num_gt (num_of_nat 1) (maxEntries c) = false ->
  view h m = Some ms ->
  normalizeSymbolSearchKeyword keyword <> "" ->
  let m1 :=
    Map_set (cache c) (normalizeSymbolSearchKeyword keyword)
      {| matches := length h + length ms;
         expiresAt := num_add now (ttlMs c);
         lastAccessed := accessSequence c + 1 |} in
  SymbolSearchCache.set now keyword m h c
  = Some ((h ++ map CMatch ms ++ [CArray (seq (length h) (length ms))])%list,
          with_cache c (accessSequence c + 1)
            (if num_gt (num_of_nat (length m1)) (maxEntries c)
             then match findOldestKey m1 with
                  | Some oldestKey =>
                      if str_truthy oldestKey then Map_delete m1 oldestKey else m1
                  | None => m1
                  end
             else m1)).
Proof.
  intros Hmax Hms Hkey m1. unfold SymbolSearchCache.set.
  assert (Hz : num_seq (maxEntries c) (Fin 0) = false).
  { unfold num_gt, num_of_nat, num_of_Z in Hmax.
    destruct (maxEntries c) as [ | | |q]; try reflexivity.
    cbn [num_lt num_seq] in *. destruct (Qeq_bool q 0) eqn:E; [|reflexivity].
    apply Qeq_bool_eq in E. unfold Qlt_bool in Hmax.
    apply negb_false_iff, Qle_bool_iff in Hmax. rewrite E in Hmax.
    now apply Qle_bool_iff in Hmax. }
  rewrite Hz, (str_truthy_true _ Hkey). cbn [negb].
  now rewrite (cloneMatches_spec h m ms Hms).
Qed.

(** The entry that [set] has just written is not the one it evicts. *)
Lemma oldest_is_not_new (c : SymbolSearchCache) (key : string) (e : CacheEntry)
    (ko : string) (eo : CacheEntry) :
  List.NoDup (map fst (cache c)) ->
  (forall k0 e0, In (k0, e0) (cache c) -> (lastAccessed e0 <= accessSequence c)%Z) ->
  lastAccessed e = (accessSequence c + 1)%Z ->
  num_gt (num_of_nat 1) (maxEntries c) = false ->
  num_gt (num_of_nat (length (Map_set (cache c) key e))) (maxEntries c) = true ->
  In (ko, eo) (Map_set (cache c) key e) ->
  (forall k' e', In (k', e') (Map_set (cache c) key e) ->
     (lastAccessed eo <= lastAccessed e')%Z) ->
  ko <> key.
Proof.
  intros Hnd Hseq He Hmax Hover Hin Hmin ->.
  pose proof (Map_set_keys_NoDup (cache c) key e Hnd) as Hnd1.
  pose proof (Map_get_In_NoDup _ _ _ Hnd1 Hin) as Hg.
  rewrite Map_get_set_same in Hg. injection Hg as <-.
  assert (Hle : length (Map_set (cache c) key e) <= 1).
  { apply (same_key_length _ key Hnd1). intros [k1 e1] Hin1. cbn [fst].
    destruct (Map_set_In _ _ _ _ Hin1) as [[= -> _]|Hold]; [reflexivity|].
    specialize (Hmin k1 e1 Hin1). specialize (Hseq k1 e1 Hold). lia. }
  rewrite (num_gt_of_nat_mono 1 _ _ Hle Hmax) in Hover. discriminate.
Qed.

(** X10: a [set] under a non-empty normalized key on a cache whose maximum
    is not below 1 stores a copy of the given matches under that key, with
    the expiry [now + ttlMs] and the newest recency marker.  Writing any
    cell of the caller's array afterwards leaves the stored content as it
    was.  A [get] at any time before the expiry, under any keyword with the
    same normalized form, returns a new array (neither the stored one nor
    the caller's) with the content that was given to [set]. *)
Theorem set_then_get_returns_the_matches (now : number) (keyword : string)
    (m : loc) (ms : list SymbolSearchMatch) (h : heap) (c : SymbolSearchCache) :
  wf_cache h c = true ->
  num_gt (num_of_nat 1) (maxEntries c) = false ->
  view h m = Some ms ->
  let key := normalizeSymbolSearchKeyword keyword in
  key <> "" ->
  exists h' c' e',
    SymbolSearchCache.set now keyword m h c = Some (h', c')
    /\ accessSequence c' = (accessSequence c + 1)%Z
    /\ Map_get (cache c') key = Some e'
    /\ expiresAt e' = num_add now (ttlMs c)
    /\ lastAccessed e' = accessSequence c'
    /\ view h' (matches e') = Some ms
    /\ (forall l, l ∈ footprint h m -> l ∉ footprint h' (matches e'))
    /\ (forall l x, l ∈ footprint h m ->
          view (<[l := x]> h') (matches e') = Some ms)
    /\ (forall now' keyword',
          normalizeSymbolSearchKeyword keyword' = key ->
          num_le (num_add now (ttlMs c)) now' = false ->
          exists h'' c'' r,
            get now' keyword' h' c' = Some (h'', c'', Some r)
            /\ view h'' r = Some ms
            /\ r <> matches e' /\ r <> m).
Proof.
  intros Hwf Hmax Hms key Hkey.
  pose proof (set_stores now keyword m ms h c Hmax Hms Hkey) as Hset.
  cbv zeta in Hset. fold key in Hset.
  apply wf_cache_spec in Hwf as [Hnd Hall].
  set (h' := (h ++ map CMatch ms ++ [CArray (seq (length h) (length ms))])%list)
    in *.
  set (e := {| matches := length h + length ms;
               expiresAt := num_add now (ttlMs c);
               lastAccessed := accessSequence c + 1 |}) in *.
  set (m1 := Map_set (cache c) key e) in *.
  set (m' := if num_gt (num_of_nat (length m1)) (maxEntries c)
             then match findOldestKey m1 with
                  | Some oldestKey =>
                      if str_truthy oldestKey then Map_delete m1 oldestKey else m1
                  | None => m1
                  end
             else m1) in *.
  assert (Hget : Map_get m' key = Some e).
  { unfold m'. destruct (num_gt (num_of_nat (length m1)) (maxEntries c)) eqn:Hover;
      [|apply Map_get_set_same].
    assert (Hne : m1 <> []).
    { unfold m1. destruct (cache c) as [|[k0 v0] rest]; cbn [Map_set];
        [discriminate|]. destruct (String.eqb k0 key); discriminate. }
    destruct (findOldestKey_min m1 Hne) as (ko & eo & -> & Hin & Hmin).
    destruct (str_truthy ko); [|apply Map_get_set_same].
    rewrite Map_get_delete_other; [apply Map_get_set_same|].
    intros E. symmetry in E. revert E.
    apply (oldest_is_not_new c key e ko eo); auto.
    intros k0 e0 Hin0. now destruct (Hall k0 e0 Hin0). }
  assert (Hvh : is_Some (view h m)) by eauto.
  assert (Hfresh : forall l, l ∈ footprint h m -> l ∉ footprint h' (matches e)).
  { intros l Hl Hl'. apply (footprint_valid h m l Hvh) in Hl.
    apply footprint_clone in Hl'. lia. }
  exists h', (with_cache c (accessSequence c + 1) m'), e.
  split; [exact Hset|]. cbn [accessSequence cache with_cache].
  split; [reflexivity|]. split; [exact Hget|].
  split; [reflexivity|]. split; [reflexivity|].
  split; [apply view_clone|]. split; [exact Hfresh|]. split.
  - intros l x Hl. rewrite <- (view_clone h ms). apply view_agree.
    intros l0 Hl0. rewrite list_lookup_insert_ne; [reflexivity|].
    intros ->. now apply (Hfresh l0).
  - intros now' keyword' Hsame Hexp. unfold get. rewrite Hsame.
    rewrite (str_truthy_true key Hkey). cbn [negb cache with_cache].
    rewrite Hget. change (expiresAt e) with (num_add now (ttlMs c)).
    rewrite Hexp.
    rewrite (cloneMatches_spec h' (matches e) ms (view_clone h ms)).
    do 3 eexists. split; [reflexivity|]. split; [apply view_clone|].
    unfold e. cbn [matches]. unfold h'. rewrite !length_app, length_map.
    cbn [length].
    pose proof (footprint_valid h m m Hvh) as Hm.
    assert (m < length h) by (apply Hm; unfold footprint; apply elem_of_cons; now left).
    split; lia.
Qed.

(** What [set] does to the entries under the other keys. *)
Lemma set_other_entries (now : number) (keyword : string)
    (m : loc) (ms : list SymbolSearchMatch) (h : heap) (c : SymbolSearchCache) :
  wf_cache h c = true ->
  bounded_cache c = true ->
  num_gt (num_of_nat 1) (maxEntries c) = false ->
  view h m = Some ms ->
  let key := normalizeSymbolSearchKeyword keyword in
  key <> "" ->
  exists h' c',
    SymbolSearchCache.set now keyword m h c = Some (h', c')
    /\ (Map_get (cache c) key <> None
        \/ num_gt (num_of_nat (S (size c))) (maxEntries c) = false ->
        (forall k, k <> key -> Map_get (cache c') k = Map_get (cache c) k)
        /\ size c' = match Map_get (cache c) key with
                     | Some _ => size c
                     | None => S (size c)
                     end)
    /\ (Map_get (cache c) key = None ->
        num_gt (num_of_nat (S (size c))) (maxEntries c) = true ->
        exists ko eo,
          ko <> key
          /\ Map_get (cache c) ko = Some eo
          /\ (forall k e, Map_get (cache c) k = Some e ->
                (lastAccessed eo <= lastAccessed e)%Z)
          /\ Map_get (cache c') ko = None
          /\ (forall k, k <> key -> k <> ko ->
                Map_get (cache c') k = Map_get (cache c) k)
          /\ size c' = size c).
Proof.
  intros Hwf Hb Hmax Hms key Hkey.
  pose proof (set_stores now keyword m ms h c Hmax Hms Hkey) as Hset.
  cbv zeta in Hset. fold key in Hset.
  apply wf_cache_spec in Hwf as [Hnd Hall].
  apply bounded_cache_spec in Hb as [Hkeys Hcap].
  set (e := {| matches := length h + length ms;
               expiresAt := num_add now (ttlMs c);
               lastAccessed := accessSequence c + 1 |}) in *.
  set (m1 := Map_set (cache c) key e) in *.
  do 2 eexists. split; [exact Hset|].
  unfold size. cbn [cache with_cache]. split.
  - intros Hcase.
    assert (Hroom : num_gt (num_of_nat (length m1)) (maxEntries c) = false).
    { unfold m1. destruct (Map_get (cache c) key) as [e0|] eqn:Hg.
      - now rewrite (Map_set_length _ _ _ e0 Hg).
      - rewrite (Map_set_length_new _ _ _ Hg).
        destruct Hcase as [Hc|Hc]; [congruence|exact Hc]. }
    rewrite Hroom. split.
    + intros k Hk. now apply Map_get_set_other.
    + unfold m1. destruct (Map_get (cache c) key) as [e0|] eqn:Hg.
      * now apply (Map_set_length _ _ _ e0).
      * now apply Map_set_length_new.
  - intros Hnew Hfull.
    assert (Hlen : length m1 = S (length (cache c)))
      by now apply Map_set_length_new.
    rewrite Hlen, Hfull.
    assert (Hne : m1 <> []) by (intros E; now rewrite E in Hlen).
    destruct (findOldestKey_min m1 Hne) as (ko & eo & -> & Hin & Hmin).
    pose proof (Map_set_keys_NoDup (cache c) key e Hnd) as Hnd1. fold m1 in Hnd1.
    assert (Hko : ko <> key).
    { apply (oldest_is_not_new c key e ko eo); auto.
      - intros k0 e0 Hin0. now destruct (Hall k0 e0 Hin0).
      - fold m1. now rewrite Hlen. }
    assert (Hold : Map_get (cache c) ko = Some eo).
    { rewrite <- (Map_get_set_other (cache c) key ko e Hko).
      now apply Map_get_In_NoDup. }
    assert (Htruthy : str_truthy ko = true).
    { rewrite forallb_forall in Hkeys.
      exact (Hkeys (ko, eo) (Map_get_In _ _ _ Hold)). }
    rewrite Htruthy. exists ko, eo.
    split; [exact Hko|]. split; [exact Hold|]. split.
    { intros k e0 Hg. apply (Hmin k e0). apply Map_get_In.
      unfold m1. rewrite Map_get_set_other; [exact Hg|]. congruence. }
    split; [now apply Map_get_delete_same|]. split.
    { intros k Hk Hk'. rewrite Map_get_delete_other by exact Hk'.
      now apply Map_get_set_other. }
    pose proof (Map_delete_length_In m1 ko eo Hin) as Hd. lia.
Qed.

(** X11: what [set] does to the other entries.  On a cache in a state that
    its functions maintain, with a maximum not below 1: when the key is
    already stored, or the cache has room for one more entry, every other
    key keeps its entry, and the size grows by one exactly when the key is
    new.  When the key is new and the cache is full, exactly one other
    entry is removed, one whose recency marker is the smallest of all
    stored entries; every remaining key keeps its entry and the size stays
    as it was. *)
Theorem set_evicts_least_recently_used (now : number) (keyword : string)
    (m : loc) (ms : list SymbolSearchMatch) (h : heap) (c : SymbolSearchCache) :
  wf_cache h c = true ->
  bounded_cache c = true ->
  num_gt (num_of_nat 1) (maxEntries c) = false ->
  view h m = Some ms ->
  let key := normalizeSymbolSearchKeyword keyword in
  key <> "" ->
  exists h' c',
    SymbolSearchCache.set now keyword m h c = Some (h', c')
    /\ (Map_get (cache c) key <> None
        \/ num_gt (num_of_nat (S (size c))) (maxEntries c) = false ->
        (forall k, k <> key -> Map_get (cache c') k = Map_get (cache c) k)
        /\ size c' = match Map_get (cache c) key with
                     | Some _ => size c
                     | None => S (size c)
                     end)
    /\ (Map_get (cache c) key = None ->
        num_gt (num_of_nat (S (size c))) (maxEntries c) = true ->
        exists ko eo,
          ko <> key
          /\ Map_get (cache c) ko = Some eo
          /\ (forall k e, Map_get (cache c) k = Some e ->
                (lastAccessed eo <= lastAccessed e)%Z)
          /\ Map_get (cache c') ko = None
          /\ (forall k, k <> key -> k <> ko ->
                Map_get (cache c') k = Map_get (cache c) k)
          /\ size c' = size c).
Proof. exact (set_other_entries now keyword m ms h c). Qed.

Lemma two_entries_other_key {V : Type} (m : list (string * V)) (key : string) :
  List.NoDup (map fst m) -> 2 <= length m ->
  exists k v, k <> key /\ In (k, v) m.
Proof.
  destruct m as [|[k1 v1] [|[k2 v2] rest]]; cbn [length]; [lia|lia|].
  intros Hnd _. cbn [map fst] in Hnd. inversion Hnd as [|? ? Hnotin _]; subst.
  destruct (String.eqb_spec k1 key) as [->|Hne].
  - exists k2, v2. split; [|right; now left].
    intros ->. apply Hnotin. now left.
  - exists k1, v1. split; [exact Hne|now left].
Qed.

(** X21: an entry that [get] has just returned is not the one that the
    next [set] evicts.  On a cache that holds at least two entries, in a
    state that its functions maintain and with a maximum not below 1,
    after a [get] that hits, a [set] under any other key leaves the entry
    that was read in place, with the matches, the expiry and the recency
    marker that the [get] left. *)
Theorem get_protects_from_next_eviction (now now' : number)
    (keyword keyword' : string) (m : loc) (ms : list SymbolSearchMatch)
    (h h1 : heap) (c c1 : SymbolSearchCache) (r : loc) :
  wf_cache h c = true ->
  bounded_cache c = true ->
  num_gt (num_of_nat 1) (maxEntries c) = false ->
  2 <= size c ->
  get now keyword h c = Some (h1, c1, Some r) ->
  view h1 m = Some ms ->
  normalizeSymbolSearchKeyword keyword' <> "" ->
  normalizeSymbolSearchKeyword keyword' <> normalizeSymbolSearchKeyword keyword ->
  exists h2 c2 e,
    SymbolSearchCache.set now' keyword' m h1 c1 = Some (h2, c2)
    /\ Map_get (cache c1) (normalizeSymbolSearchKeyword keyword) = Some e
    /\ lastAccessed e = accessSequence c1
    /\ Map_get (cache c2) (normalizeSymbolSearchKeyword keyword) = Some e.
Proof.
  intros Hwf Hb Hmax Hsize Hget Hms Hkey' Hdiff.
  set (key := normalizeSymbolSearchKeyword keyword) in *.
  set (key' := normalizeSymbolSearchKeyword keyword') in *.
  (* the state after the [get] *)
  destruct (get_wf now keyword h c Hwf) as (h1' & c1' & r' & Hget' & Hwf1).
  rewrite Hget in Hget'. injection Hget' as <- <- <-.
  destruct (get_bounded now keyword h c h1 c1 (Some r) Hb Hget) as [Hb1 Hmax1].
  pose proof Hwf as Hwf0. apply wf_cache_spec in Hwf0 as [Hnd Hall].
  unfold get in Hget. fold key in Hget.
  destruct (str_truthy key); cbn [negb] in Hget; [|discriminate].
  destruct (Map_get (cache c) key) as [e0|] eqn:Hg0; [|discriminate].
  destruct (num_le (expiresAt e0) now); [discriminate|].
  destruct (cloneMatches h (SymbolSearchCache.matches e0)) as [[h' copy]|];
    [|discriminate].
  injection Hget as <- <- <-.
  set (e := {| SymbolSearchCache.matches := SymbolSearchCache.matches e0;
               expiresAt := expiresAt e0;
               lastAccessed := accessSequence c + 1 |}) in *.
  set (c1 := with_cache c (accessSequence c + 1) (Map_set (cache c) key e)) in *.
  assert (Hg1 : Map_get (cache c1) key = Some e) by apply Map_get_set_same.
  assert (Hsize1 : size c1 = size c).
  { unfold size, c1. cbn [cache with_cache]. now apply (Map_set_length _ _ _ e0). }
  rewrite <- Hmax1 in Hmax.
  destruct (set_other_entries now' keyword' m ms h' c1 Hwf1 Hb1 Hmax Hms Hkey')
    as (h2 & c2 & Hset & Hroom & Hfull).
  fold key' in Hroom, Hfull.
  exists h2, c2, e. split; [exact Hset|]. split; [exact Hg1|].
  split; [reflexivity|].
  destruct (Map_get (cache c1) key') as [e'|] eqn:Hg';
    [|destruct (num_gt (num_of_nat (S (size c1))) (maxEntries c1)) eqn:Hover].
  - destruct Hroom as [Hsame _]; [left; discriminate|].
    rewrite Hsame; [exact Hg1|congruence].
  - destruct (Hfull eq_refl eq_refl) as (ko & eo & Hko & Hold & Hmin & _ & Hsame & _).
    rewrite Hsame; [exact Hg1|congruence|].
    (* the evicted entry is older than the one that was read *)
    intros ->.
    destruct (two_entries_other_key (cache c) ko Hnd Hsize) as (k2 & v2 & Hk2 & Hin2).
    destruct (Hall k2 v2 Hin2) as [_ Hle2].
    assert (Hg2 : Map_get (cache c1) k2 = Some v2).
    { unfold c1. cbn [cache with_cache].
      rewrite Map_get_set_other by exact Hk2. now apply Map_get_In_NoDup. }
    specialize (Hmin k2 v2 Hg2).
    rewrite Hg1 in Hold. injection Hold as <-. cbn [lastAccessed e] in Hmin.
    unfold e in Hmin. cbn [lastAccessed] in Hmin. lia.
  - destruct Hroom as [Hsame _]; [now right|].
    rewrite Hsame; [exact Hg1|congruence].
Qed.

(** ** Symbol search cache: [pruneExpired] *)

Lemma Map_get_None_notin {V : Type} (m : list (string * V)) (k : string) :
  ~ In k (map fst m) -> Map_get m k = None.
Proof.
  induction m as [|[k0 v0] rest IH]; cbn [map fst Map_get]; [reflexivity|].
  intros Hn. destruct (String.eqb_spec k0 k) as [->|Hne].
  - exfalso. apply Hn. now left.
  - apply IH. intros Hin. apply Hn. now right.
Qed.

Lemma Map_get_filter {V : Type} (f : string * V -> bool)
    (m : list (string * V)) (k : string) :
  List.NoDup (map fst m) ->
  Map_get (List.filter f m) k
  = match Map_get m k with
    | Some v => if f (k, v) then Some v else None
    | None => None
    end.
Proof.
  induction m as [|[k0 v0] rest IH]; [reflexivity|].
  cbn [map fst]. intros Hnd. inversion Hnd as [|? ? Hnotin Hrest]; subst.
  cbn [List.filter Map_get].
  destruct (String.eqb_spec k0 k) as [->|Hne].
  - destruct (f (k, v0)); cbn [Map_get].
    + now rewrite String.eqb_refl.
    + apply Map_get_None_notin. intros Hin. apply Hnotin.
      apply List.in_map_iff in Hin as (kv & E & Hkv).
      apply List.filter_In in Hkv as [Hkv _].
      rewrite <- E. now apply List.in_map.
  - destruct (f (k0, v0)); cbn [Map_get].
    + destruct (String.eqb_spec k0 k); [contradiction|]. now apply IH.
    + now apply IH.
Qed.

Lemma filter_Map_delete {V : Type} (f : string * V -> bool)
    (m : list (string * V)) (k : string) (v : V) :
  Map_get m k = Some v -> f (k, v) = false ->
  List.filter f (Map_delete m k) = List.filter f m.
Proof.
  intros Hg Hf. induction m as [|[k0 v0] rest IH]; [discriminate|].
  cbn [Map_get Map_delete] in *.
  destruct (String.eqb_spec k0 k) as [->|Hne].
  - injection Hg as ->. cbn [List.filter]. now rewrite Hf.
  - cbn [List.filter]. rewrite (IH Hg). reflexivity.
Qed.

Lemma filter_Map_set {V : Type} (f : string * V -> bool)
    (m : list (string * V)) (k : string) (v v' : V) :
  Map_get m k = Some v -> f (k, v) = true -> f (k, v') = true ->
  List.filter f (Map_set m k v') = Map_set (List.filter f m) k v'.
Proof.
  intros Hg Hf Hf'. induction m as [|[k0 v0] rest IH]; [discriminate|].
  cbn [Map_get Map_set] in *.
  destruct (String.eqb_spec k0 k) as [->|Hne].
  - injection Hg as ->. cbn [List.filter]. rewrite Hf, Hf'. cbn [Map_set].
    now rewrite String.eqb_refl.
  - cbn [List.filter]. destruct (f (k0, v0)); cbn [Map_set].
    + destruct (String.eqb_spec k0 k); [contradiction|]. now rewrite (IH Hg).
    + exact (IH Hg).
Qed.

Lemma filter_idempotent {A : Type} (f : A -> bool) (l : list A) :
  List.filter f (List.filter f l) = List.filter f l.
Proof.
  induction l as [|a l IH]; [reflexivity|]. cbn [List.filter].
  destruct (f a) eqn:E; [|exact IH]. cbn [List.filter]. now rewrite E, IH.
Qed.

(** X12: [pruneExpired(now)] removes exactly the entries whose expiry is at
    or before [now] and leaves every other entry as it is; pruning twice at
    the same time is pruning once, and the size does not grow.  Pruning
    before a [get] at the same time changes nothing of what [get] answers:
    the result and the heap are the same, and the state after is the pruned
    state after the [get] alone. *)
Theorem pruneExpired_removes_expired_only (now : number) (h : heap)
    (c : SymbolSearchCache) :
  wf_cache h c = true ->
  (forall k,
     Map_get (cache (pruneExpired now c)) k
     = match Map_get (cache c) k with
       | Some e => if num_le (expiresAt e) now then None else Some e
       | None => None
       end)
  /\ pruneExpired now (pruneExpired now c) = pruneExpired now c
  /\ size (pruneExpired now c) <= size c
  /\ (forall keyword h1 c1 r,
        get now keyword h c = Some (h1, c1, r) ->
        get now keyword h (pruneExpired now c)
        = Some (h1, pruneExpired now c1, r)).
Proof.
  intros Hwf. apply wf_cache_spec in Hwf as [Hnd Hall].
  set (f := fun kv : string * CacheEntry => negb (num_le (expiresAt (snd kv)) now)).
  split; [|split; [|split]].
  - intros k. unfold pruneExpired. cbn [cache with_cache]. fold f.
    rewrite (Map_get_filter f _ k Hnd).
    destruct (Map_get (cache c) k) as [e|]; [|reflexivity].
    unfold f. cbn [snd]. now destruct (num_le (expiresAt e) now).
  - unfold pruneExpired. cbn [cache accessSequence with_cache]. fold f.
    unfold with_cache. cbn [ttlMs maxEntries]. now rewrite filter_idempotent.
  - unfold size, pruneExpired. cbn [cache with_cache]. apply List.filter_length_le.
  - intros keyword h1 c1 r. unfold get.
    set (key := normalizeSymbolSearchKeyword keyword).
    destruct (str_truthy key); cbn [negb]; [|now intros [= <- <- <-]].
    unfold pruneExpired at 1 2 3 4. cbn [cache accessSequence with_cache]. fold f.
    rewrite (Map_get_filter f _ key Hnd).
    destruct (Map_get (cache c) key) as [e|] eqn:Hg; [|now intros [= <- <- <-]].
    unfold f at 1. cbn [snd].
    destruct (num_le (expiresAt e) now) eqn:Hexp; cbn [negb].
    + intros [= <- <- <-]. unfold pruneExpired. cbn [cache accessSequence with_cache].
      fold f. rewrite (filter_Map_delete f _ key e Hg); [reflexivity|].
      unfold f. cbn [snd]. now rewrite Hexp.
    + rewrite Hexp.
      destruct (cloneMatches h (matches e)) as [[h' copy]|]; [|discriminate].
      intros [= <- <- <-]. unfold pruneExpired.
      cbn [cache accessSequence with_cache]. fold f.
      rewrite (filter_Map_set f _ key e _ Hg); [reflexivity| |];
        unfold f; cbn [snd expiresAt]; now rewrite Hexp.
Qed.

(** ** The normalized keyword *)

(** X13: the normalized form of a keyword is a fixed point of the
    normalization, and it does not depend on the ASCII case of the keyword
    nor on white space around it. *)
Theorem normalizeSymbolSearchKeyword_canonical (keyword : string) :
  normalizeSymbolSearchKeyword (normalizeSymbolSearchKeyword keyword)
  = normalizeSymbolSearchKeyword keyword
  /\ normalizeSymbolSearchKeyword (toLowerCase keyword)
     = normalizeSymbolSearchKeyword keyword
  /\ trim (normalizeSymbolSearchKeyword keyword)
     = normalizeSymbolSearchKeyword keyword
  /\ toLowerCase (normalizeSymbolSearchKeyword keyword)
     = normalizeSymbolSearchKeyword keyword
  /\ (forall p1 p2, all_whitespace p1 = true -> all_whitespace p2 = true ->
        normalizeSymbolSearchKeyword (p1 ++ keyword ++ p2)
        = normalizeSymbolSearchKeyword keyword)
  /\ (normalizeSymbolSearchKeyword keyword = "" <-> all_whitespace keyword = true).
Proof.
  unfold normalizeSymbolSearchKeyword. repeat split.
  - now rewrite trim_toLowerCase, trim_idempotent, toLowerCase_idempotent.
  - now rewrite trim_toLowerCase, toLowerCase_idempotent.
  - now rewrite trim_toLowerCase, trim_idempotent.
  - apply toLowerCase_idempotent.
  - intros p1 p2 H1 H2. now rewrite trim_padding.
  - intros E. destruct (trim keyword) as [|c r] eqn:Et; [|discriminate].
    clear E. unfold trim in Et.
    assert (Hs : trimStart keyword = "").
    { pose proof (trimStart_starts_clean keyword) as Hc.
      destruct (trimStart keyword) as [|c r]; [reflexivity|].
      cbn [starts_clean] in Hc. cbn [trimEnd] in Et. rewrite Hc in Et.
      discriminate. }
    clear Et. induction keyword as [|c r IH]; [reflexivity|].
    cbn [trimStart all_whitespace] in *.
    destruct (is_whitespace c); [now apply IH|discriminate].
  - intros Hw. unfold trim.
    assert (Hs : trimStart keyword = "").
    { induction keyword as [|c r IH]; [reflexivity|].
      cbn [trimStart all_whitespace] in *.
      apply andb_true_iff in Hw as [-> Hw]. now apply IH. }
    now rewrite Hs.
Qed.

(** ** Response parser: what it lets through *)

Lemma toCleanString_clean (v : jsval) (t : string) :
  toCleanString v = Some t -> t <> "" /\ trim t = t.
Proof.
  intros Ht. apply toCleanString_Some in Ht as (s & _ & -> & Hne).
  split; [exact Hne|apply trim_idempotent].
Qed.

Lemma when_truthy_toCleanString (v : jsval) :
  when_truthy (toCleanString v) = toCleanString v.
Proof.
  unfold when_truthy. destruct (toCleanString v) as [t|] eqn:E; [|reflexivity].
  now rewrite <- E, (toCleanString_not_missing v t E).
Qed.

Lemma missing_toCleanString (v : jsval) :
  missing (toCleanString v) = true <-> toCleanString v = None.
Proof.
  destruct (toCleanString v) as [t|] eqn:E.
  - rewrite <- E, (toCleanString_not_missing v t E), E. split; discriminate.
  - split; reflexivity.
Qed.

Section ParserMore.
Context {rt : Builtins}.

Lemma toNumber_finite (v : jsval) (x : number) :
  toNumber v = Some x -> isFinite x = true.
Proof.
  unfold toNumber. destruct v as [ | | |n|s| | ]; try discriminate.
  - destruct (isFinite n) eqn:E; [|discriminate]. now intros [= <-].
  - destruct (isFinite (parseFloat s)) eqn:E; [|discriminate]. now intros [= <-].
Qed.

Lemma parseSymbolSearchMatch_Some (value : jsval) (m : SymbolSearchMatch) :
  parseSymbolSearchMatch value = Some m ->
  exists s n,
    toCleanString (get_field value "1. symbol") = Some s
    /\ toCleanString (get_field value "2. name") = Some n
    /\ m = {| symbol := s; name := n;
              region := toCleanString (get_field value "4. region");
              currency := toCleanString (get_field value "8. currency");
              matchScore := toNumber (get_field value "9. matchScore");
              type := toCleanString (get_field value "3. type") |}.
Proof.
  unfold parseSymbolSearchMatch.
  destruct (isRecord value); cbn [negb]; [|discriminate].
  destruct (toCleanString (get_field value "1. symbol")) as [s|] eqn:Es;
    [|discriminate].
  destruct (toCleanString (get_field value "2. name")) as [n|] eqn:En;
    [|rewrite orb_true_r; discriminate].
  destruct (missing (Some s) || missing (Some n)); [discriminate|].
  rewrite !when_truthy_toCleanString. intros [= <-]. now exists s, n.
Qed.

(** X14: [parseSymbolSearchMatch] returns [null] exactly when the value is
    not an object or its symbol or its name is not a string with a
    character that is not white space.  A match that it returns carries
    the trimmed symbol and name of the value, both non-empty; its optional
    texts are the trimmed texts of the value, each absent or non-empty; its
    score is absent or a finite number. *)
Theorem parseSymbolSearchMatch_wellformed (value : jsval) :
  (parseSymbolSearchMatch value = None <->
     isRecord value = false
     \/ toCleanString (get_field value "1. symbol") = None
     \/ toCleanString (get_field value "2. name") = None)
  /\ (forall m, parseSymbolSearchMatch value = Some m ->
        (exists s n,
           get_field value "1. symbol" = VStr s
           /\ get_field value "2. name" = VStr n
           /\ symbol m = trim s /\ name m = trim n)
        /\ symbol m <> "" /\ name m <> ""
        /\ trim (symbol m) = symbol m /\ trim (name m) = name m
        /\ type m = toCleanString (get_field value "3. type")
        /\ region m = toCleanString (get_field value "4. region")
        /\ currency m = toCleanString (get_field value "8. currency")
        /\ matchScore m = toNumber (get_field value "9. matchScore")
        /\ (forall t, type m = Some t \/ region m = Some t \/ currency m = Some t ->
              t <> "" /\ trim t = t)
        /\ (forall x, matchScore m = Some x -> isFinite x = true)).
Proof.
  split.
  - unfold parseSymbolSearchMatch.
    destruct (isRecord value); cbn [negb]; [|split; auto].
    destruct (missing (toCleanString (get_field value "1. symbol"))) eqn:Es;
      cbn [orb].
    + apply missing_toCleanString in Es. split; auto.
    + destruct (missing (toCleanString (get_field value "2. name"))) eqn:En.
      * apply missing_toCleanString in En. split; auto.
      * split; [discriminate|].
        intros [H|[H|H]]; [discriminate| |];
          apply missing_toCleanString in H; congruence.
  - intros m Hm.
    apply parseSymbolSearchMatch_Some in Hm as (s & n & Hs & Hn & ->).
    cbn [symbol name type region currency matchScore].
    destruct (toCleanString_clean _ _ Hs) as [Hs1 Hs2].
    destruct (toCleanString_clean _ _ Hn) as [Hn1 Hn2].
    apply toCleanString_Some in Hs as (s0 & Hs0 & -> & _).
    apply toCleanString_Some in Hn as (n0 & Hn0 & -> & _).
    split; [now exists s0, n0|].
    repeat (split; [assumption || reflexivity|]).
    split.
    + intros t [H|[H|H]]; now apply toCleanString_clean in H.
    + intros x. apply toNumber_finite.
Qed.

Lemma omap_parse_length (raw : list jsval) :
  length (omap parseSymbolSearchMatch raw) <= length raw.
Proof.
  induction raw as [|x raw IH]; [reflexivity|]. cbn [omap list_omap length].
  destruct (parseSymbolSearchMatch x); cbn [length]; lia.
Qed.

Lemma omap_parse_named (raw : list jsval) (m : SymbolSearchMatch) :
  In m (omap parseSymbolSearchMatch raw) -> symbol m <> "" /\ name m <> "".
Proof.
  induction raw as [|x raw IH]; [intros []|]. cbn [omap list_omap].
  destruct (parseSymbolSearchMatch x) as [m0|] eqn:E; [|exact IH].
  intros [<-|Hin]; [|now apply IH].
  apply parseSymbolSearchMatch_Some in E as (s & n & Hs & Hn & ->).
  cbn [symbol name]. split.
  - now apply (toCleanString_clean _ _ Hs).
  - now apply (toCleanString_clean _ _ Hn).
Qed.

(** The two shapes of a result: an error with its message, or the list of
    the accepted elements of [bestMatches]. *)
Lemma parseSymbolSearchResponse_shape (value : jsval) :
  let r := parseSymbolSearchResponse value in
  (isCacheable r = false /\ AlphaVantage.matches r = []
   /\ exists t, message r = Some t /\ t <> "" /\ trim t = t)
  \/ (isCacheable r = true /\ isRateLimited r = false /\ message r = None
      /\ exists raw, get_field value "bestMatches" = VArr raw
           /\ AlphaVantage.matches r = omap parseSymbolSearchMatch raw).
Proof.
  intros r. unfold r, parseSymbolSearchResponse.
  assert (Hunexpected :
    isCacheable unexpectedResponse = false
    /\ AlphaVantage.matches unexpectedResponse = []
    /\ exists t, message unexpectedResponse = Some t /\ t <> "" /\ trim t = t).
  { split; [reflexivity|]. split; [reflexivity|]. eexists.
    split; [reflexivity|]. split; [discriminate|reflexivity]. }
  destruct (isRecord value); cbn [negb]; [|now left].
  destruct (toCleanString (get_field value "Note")) as [note|] eqn:En.
  { rewrite <- En, (toCleanString_not_missing _ _ En), En. cbn [negb]. left.
    split; [reflexivity|]. split; [reflexivity|]. exists note.
    split; [reflexivity|]. now apply (toCleanString_clean _ _ En). }
  cbn [missing negb].
  destruct (toCleanString (get_field value "Information")) as [info|] eqn:Ei.
  { rewrite <- Ei, (toCleanString_not_missing _ _ Ei), Ei. cbn [negb]. left.
    split; [reflexivity|]. split; [reflexivity|]. exists info.
    split; [reflexivity|]. now apply (toCleanString_clean _ _ Ei). }
  cbn [missing negb].
  destruct (toCleanString (get_field value "Error Message")) as [err|] eqn:Ee.
  { rewrite <- Ee, (toCleanString_not_missing _ _ Ee), Ee. cbn [negb]. left.
    split; [reflexivity|]. split; [reflexivity|]. exists err.
    split; [reflexivity|]. now apply (toCleanString_clean _ _ Ee). }
  cbn [missing negb].
  destruct (get_field value "bestMatches") as [ | | | | |raw| ];
    try (now left).
  right. split; [reflexivity|]. split; [reflexivity|]. split; [reflexivity|].
  now exists raw.
Qed.

(** X15: what holds of every result of [parseSymbolSearchResponse].  It is
    cacheable exactly when it carries no message; a rate-limited result is
    never cacheable; a result that is not cacheable carries no matches; a
    message is never empty and has no white space around it; the matches
    are at most as many as the elements of [bestMatches], and each has a
    non-empty symbol and name.  When the value has no usable [Note],
    [Information] or [Error Message] and its [bestMatches] is not an array
    (so for every value that is not an object), the result is the
    unexpected-response one. *)
Theorem parseSymbolSearchResponse_invariants (value : jsval) :
  let r := parseSymbolSearchResponse value in
  (isCacheable r = true <-> message r = None)
  /\ (isRateLimited r = true -> isCacheable r = false)
  /\ (isCacheable r = false -> AlphaVantage.matches r = [])
  /\ (forall t, message r = Some t -> t <> "" /\ trim t = t)
  /\ (forall raw, get_field value "bestMatches" = VArr raw ->
        length (AlphaVantage.matches r) <= length raw)
  /\ (forall m, In m (AlphaVantage.matches r) -> symbol m <> "" /\ name m <> "")
  /\ (toCleanString (get_field value "Note") = None ->
      toCleanString (get_field value "Information") = None ->
      toCleanString (get_field value "Error Message") = None ->
      (forall raw, get_field value "bestMatches" <> VArr raw) ->
      r = unexpectedResponse)
  /\ (isRecord value = false -> r = unexpectedResponse).
Proof.
  intros r. pose proof (parseSymbolSearchResponse_shape value) as Hshape.
  cbv zeta in Hshape. fold r in Hshape.
  split; [|split; [|split; [|split; [|split; [|split; [|split]]]]]].
  - destruct Hshape as [(Hc & _ & t & Ht & _)|(Hc & _ & Hm & _)];
      rewrite Hc; [rewrite Ht|rewrite Hm]; split; congruence.
  - destruct Hshape as [(Hc & _)|(_ & Hr & _)]; [auto|congruence].
  - destruct Hshape as [(_ & Hm & _)|(Hc & _)]; [auto|congruence].
  - destruct Hshape as [(_ & _ & t & Ht & Hclean)|(_ & _ & Hm & _)];
      intros t'; [rewrite Ht; now intros [= <-]|rewrite Hm; discriminate].
  - intros raw Hraw.
    destruct Hshape as [(_ & Hm & _)|(_ & _ & _ & raw' & Hraw' & Hm)];
      rewrite Hm; [cbn [length]; lia|].
    rewrite Hraw in Hraw'. injection Hraw' as <-. apply omap_parse_length.
  - intros m.
    destruct Hshape as [(_ & Hm & _)|(_ & _ & _ & raw' & _ & Hm)];
      rewrite Hm; [intros []|apply omap_parse_named].
  - intros Hn Hi He Hb. unfold r, parseSymbolSearchResponse.
    rewrite Hn, Hi, He. cbn [missing negb].
    destruct (isRecord value); cbn [negb]; [|reflexivity].
    destruct (get_field value "bestMatches") as [ | | | | |raw| ] eqn:Eb;
      try reflexivity.
    now destruct (Hb raw).
  - intros Hrec. unfold r, parseSymbolSearchResponse. now rewrite Hrec.
Qed.

End ParserMore.

(** ** Normalizing a stored collection *)

Import Normalize.

Lemma filter_length_all {A : Type} (f : A -> bool) (l : list A) :
  length (List.filter f l) = length l <-> forallb f l = true.
Proof.
  induction l as [|a l IH]; cbn [List.filter forallb length]; [tauto|].
  destruct (f a); cbn [length andb].
  - rewrite <- IH. split; intros H; lia.
  - split; [|discriminate]. intros H.
    pose proof (List.filter_length_le f l). lia.
Qed.

Lemma filter_all {A : Type} (f : A -> bool) (l : list A) :
  forallb f l = true -> List.filter f l = l.
Proof.
  induction l as [|a l IH]; cbn [List.filter forallb]; [reflexivity|].
  intros H. apply andb_true_iff in H as [-> H]. now rewrite IH.
Qed.

Lemma existsb_by_index {A : Type} (g : A -> bool) (d : A) (l : list A) :
  forall pre : list A,
    existsb (fun i => g (default d ((pre ++ l)%list !! i)))
            (seq (length pre) (length l))
    = existsb g l.
Proof.
  induction l as [|a l IH]; intros pre; [reflexivity|].
  cbn [length seq existsb].
  rewrite list_lookup_middle by reflexivity. cbn [default]. f_equal.
  specialize (IH (pre ++ [a])%list).
  rewrite <- app_assoc, length_app, Nat.add_1_r in IH. exact IH.
Qed.

Lemma predictionChanged_all (username : string) (originals : list jsval) :
  existsb (predictionChanged username originals) (seq 0 (length originals))
  = existsb (fun p => negb (truthy p)
                      || negb (is_str (get_field p "user") username)) originals.
Proof.
  exact (existsb_by_index
           (fun p => negb (truthy p) || negb (is_str (get_field p "user") username))
           VUndefined originals []).
Qed.

Lemma isPrediction_truthy (p : jsval) : isPrediction p = true -> truthy p = true.
Proof. intros Hp. now destruct (isPrediction_object p Hp) as [o ->]. Qed.

Section NormalizeFacts.
Context {rt : Builtins}.

(** When the outer callback leaves [hasChanges] alone. *)
Lemma entryChanged_false (now_iso username : string) (entry : jsval) :
  entryChanged username entry (sanitizeUserEntry now_iso username entry) = false
  <-> (exists s, get_field entry "updatedAt" = VStr s /\ s <> "")
      /\ Forall (fun p => isPrediction p = true
                          /\ get_field p "user" = VStr username)
                (originalPredictions entry).
Proof.
  unfold entryChanged, sanitizeUserEntry. cbn [updatedAt predictions].
  fold (originalPredictions entry). set (ps := originalPredictions entry).
  rewrite length_map.
  split.
  - intros H.
    destruct (get_field entry "updatedAt") as [ | |b|n|s|l|o] eqn:Eu;
      try (cbn [typeof_string andb is_str negb] in H;
           rewrite orb_true_r in H; cbn [orb] in H; discriminate).
    cbn [truthy typeof_string andb] in H.
    destruct (str_truthy s) eqn:Es; cbn [negb orb] in H; [|discriminate].
    cbn [is_str] in H. rewrite String.eqb_refl in H. cbn [negb orb] in H.
    destruct (Nat.eqb_spec (length (List.filter isPrediction ps)) (length ps))
      as [Hlen|]; cbn [negb] in H; [|discriminate].
    split.
    { exists s. split; [reflexivity|]. intros ->. discriminate. }
    rewrite Hlen, predictionChanged_all in H.
    apply filter_length_all in Hlen. rewrite forallb_forall in Hlen.
    apply List.Forall_forall. intros p Hp. split; [now apply Hlen|].
    apply is_str_true.
    destruct (is_str (get_field p "user") username) eqn:E; [reflexivity|].
    exfalso. assert (Hex : existsb (fun p => negb (truthy p)
                 || negb (is_str (get_field p "user") username)) ps = true).
    { apply existsb_exists. exists p. split; [exact Hp|].
      rewrite E. apply orb_true_r. }
    congruence.
  - intros [(s & Hs & Hne) Hall]. rewrite Hs.
    cbn [truthy typeof_string andb]. rewrite (str_truthy_true s Hne).
    cbn [negb orb is_str]. rewrite String.eqb_refl. cbn [negb orb].
    assert (Hpass : forallb isPrediction ps = true).
    { apply forallb_forall. intros p Hp.
      rewrite List.Forall_forall in Hall. now apply Hall. }
    rewrite (filter_all _ _ Hpass), Nat.eqb_refl. cbn [negb].
    rewrite predictionChanged_all.
    destruct (existsb _ ps) eqn:Hex; [|reflexivity].
    apply existsb_exists in Hex as (p & Hp & Hbad).
    rewrite List.Forall_forall in Hall. destruct (Hall p Hp) as [Hip Hu].
    rewrite (isPrediction_truthy p Hip), Hu in Hbad. cbn [is_str] in Hbad.
    now rewrite String.eqb_refl in Hbad.
Qed.

Lemma normalizeLoop_hasChanges (clock : nat -> string)
    (entries : list (string * jsval)) :
  forall (i : nat) (acc : NormalizeResult),
    hasChanges (normalizeLoop clock i entries acc) = false
    <-> hasChanges acc = false
        /\ forall j k v, entries !! j = Some (k, v) -> ignored k v = false ->
             entryChanged k v (sanitizeUserEntry (clock (i + j)) k v) = false.
Proof.
  induction entries as [|[k v] rest IH]; intros i acc; cbn [normalizeLoop].
  - split; [intros H; split; [exact H|]; intros j k v Hj; discriminate|tauto].
  - rewrite IH. unfold normalizeStep.
    split.
    + intros [Hacc Hrest]. destruct (ignored k v) eqn:Hig.
      * split; [exact Hacc|]. intros [|j] k0 v0 Hj Hig0.
        { injection Hj as <- <-. congruence. }
        { rewrite Nat.add_succ_r. apply (Hrest j k0 v0 Hj Hig0). }
      * cbn [hasChanges] in Hacc.
        destruct (entryChanged k v _) eqn:Hch; [discriminate|].
        split; [exact Hacc|]. intros [|j] k0 v0 Hj Hig0.
        { injection Hj as <- <-. now rewrite Nat.add_0_r. }
        { rewrite Nat.add_succ_r. apply (Hrest j k0 v0 Hj Hig0). }
    + intros [Hacc Hall]. split.
      * destruct (ignored k v) eqn:Hig; [exact Hacc|]. cbn [hasChanges].
        specialize (Hall 0 k v eq_refl Hig). rewrite Nat.add_0_r in Hall.
        now rewrite Hall.
      * intros j k0 v0 Hj Hig0. specialize (Hall (S j) k0 v0 Hj Hig0).
        now rewrite Nat.add_succ_r in Hall.
Qed.

(** X16: [normalizeUsers] reports no changes exactly when every entry that
    it keeps carries a non-empty string as [updatedAt] and every element of
    its [predictions] is a valid prediction whose [user] is the username.
    The totals, the status and the prices of the stored data play no part:
    the sanitizer may rewrite them without the flag being set. *)
Theorem normalizeUsers_hasChanges (clock : nat -> string) (storedUsers : jsval) :
  hasChanges (normalizeUsers clock storedUsers) = false
  <-> forall j k v,
        Object_entries storedUsers !! j = Some (k, v) -> ignored k v = false ->
        (exists s, get_field v "updatedAt" = VStr s /\ s <> "")
        /\ Forall (fun p => isPrediction p = true /\ get_field p "user" = VStr k)
                  (originalPredictions v).
Proof.
  unfold normalizeUsers.
  destruct (negb (truthy storedUsers) || negb (typeof_object storedUsers)) eqn:Hg.
  - cbn [hasChanges]. split; [|reflexivity]. intros _ j k v Hj.
    destruct storedUsers as [ | |b|n|s|l|o]; try discriminate.
  - rewrite normalizeLoop_hasChanges. cbn [hasChanges]. split.
    + intros [_ Hall] j k v Hj Hig.
      apply (entryChanged_false (clock (0 + j)) k v). now apply Hall.
    + intros Hall. split; [reflexivity|]. intros j k v Hj Hig.
      apply entryChanged_false. now apply (Hall j).
Qed.

End NormalizeFacts.

Section NormalizeContents.
Context {rt : Builtins}.

Lemma sanitizeUserEntry_updatedAt_nonempty (now_iso u : string) (e : jsval) :
  now_iso <> "" -> updatedAt (sanitizeUserEntry now_iso u e) <> "".
Proof.
  intros Hnow. unfold sanitizeUserEntry. cbn [updatedAt].
  destruct (get_field e "updatedAt") as [ | | | |s| | ]; try exact Hnow.
  cbn [typeof_string truthy andb]. unfold str_truthy.
  destruct (String.eqb_spec s ""); cbn [negb]; assumption.
Qed.

(** Sanitizing a sanitized entry again, at any later time, gives the same
    entry as soon as its [updatedAt] is not empty. *)
Lemma sanitizeUserEntry_again (now_iso now_iso' u : string) (e : jsval) :
  updatedAt (sanitizeUserEntry now_iso u e) <> "" ->
  sanitizeUserEntry now_iso' u (VObj (entry_object (sanitizeUserEntry now_iso u e)))
  = sanitizeUserEntry now_iso u e.
Proof.
  set (raws := List.filter isPrediction
                 match get_field e "predictions" with VArr l => l | _ => [] end).
  assert (Hall : Forall (fun x => isPrediction x = true) raws).
  { apply List.Forall_forall. intros x Hx. now apply List.filter_In in Hx. }
  remember (sanitizeUserEntry now_iso u e) as r eqn:Hr.
  assert (Hpred : predictions r = map (sanitizePrediction u) raws)
    by now rewrite Hr.
  assert (Hs1 : Math_round (pointsS1 r) = pointsS1 r).
  { rewrite Hr. unfold sanitizeUserEntry. cbn [pointsS1].
    destruct (Nat.ltb 0 _); apply Math_round_idempotent. }
  assert (Hs2 : Math_round (pointsS2 r) = pointsS2 r).
  { rewrite Hr. unfold sanitizeUserEntry. cbn [pointsS2].
    destruct (Nat.ltb 0 _); apply Math_round_idempotent. }
  assert (Hs1' : Nat.ltb 0 (length (predictions r)) = true ->
                 Math_round (calculateSystem1Points (predictions r)) = pointsS1 r).
  { rewrite Hr. unfold sanitizeUserEntry. cbn [predictions pointsS1].
    now intros ->. }
  assert (Hs2' : Nat.ltb 0 (length (predictions r)) = true ->
                 Math_round (calculateSystem2Points (predictions r)) = pointsS2 r).
  { rewrite Hr. unfold sanitizeUserEntry. cbn [predictions pointsS2].
    now intros ->. }
  clear Hr. intros Hup.
  unfold sanitizeUserEntry.
  change (get_field (VObj (entry_object r)) "predictions")
    with (VArr (map VObj (predictions r))).
  change (get_field (VObj (entry_object r)) "pointsS1") with (VNum (pointsS1 r)).
  change (get_field (VObj (entry_object r)) "pointsS2") with (VNum (pointsS2 r)).
  change (get_field (VObj (entry_object r)) "updatedAt") with (VStr (updatedAt r)).
  cbn [nullish ToNumber typeof_string truthy andb].
  rewrite Hpred, (filter_isPrediction_sanitized u raws Hall),
    map_sanitizePrediction_sanitized, <- Hpred.
  rewrite Hs1, Hs2, (str_truthy_true _ Hup).
  destruct r as [ps s1 s2 up]. cbn [predictions pointsS1 pointsS2 updatedAt] in *.
  f_equal; destruct (Nat.ltb 0 (length ps)); auto.
Qed.

(** A sanitized entry, written out and read back, is one for which
    [normalizeUsers] sets no flag. *)
Lemma sanitized_entry_unchanged (now_iso now_iso' u : string) (e : jsval) :
  updatedAt (sanitizeUserEntry now_iso u e) <> "" ->
  entryChanged u (VObj (entry_object (sanitizeUserEntry now_iso u e)))
    (sanitizeUserEntry now_iso' u
       (VObj (entry_object (sanitizeUserEntry now_iso u e)))) = false.
Proof.
  intros Hup. apply entryChanged_false. split.
  - exists (updatedAt (sanitizeUserEntry now_iso u e)). split; [reflexivity|exact Hup].
  - unfold originalPredictions.
    change (get_field (VObj (entry_object (sanitizeUserEntry now_iso u e)))
              "predictions")
      with (VArr (map VObj (predictions (sanitizeUserEntry now_iso u e)))).
    unfold sanitizeUserEntry. cbn [predictions].
    apply List.Forall_forall. intros p Hp.
    apply List.in_map_iff in Hp as (o & <- & Ho).
    apply List.in_map_iff in Ho as (raw & <- & Hraw).
    apply List.filter_In in Hraw as [_ Hraw]. split.
    + now apply sanitizePrediction_isPrediction.
    + cbn [get_field]. apply (sanitizePrediction_fields u raw).
Qed.

Lemma normalizeStep_plain (acc : NormalizeResult) (now_iso k : string) (v : jsval) :
  k <> "__proto__" ->
  normalizedUsers (normalizeStep acc now_iso k v)
  = if ignored k v then normalizedUsers acc
    else {| own := <[k := sanitizeUserEntry now_iso k v]>
                     (own (normalizedUsers acc));
            proto := proto (normalizedUsers acc) |}.
Proof.
  intros Hk. unfold normalizeStep. destruct (ignored k v); [reflexivity|].
  cbn [normalizedUsers]. unfold users_set.
  destruct (String.eqb_spec k "__proto__"); [contradiction|].
  now destruct (own (normalizedUsers acc) !! k).
Qed.

Lemma normalizeLoop_frame (clock : nat -> string)
    (entries : list (string * jsval)) :
  forall (i : nat) (acc : NormalizeResult),
    ("__proto__" ∉ entries.*1) ->
    proto (normalizedUsers (normalizeLoop clock i entries acc))
    = proto (normalizedUsers acc)
    /\ forall k, (k ∉ entries.*1) ->
         own (normalizedUsers (normalizeLoop clock i entries acc)) !! k
         = own (normalizedUsers acc) !! k.
Proof.
  induction entries as [|[k v] rest IH]; intros i acc Hplain; [tauto|].
  cbn [normalizeLoop]. cbn in Hplain.
  apply not_elem_of_cons in Hplain as [Hk Hplain].
  destruct (IH (S i) (normalizeStep acc (clock i) k v) Hplain) as [Hp Ho].
  assert (Hk' : k <> "__proto__") by congruence.
  pose proof (normalizeStep_plain acc (clock i) k v Hk') as Hstep.
  split.
  - rewrite Hp, Hstep. now destruct (ignored k v).
  - intros k' Hk'in. cbn in Hk'in. apply not_elem_of_cons in Hk'in as [Hne Hk'in].
    rewrite (Ho k' Hk'in), Hstep. destruct (ignored k v); [reflexivity|].
    cbn [own]. now rewrite lookup_insert_ne by congruence.
Qed.

Lemma normalizeLoop_entry (clock : nat -> string)
    (entries : list (string * jsval)) :
  forall (i : nat) (acc : NormalizeResult) (j : nat) (k : string) (v : jsval),
    NoDup entries.*1 ->
    ("__proto__" ∉ entries.*1) ->
    entries !! j = Some (k, v) ->
    own (normalizedUsers (normalizeLoop clock i entries acc)) !! k
    = if ignored k v then own (normalizedUsers acc) !! k
      else Some (sanitizeUserEntry (clock (i + j)) k v).
Proof.
  induction entries as [|[k0 v0] rest IH]; intros i acc j k v Hnd Hplain Hj;
    [discriminate|].
  cbn [normalizeLoop]. cbn in Hnd, Hplain.
  apply NoDup_cons in Hnd as [Hnotin Hnd].
  apply not_elem_of_cons in Hplain as [Hk0 Hplain].
  assert (Hk0' : k0 <> "__proto__") by congruence.
  pose proof (normalizeStep_plain acc (clock i) k0 v0 Hk0') as Hstep.
  destruct j as [|j].
  - injection Hj as <- <-.
    destruct (normalizeLoop_frame clock rest (S i)
                (normalizeStep acc (clock i) k0 v0) Hplain) as [_ Ho].
    rewrite (Ho k0 Hnotin), Hstep, Nat.add_0_r.
    destruct (ignored k0 v0); [reflexivity|]. cbn [own].
    now rewrite lookup_insert_eq.
  - cbn in Hj. rewrite (IH (S i) _ j k v Hnd Hplain Hj), Hstep.
    assert (Hne : k <> k0).
    { intros ->. apply Hnotin. apply list_elem_of_fmap. exists (k0, v).
      split; [reflexivity|]. now apply list_elem_of_lookup_2 with j. }
    replace (S i + j) with (i + S j) by lia.
    destruct (ignored k v); [|reflexivity].
    destruct (ignored k0 v0); [reflexivity|]. cbn [own].
    now rewrite lookup_insert_ne by congruence.
Qed.

Lemma normalizeLoop_origin (clock : nat -> string)
    (entries : list (string * jsval)) :
  forall (i : nat) (acc : NormalizeResult) (k : string) (e : LeagueEntry),
    ("__proto__" ∉ entries.*1) ->
    own (normalizedUsers (normalizeLoop clock i entries acc)) !! k = Some e ->
    own (normalizedUsers acc) !! k = Some e
    \/ exists j v, entries !! j = Some (k, v) /\ ignored k v = false
                   /\ e = sanitizeUserEntry (clock (i + j)) k v.
Proof.
  induction entries as [|[k0 v0] rest IH]; intros i acc k e Hplain; [now left|].
  cbn [normalizeLoop]. cbn in Hplain.
  apply not_elem_of_cons in Hplain as [Hk0 Hplain].
  assert (Hk0' : k0 <> "__proto__") by congruence.
  intros He. destruct (IH (S i) _ k e Hplain He) as [Hacc|(j & v & Hj & Hig & ->)].
  - rewrite (normalizeStep_plain acc (clock i) k0 v0 Hk0') in Hacc.
    destruct (ignored k0 v0) eqn:Hig0; [now left|]. cbn [own] in Hacc.
    destruct (decide (k = k0)) as [->|Hne].
    + rewrite lookup_insert_eq in Hacc. injection Hacc as <-.
      right. exists 0, v0. rewrite Nat.add_0_r. auto.
    + rewrite lookup_insert_ne in Hacc by congruence. now left.
  - right. exists (S j), v. replace (i + S j) with (S i + j) by lia. auto.
Qed.

(** X17: what [normalizeUsers] returns for a collection whose keys are
    distinct and do not include [__proto__]: the users are exactly the
    entries that are kept (non-empty username, value an object), each under
    its username and in its sanitized form; every other value of the
    collection is left out. *)
Theorem normalizeUsers_entries (clock : nat -> string) (storedUsers : jsval) :
  NoDup (Object_entries storedUsers).*1 ->
  ("__proto__" ∉ (Object_entries storedUsers).*1) ->
  let result := normalizedUsers (normalizeUsers clock storedUsers) in
  proto result = None
  /\ (forall j k v, Object_entries storedUsers !! j = Some (k, v) ->
        own result !! k
        = if ignored k v then None else Some (sanitizeUserEntry (clock j) k v))
  /\ (forall k, (k ∉ (Object_entries storedUsers).*1) -> own result !! k = None)
  /\ (forall k e, own result !! k = Some e ->
        k <> "" /\ Forall (fun p => obj_get p "user" = VStr k) (predictions e)).
Proof.
  intros Hnd Hplain result. subst result. unfold normalizeUsers.
  set (empty := {| normalizedUsers := {| own := ∅; proto := None |};
                   hasChanges := false |}).
  destruct (negb (truthy storedUsers) || negb (typeof_object storedUsers)) eqn:Hg.
  - cbn [normalizedUsers own proto]. split; [reflexivity|].
    split; [|split; [reflexivity|]].
    + intros j k v Hj. exfalso.
      destruct storedUsers as [ | |b|n|s|l|o]; try discriminate.
    + intros k e Hk. discriminate.
  - destruct (normalizeLoop_frame clock (Object_entries storedUsers) 0 empty
                Hplain) as [Hp Ho].
    split; [exact Hp|]. split; [|split].
    + intros j k v Hj.
      now rewrite (normalizeLoop_entry clock _ 0 empty j k v Hnd Hplain Hj).
    + intros k Hk. now rewrite (Ho k Hk).
    + intros k e He.
      destruct (normalizeLoop_origin clock _ 0 empty k e Hplain He)
        as [Hacc|(j & v & Hj & Hig & ->)]; [discriminate|].
      split.
      * intros ->. discriminate.
      * unfold sanitizeUserEntry. cbn [predictions].
        apply List.Forall_forall. intros p Hp'.
        apply List.in_map_iff in Hp' as (raw & <- & _).
        apply (sanitizePrediction_fields k raw).
Qed.

(** X18: normalizing what [normalizeUsers] returned, written out with its
    users in any order and read back, reports no changes and returns the
    same users, whatever the time at which it is done.  The clock readings
    are not empty and no key of the stored collection is [__proto__]. *)
Theorem normalizeUsers_twice (clock clock' : nat -> string) (storedUsers : jsval)
    (written : list (string * LeagueEntry)) :
  (forall i, clock i <> "") ->
  ("__proto__" ∉ (Object_entries storedUsers).*1) ->
  let once := normalizeUsers clock storedUsers in
  written ≡ₚ map_to_list (own (normalizedUsers once)) ->
  let twice := normalizeUsers clock' (users_value written) in
  hasChanges twice = false
  /\ normalizedUsers twice = normalizedUsers once.
Proof.
  intros Hclock Hplain once Hwritten twice.
  set (m1 := own (normalizedUsers once)) in *.
  assert (Hin_written : forall k e, (k, e) ∈ written <-> m1 !! k = Some e).
  { intros k e. rewrite Hwritten. apply elem_of_map_to_list. }
  assert (Hp1 : proto (normalizedUsers once) = None).
  { unfold once, normalizeUsers.
    destruct (negb (truthy storedUsers) || negb (typeof_object storedUsers));
      [reflexivity|].
    now destruct (normalizeLoop_frame clock (Object_entries storedUsers) 0
                    {| normalizedUsers := {| own := ∅; proto := None |};
                       hasChanges := false |} Hplain). }
  (* every user of the first result is a sanitized entry *)
  assert (Horigin : forall k e, m1 !! k = Some e ->
            k <> "" /\ k <> "__proto__"
            /\ exists now_iso v, now_iso <> "" /\ e = sanitizeUserEntry now_iso k v).
  { intros k e He. unfold m1, once, normalizeUsers in He.
    destruct (negb (truthy storedUsers) || negb (typeof_object storedUsers));
      [discriminate|].
    destruct (normalizeLoop_origin clock _ 0 _ k e Hplain He)
      as [Hacc|(j & v & Hj & Hig & ->)]; [discriminate|].
    split; [intros ->; discriminate|]. split.
    - intros ->. apply Hplain. apply list_elem_of_fmap. exists ("__proto__", v).
      split; [reflexivity|]. now apply list_elem_of_lookup_2 with j.
    - exists (clock (0 + j)), v. split; [apply Hclock|reflexivity]. }
  set (l2 := map (fun kv : string * LeagueEntry =>
                    (fst kv, VObj (entry_object (snd kv)))) written).
  assert (Hkeys : l2.*1 = written.*1).
  { unfold l2. rewrite <- list_fmap_compose. reflexivity. }
  assert (Hnd2 : NoDup l2.*1).
  { rewrite Hkeys, Hwritten. apply NoDup_fst_map_to_list. }
  assert (Hplain2 : "__proto__" ∉ l2.*1).
  { rewrite Hkeys. intros Hin. apply list_elem_of_fmap in Hin as ([k e] & Hk & Hin).
    cbn in Hk. subst k. apply Hin_written in Hin.
    now destruct (Horigin _ _ Hin) as (_ & Hne & _). }
  assert (Hl2 : forall j k v, l2 !! j = Some (k, v) ->
            exists e, v = VObj (entry_object e) /\ m1 !! k = Some e).
  { intros j k v Hj. unfold l2 in Hj. rewrite list_lookup_fmap in Hj.
    destruct (written !! j) as [[k0 e0]|] eqn:E; [|discriminate].
    cbn in Hj. injection Hj as <- <-. exists e0. split; [reflexivity|].
    apply Hin_written. now apply list_elem_of_lookup_2 with j. }
  assert (Hig2 : forall j k v, l2 !! j = Some (k, v) -> ignored k v = false).
  { intros j k v Hj. destruct (Hl2 j k v Hj) as (e & -> & He).
    destruct (Horigin k e He) as (Hne & _). unfold ignored.
    now rewrite (str_truthy_true k Hne). }
  unfold twice, normalizeUsers, users_value. fold l2.
  cbn [truthy typeof_object negb orb Object_entries].
  set (empty := {| normalizedUsers := {| own := ∅; proto := None |};
                   hasChanges := false |}).
  split.
  - apply normalizeLoop_hasChanges. split; [reflexivity|].
    intros j k v Hj _. destruct (Hl2 j k v Hj) as (e & -> & He).
    destruct (Horigin k e He) as (_ & _ & now_iso & v0 & Hnow & ->).
    apply sanitized_entry_unchanged.
    now apply sanitizeUserEntry_updatedAt_nonempty.
  - destruct (normalizeLoop_frame clock' l2 0 empty Hplain2) as [Hp Ho].
    destruct (normalizedUsers (normalizeLoop clock' 0 l2 empty)) as [o2 p2] eqn:E2.
    destruct (normalizedUsers once) as [o1 p1] eqn:E1.
    cbn [proto own] in *. subst p1 p2 m1. f_equal.
    apply map_eq. intros k.
    destruct (decide (k ∈ l2.*1)) as [Hin|Hout].
    + apply list_elem_of_fmap in Hin as ([k' v] & Hk & Hkv). cbn in Hk. subst k'.
      apply list_elem_of_lookup in Hkv as [j Hj].
      pose proof (normalizeLoop_entry clock' l2 0 empty j k v Hnd2 Hplain2 Hj) as He.
      rewrite E2 in He. cbn [own] in He. rewrite He, (Hig2 j k v Hj).
      destruct (Hl2 j k v Hj) as (e & -> & Hm). rewrite Hm. f_equal.
      destruct (Horigin k e Hm) as (_ & _ & now_iso & v0 & Hnow & ->).
      apply sanitizeUserEntry_again.
      now apply sanitizeUserEntry_updatedAt_nonempty.
    + specialize (Ho k Hout). cbn [own] in Ho. rewrite Ho.
      unfold empty. cbn [own normalizedUsers]. rewrite lookup_empty. symmetry. apply not_elem_of_dom.
      intros Hdom. apply Hout. rewrite Hkeys.
      apply elem_of_dom in Hdom as [e He].
      apply list_elem_of_fmap. exists (k, e). split; [reflexivity|].
      now apply Hin_written.
Qed.

End NormalizeContents.

(** ** The next market day and the next Friday *)

Import Dates.

Lemma dayNumber_midnight (d n : Z) :
  dayNumber (d * msPerDay + n * msPerDay) = (d + n)%Z.
Proof.
  unfold dayNumber. rewrite <- Z.mul_add_distr_r. now apply Z.div_mul.
Qed.

Lemma dayNumber_plus (t n : Z) :
  dayNumber (t + n * msPerDay) = (dayNumber t + n)%Z.
Proof. unfold dayNumber. now apply Z.div_add. Qed.

Lemma midnight_mod (d : Z) : ((d * msPerDay) mod msPerDay = 0)%Z.
Proof. now apply Z.mod_mul. Qed.

(** The loop started at a midnight stops after at most two steps, on the
    first day from there that is neither a Saturday nor a Sunday. *)
Lemma skipWeekend_spec (d : Z) (fuel : nat) :
  exists n : Z,
    skipWeekend (3 + fuel) (Some (d * msPerDay)%Z)
    = Some (Some ((d + n) * msPerDay)%Z)
    /\ (0 <= n <= 2)%Z
    /\ (1 <= (d + n + 4) mod 7 <= 5)%Z
    /\ forall i, (0 <= i < n)%Z ->
         ((d + i + 4) mod 7 = 0 \/ (d + i + 4) mod 7 = 6)%Z.
Proof.
  assert (Hday : forall x, dayNumber (x * msPerDay) = x).
  { intros x. unfold dayNumber. now apply Z.div_mul. }
  assert (Hnext : forall x, (x * msPerDay + 1 * msPerDay = (x + 1) * msPerDay)%Z)
    by (intros x; ring).
  pose proof (Z.mod_pos_bound (d + 4) 7 eq_refl) as Hw.
  cbn [Nat.add skipWeekend]. unfold dayIs, getDay, setDatePlus.
  rewrite Hday.
  destruct (Z.eqb_spec ((d + 4) mod 7) 0) as [E0|E0];
    [|destruct (Z.eqb_spec ((d + 4) mod 7) 6) as [E6|E6]]; cbn [orb].
  - (* a Sunday: one step *)
    rewrite Hnext, Hday.
    assert (E1 : ((d + 1 + 4) mod 7 = 1)%Z)
      by (revert E0; Z.div_mod_to_equations; lia).
    rewrite E1. cbn [Z.eqb orb]. exists 1%Z.
    split; [reflexivity|]. split; [lia|]. split; [lia|].
    intros i Hi. left. now replace i with 0%Z by lia; rewrite Z.add_0_r.
  - (* a Saturday: two steps *)
    rewrite Hnext, Hday.
    assert (E1 : ((d + 1 + 4) mod 7 = 0)%Z)
      by (revert E6; Z.div_mod_to_equations; lia).
    rewrite E1. cbn [Z.eqb orb]. rewrite Hnext, Hday.
    assert (E2 : ((d + 1 + 1 + 4) mod 7 = 1)%Z)
      by (revert E6; Z.div_mod_to_equations; lia).
    rewrite E2. cbn [Z.eqb orb]. exists 2%Z.
    split; [f_equal; f_equal; ring|]. split; [lia|].
    split; [replace (d + 2 + 4)%Z with (d + 1 + 1 + 4)%Z by ring; lia|].
    intros i Hi. assert (i = 0 \/ i = 1)%Z as [->| ->] by lia.
    + right. now rewrite Z.add_0_r.
    + now left.
  - exists 0%Z. rewrite Z.add_0_r. split; [reflexivity|]. split; [lia|].
    split; [lia|]. intros i Hi. lia.
Qed.

(** X19: [getNextMarketDay] ends (three tests of the loop condition are
    enough) and returns the midnight that begins the first day after the
    reference day that is neither a Saturday nor a Sunday; that day is at
    most three days after the reference day.  An invalid date gives an
    invalid date. *)
Theorem getNextMarketDay_first_weekday_after (t : Z) (fuel : nat) :
  (exists r,
     getNextMarketDay (3 + fuel) (Some t) = Some (Some r)
     /\ (r mod msPerDay = 0)%Z
     /\ (dayNumber t < dayNumber r <= dayNumber t + 3)%Z
     /\ (exists w, getDay (Some r) = Some w /\ (1 <= w <= 5)%Z)
     /\ forall d, (dayNumber t < d < dayNumber r)%Z ->
          dayIs (Some (d * msPerDay)%Z) 0 = true
          \/ dayIs (Some (d * msPerDay)%Z) 6 = true)
  /\ getNextMarketDay (3 + fuel) None = Some None.
Proof.
  split; [|reflexivity].
  unfold getNextMarketDay, setHoursToMidnight, setDatePlus.
  replace (dayNumber t * msPerDay + 1 * msPerDay)%Z
    with ((dayNumber t + 1) * msPerDay)%Z by ring.
  destruct (skipWeekend_spec (dayNumber t + 1) fuel) as (n & Hs & Hn & Hw & Hskip).
  exists ((dayNumber t + 1 + n) * msPerDay)%Z.
  assert (Hday : forall x, dayNumber (x * msPerDay) = x).
  { intros x. unfold dayNumber. now apply Z.div_mul. }
  split; [exact Hs|]. split; [apply midnight_mod|]. rewrite Hday.
  split; [lia|]. split.
  - eexists. unfold getDay. rewrite Hday. split; [reflexivity|exact Hw].
  - intros d Hd. unfold dayIs, getDay. rewrite Hday.
    destruct (Hskip (d - (dayNumber t + 1))%Z) as [E|E]; [lia| |];
      replace (dayNumber t + 1 + (d - (dayNumber t + 1)) + 4)%Z
        with (d + 4)%Z in E by ring; rewrite E; auto.
Qed.

(** X20: [getNextFriday] returns the midnight that begins the first Friday
    strictly after the reference day: between one and seven days later,
    and a full week later when the reference day is itself a Friday.  The
    next market day after it is the Monday three days later.  An invalid
    date gives an invalid date. *)
Theorem getNextFriday_first_friday_after (t : Z) :
  (exists r,
     getNextFriday (Some t) = Some r
     /\ (r mod msPerDay = 0)%Z
     /\ getDay (Some r) = Some 5%Z
     /\ (dayNumber t < dayNumber r <= dayNumber t + 7)%Z
     /\ (forall d, (dayNumber t < d < dayNumber r)%Z ->
           dayIs (Some (d * msPerDay)%Z) 5 = false)
     /\ (getDay (Some t) = Some 5%Z -> dayNumber r = (dayNumber t + 7)%Z)
     /\ forall fuel,
          getNextMarketDay (3 + fuel) (Some r)
          = Some (Some ((dayNumber r + 3) * msPerDay)%Z))
  /\ getNextFriday None = None.
Proof.
  split; [|reflexivity].
  assert (Hday : forall x, dayNumber (x * msPerDay) = x).
  { intros x. unfold dayNumber. now apply Z.div_mul. }
  unfold getNextFriday, setHoursToMidnight, getDay. rewrite Hday.
  set (d0 := dayNumber t). set (w := ((d0 + 4) mod 7)%Z).
  pose proof (Z.mod_pos_bound (d0 + 4) 7 eq_refl) as Hw. fold w in Hw.
  assert (Hrem : Z.rem (5 - w + 7) 7 = ((5 - w + 7) mod 7)%Z)
    by (apply Z.rem_mod_nonneg; lia).
  rewrite Hrem. set (n := ((5 - w + 7) mod 7)%Z).
  pose proof (Z.mod_pos_bound (5 - w + 7) 7 eq_refl) as Hn. fold n in Hn.
  set (k := if (n =? 0)%Z then 7%Z else n).
  assert (Hk : (1 <= k <= 7)%Z) by (unfold k; destruct (Z.eqb_spec n 0); lia).
  assert (Hfri : ((d0 + k + 4) mod 7 = 5)%Z).
  { unfold k, n, w. destruct (Z.eqb_spec ((5 - (d0 + 4) mod 7 + 7) mod 7) 0);
      Z.div_mod_to_equations; lia. }
  assert (Hfirst : forall i, (0 < i < k)%Z -> ((d0 + i + 4) mod 7 <> 5)%Z).
  { intros i Hi. revert Hi. unfold k, n, w.
    destruct (Z.eqb_spec ((5 - (d0 + 4) mod 7 + 7) mod 7) 0);
      Z.div_mod_to_equations; lia. }
  exists ((d0 + k) * msPerDay)%Z.
  split.
  { unfold k, setDatePlus. destruct (n =? 0)%Z; f_equal; ring. }
  split; [apply midnight_mod|]. rewrite Hday.
  split; [now rewrite Hfri|]. split; [lia|]. split.
  { intros d Hd. unfold dayIs, getDay. rewrite Hday.
    apply Z.eqb_neq. replace d with (d0 + (d - d0))%Z by ring.
    apply Hfirst. lia. }
  split.
  { intros [= E]. fold w in E. unfold k, n. rewrite E. reflexivity. }
  intros fuel. unfold getNextMarketDay, setHoursToMidnight, setDatePlus.
  rewrite Hday.
  replace ((d0 + k) * msPerDay + 1 * msPerDay)%Z
    with ((d0 + k + 1) * msPerDay)%Z by ring.
  destruct (skipWeekend_spec (d0 + k + 1) fuel) as (m & Hs & Hm & Hwd & Hskip).
  rewrite Hs. do 3 f_equal.
  assert (m = 2)%Z; [|lia].
  assert (Hsat : ((d0 + k + 1 + 0 + 4) mod 7 = 6)%Z)
    by (revert Hfri; Z.div_mod_to_equations; lia).
  assert (Hsun : ((d0 + k + 1 + 1 + 4) mod 7 = 0)%Z)
    by (revert Hfri; Z.div_mod_to_equations; lia).
  destruct (Z.eq_dec m 0%Z) as [->|]; [rewrite Hsat in Hwd; lia|].
  destruct (Z.eq_dec m 1%Z) as [->|]; [rewrite Hsun in Hwd; lia|].
  lia.
Qed.

(** ** The theorems at concrete inputs *)

Import MoreExamples.

Lemma mergeLeagueUsers_twice_witness :
  added (mergeLeagueUsers (rt := Sample.sample_builtins) fixedClock
           (own (mergedUsers
                   (mergeLeagueUsers (rt := Sample.sample_builtins) fixedClock
                      mergeExisting mergeIncoming mergeOptions)))
           mergeIncoming mergeOptions) = [].
Proof.
  assert (Hnd : NoDup (Object_entries mergeIncoming).*1) by compute_done.
  assert (Hplain : forall k, k ∈ (Object_entries mergeIncoming).*1 ->
                     inherited_name k = false).
  { intros k Hk. cbn in Hk.
    repeat (apply elem_of_cons in Hk as [->|Hk]; [reflexivity|]).
    now apply not_elem_of_nil in Hk. }
  exact (proj1 (mergeLeagueUsers_twice (rt := Sample.sample_builtins) fixedClock
                  mergeExisting mergeIncoming mergeOptions Hnd Hplain)).
Defined.

Lemma cache_size_never_exceeds_maxEntries_witness :
  run [CallSet (num_of_Z 1000) "AAPL" 1; CallGet (num_of_Z 2000) " aapl "]
      appleHeap (createSymbolSearchCache singleEntryOptions)
  <> None
  /\ forall h' c',
       run [CallSet (num_of_Z 1000) "AAPL" 1; CallGet (num_of_Z 2000) " aapl "]
           appleHeap (createSymbolSearchCache singleEntryOptions)
       = Some (h', c') ->
       num_gt (num_of_nat (size c')) (maxEntries c') = false.
Proof.
  split; [vm_compute; discriminate|].
  intros h' c' Hrun.
  exact (proj1 (proj2 (proj2
           (cache_size_never_exceeds_maxEntries singleEntryOptions _ _ _ _ Hrun)))).
Defined.

Lemma set_then_get_returns_the_matches_witness :
  exists h' c' e',
    SymbolSearchCache.set (num_of_Z 1000) "AAPL" 1 appleHeap
      (createSymbolSearchCache defaultOptions) = Some (h', c')
    /\ Map_get (cache c') "aapl" = Some e'
    /\ view h' (SymbolSearchCache.matches e') = Some [apple].
Proof.
  destruct (set_then_get_returns_the_matches (num_of_Z 1000) "AAPL" 1 [apple]
              appleHeap (createSymbolSearchCache defaultOptions))
    as (h' & c' & e' & Hset & _ & Hget & _ & _ & Hview & _).
  - vm_compute. reflexivity.
  - vm_compute. reflexivity.
  - vm_compute. reflexivity.
  - vm_compute. discriminate.
  - exists h', c', e'. split; [exact Hset|]. split; [exact Hget|exact Hview].
Defined.

Lemma set_evicts_least_recently_used_witness :
  size (snd (afterSetApple singleEntryOptions)) = 1
  /\ exists h' c',
       SymbolSearchCache.set (num_of_Z 2000) "MSFT" 1
         (fst (afterSetApple singleEntryOptions))
         (snd (afterSetApple singleEntryOptions)) = Some (h', c')
       /\ size c' = 1 /\ Map_get (cache c') "aapl" = None.
Proof.
  split; [reflexivity|].
  destruct (set_evicts_least_recently_used (num_of_Z 2000) "MSFT" 1 [apple]
              (fst (afterSetApple singleEntryOptions))
              (snd (afterSetApple singleEntryOptions)))
    as (h' & c' & Hset & _ & Hevict).
  - vm_compute. reflexivity.
  - vm_compute. reflexivity.
  - vm_compute. reflexivity.
  - vm_compute. reflexivity.
  - vm_compute. discriminate.
  - exists h', c'. split; [exact Hset|].
    destruct Hevict as (ko & eo & _ & Hold & _ & Hgone & _ & Hsize).
    + vm_compute. reflexivity.
    + vm_compute. reflexivity.
    + split; [exact Hsize|].
      apply Map_get_In in Hold. vm_compute in Hold.
      destruct Hold as [[= <- _]|[]]. exact Hgone.
Defined.

Lemma get_protects_from_next_eviction_witness :
  size (snd (afterTwoSets)) = 2
  /\ exists h2 c2 e,
       SymbolSearchCache.set (num_of_Z 3000) "GOOG" 1
         (fst (fst afterGetApple)) (snd (fst afterGetApple)) = Some (h2, c2)
       /\ Map_get (cache c2) "aapl" = Some e.
Proof.
  split; [reflexivity|].
  destruct (get_protects_from_next_eviction (num_of_Z 2000) (num_of_Z 3000)
              "AAPL" "GOOG" 1 [apple] (fst afterTwoSets) (fst (fst afterGetApple))
              (snd afterTwoSets) (snd (fst afterGetApple))
              (default 0 (snd afterGetApple)))
    as (h2 & c2 & e & Hset & _ & _ & Hkept).
  - vm_compute. reflexivity.
  - vm_compute. reflexivity.
  - vm_compute. reflexivity.
  - vm_compute. lia.
  - vm_compute. reflexivity.
  - vm_compute. reflexivity.
  - vm_compute. discriminate.
  - vm_compute. discriminate.
  - exists h2, c2, e. split; [exact Hset|exact Hkept].
Defined.

Lemma pruneExpired_removes_expired_only_witness :
  Map_get (cache (snd (afterSetApple defaultOptions))) "aapl" <> None
  /\ Map_get (cache (pruneExpired (num_of_Z 400000)
                       (snd (afterSetApple defaultOptions)))) "aapl" = None.
Proof.
  split; [vm_compute; discriminate|].
  rewrite (proj1 (pruneExpired_removes_expired_only (num_of_Z 400000)
                    (fst (afterSetApple defaultOptions))
                    (snd (afterSetApple defaultOptions)) eq_refl) "aapl").
  vm_compute. reflexivity.
Defined.

Lemma normalizeUsers_entries_witness :
  own (normalizedUsers (normalizeUsers (rt := Sample.sample_builtins) fixedClock
                          mergeIncoming)) !! "Beta"
  = Some (sanitizeUserEntry (rt := Sample.sample_builtins) (fixedClock 1) "Beta"
            (rawEntry [VObj basePrediction] 1 12 "2024-03-02T00:00:00.000Z")).
Proof.
  assert (Hnd : NoDup (Object_entries mergeIncoming).*1) by compute_done.
  assert (Hplain : "__proto__" ∉ (Object_entries mergeIncoming).*1).
  { intros Hk. cbn in Hk.
    repeat (apply elem_of_cons in Hk as [Hk|Hk]; [discriminate|]).
    now apply not_elem_of_nil in Hk. }
  exact (proj1 (proj2 (normalizeUsers_entries (rt := Sample.sample_builtins)
                         fixedClock mergeIncoming Hnd Hplain))
           1 "Beta" _ eq_refl).
Defined.

Lemma normalizeUsers_twice_witness :
  hasChanges
    (normalizeUsers (rt := Sample.sample_builtins) fixedClock
       (users_value
          (map_to_list
             (own (normalizedUsers
                     (normalizeUsers (rt := Sample.sample_builtins) fixedClock
                        mergeIncoming)))))) = false.
Proof.
  assert (Hclock : forall i, fixedClock i <> "") by (intros i; discriminate).
  assert (Hplain : "__proto__" ∉ (Object_entries mergeIncoming).*1).
  { intros Hk. cbn in Hk.
    repeat (apply elem_of_cons in Hk as [Hk|Hk]; [discriminate|]).
    now apply not_elem_of_nil in Hk. }
  exact (proj1 (normalizeUsers_twice (rt := Sample.sample_builtins)
                  fixedClock fixedClock mergeIncoming _ Hclock Hplain
                  (reflexivity _))).
Defined.
